(** * light/trace_embree.cc: scene construction and shadow-ray filtering

    A shallow embedding of the Embree back end of the light tool: the
    classification of faces into occlusion groups, the triangulation of
    those groups, the reverse lookup from primitives to faces and models,
    the walk over the node tree of skip models, the per-hit transparency
    and shadow filter, the single-ray light test, sky test and dirt trace,
    and the ray stream with its readers. *)

From Stdlib Require Import ZArith List Lia Bool String Ascii QArith Lqa.
From Stdlib.Strings Require Byte.
From Stdlib Require Import Floats.SpecFloat.
From Stdlib Require Import ClassicalDescription.
From stdpp Require Import base option list list_numbers strings.

Local Open Scope Z_scope.

(** ** Fatal errors

    [Error(...)], a failed [Q_assert] and the [std::out_of_range] thrown by
    [std::vector::at] all end the process; [Fatal] carries the message. *)

Inductive outcome (A : Type) : Type :=
| Ok (a : A)
| Fatal (msg : string).
Arguments Ok {A} a.
Arguments Fatal {A} msg.

#[global] Instance outcome_ret : MRet outcome := fun A a => Ok a.
#[global] Instance outcome_bind : MBind outcome := fun A B f m =>
  match m with
  | Ok a => f a
  | Fatal msg => Fatal msg
  end.

Definition Q_assert (b : bool) (expr : string) : outcome unit :=
  if b then Ok tt else Fatal expr.

Definition is_Ok {A} (o : outcome A) : bool :=
  match o with Ok _ => true | Fatal _ => false end.

(** [std::vector::at]: bounds-checked read. *)
Definition vector_at {A} (v : list A) (i : Z) : outcome A :=
  if (0 <=? i) && (i <? Z.of_nat (length v))
  then match v !! Z.to_nat i with
       | Some a => Ok a
       | None => Fatal "vector::at"
       end
  else Fatal "vector::at".

(** A store through a raw pointer into an allocation of [length a]
    elements.  Outside the allocation the C++ behaviour is undefined; the
    model stops there. *)
Definition array_store {A} (a : list A) (i : Z) (x : A) : outcome (list A) :=
  if (0 <=? i) && (i <? Z.of_nat (length a))
  then Ok (<[Z.to_nat i := x]> a)
  else Fatal "store outside the allocation".

(** Monadic left fold: a [for] loop whose body may end the process. *)
Fixpoint foldM {A S} (body : S -> A -> outcome S) (l : list A) (s : S)
  : outcome S :=
  match l with
  | [] => Ok s
  | a :: l' => s' ← body s a; foldM body l' s'
  end.

(** ** Single-precision arithmetic ([vec_t] is [float] in the light tool) *)

Definition float := spec_float.

Definition f32_prec : Z := 24.
Definition f32_emax : Z := 128.
Definition f64_prec : Z := 53.
Definition f64_emax : Z := 1024.

Definition float_of_int (z : Z) : float :=
  binary_normalize f32_prec f32_emax z 0 false.
Definition fadd : float -> float -> float := SFadd f32_prec f32_emax.
Definition fsub : float -> float -> float := SFsub f32_prec f32_emax.
Definition fmul : float -> float -> float := SFmul f32_prec f32_emax.
Definition fdiv : float -> float -> float := SFdiv f32_prec f32_emax.
Definition flt : float -> float -> bool := SFltb.
Definition fle : float -> float -> bool := SFleb.
Definition feq : float -> float -> bool := SFeqb.
Definition fgt (a b : float) : bool := SFltb b a.
Definition fge (a b : float) : bool := SFleb b a.

(** Widening to [double] is exact; narrowing rounds to nearest even. *)
Definition renormalize (prec emax : Z) (x : spec_float) : spec_float :=
  match x with
  | S754_finite s m e =>
      binary_normalize prec emax (if s then Z.neg m else Z.pos m) e s
  | _ => x
  end.
Definition double_of_float : float -> spec_float := renormalize f64_prec f64_emax.
Definition float_of_double : spec_float -> float := renormalize f32_prec f32_emax.
Definition double_of_int (z : Z) : spec_float :=
  binary_normalize f64_prec f64_emax z 0 false.
Definition dsub : spec_float -> spec_float -> spec_float := SFsub f64_prec f64_emax.

Definition f0 : float := float_of_int 0.
Definition f1 : float := float_of_int 1.

Definition vec3 : Type := float * float * float.

Definition vec3_zero : vec3 := (f0, f0, f0).

(** ** The map data read by the tracer

    A pointer to a constant structure is modelled by the address of the
    structure together with the fields read through it; pointer comparison
    is comparison of the addresses. *)

Record bsp2_dface_t := {
  face_addr : nat;
  numedges : Z;
  texinfo : Z
}.

Record dmodel_t := {
  headnode0 : Z;
  firstface : Z;
  numfaces : Z
}.

(** The settings of a model: [boolValue()], [intValue()] and
    [floatValue()] of the corresponding keys, and [isWorld()]. *)
Record modelinfo_t := {
  mi_addr : nat;
  model : dmodel_t;
  isWorld : bool;
  shadow : bool;
  shadowself : bool;
  shadowworldonly : bool;
  switchableshadow : bool;
  switchshadstyle : Z;
  alpha : float
}.

Record gtexinfo_t := { value : Z }.

Record plane_t := { normal : vec3; dist : float }.

Record dplane_t := { dp_normal : vec3; dp_dist : float }.

Record bsp2_dnode_t := { planenum : Z; children0 : Z; children1 : Z }.

Record mleaf_t := { contents : Z }.

Record mbsp_t := {
  loadversion : Z;
  nummodels : Z;
  numvertexes : Z;
  dvertexes : list vec3;
  dplanes : list dplane_t;
  dnodes : list bsp2_dnode_t;
  dleafs : list mleaf_t
}.

Record color_rgba := {
  col_r : Byte.byte; col_g : Byte.byte; col_b : Byte.byte; col_a : Byte.byte
}.

(** A winding ([numpoints] and the points [p[0..numpoints-1]]) is the
    list of its points. *)
Abbreviation winding_t := (list vec3).
Definition numpoints (w : winding_t) : Z := Z.of_nat (length w).

Definition byte_val (c : Byte.byte) : Z := Z.of_N (Byte.to_N c).

(** Nullable pointers. *)
Abbreviation modelinfo_ptr := (option modelinfo_t).

Definition modelinfo_ptr_eqb (p q : modelinfo_ptr) : bool :=
  match p, q with
  | None, None => true
  | Some m, Some n => Nat.eqb (mi_addr m) (mi_addr n)
  | _, _ => false
  end.

(** ** What the file takes from the rest of the tool

    Constants of bspfile.hh, the per-texinfo flag table and the helpers of
    bsputils, mathlib, polylib and the texture sampler are compiled
    elsewhere; the tracer is verified for every value they may have. *)

Class Externals := {
  Q2_BSPVERSION : Z;
  TEX_NOSHADOW : Z;
  TEX_LIGHT_ALPHA_SHIFT : Z;
  Q2_SURF_LIGHT : Z;
  Q2_SURF_SKY : Z;
  Q2_SURF_NODRAW : Z;
  Q2_SURF_TRANS33 : Z;
  Q2_SURF_TRANSLUCENT : Z;
  Q2_CONTENTS_SOLID : Z;
  CONTENTS_SOLID : Z;
  RTC_CONFIG_RAY_MASK_value : Z;
  extended_texinfo_flags : Z -> Z;
  tracelist : list modelinfo_t;
  ModelInfoForModel : mbsp_t -> Z -> modelinfo_t;
  ModelInfoForFace : mbsp_t -> Z -> modelinfo_ptr;
  BSP_GetFace : mbsp_t -> Z -> bsp2_dface_t;
  Face_GetNum : mbsp_t -> bsp2_dface_t -> Z;
  Face_VertexAtIndex : mbsp_t -> bsp2_dface_t -> Z -> Z;
  Face_Contents : mbsp_t -> bsp2_dface_t -> Z;
  Face_Texinfo : mbsp_t -> bsp2_dface_t -> gtexinfo_t;
  Face_TextureName : mbsp_t -> bsp2_dface_t -> string;
  Contents_IsTranslucent : mbsp_t -> Z -> bool;
  Q_strncasecmp : string -> string -> Z -> Z;
  SampleTexture : bsp2_dface_t -> mbsp_t -> vec3 -> color_rgba;
  VectorNormalize : vec3 -> float * vec3;
  DotProduct : vec3 -> vec3 -> float
}.

(** The polygon library (polylib): a base polygon for a plane, clipping of
    a polygon by a plane into a front and a back part, either of which may
    be absent, and the points stored in a winding. *)
Class Polylib := {
  winding : Type;
  BaseWindingForPlane : vec3 -> float -> winding;
  ClipWinding : winding -> vec3 -> float -> option winding * option winding;
  winding_points : winding -> winding_t
}.

(** [name[0]] of a C string: the terminating NUL for the empty string. *)
Definition first_char (s : string) : ascii :=
  match s with
  | EmptyString => "000"%char
  | String c _ => c
  end.

Definition nonzero (z : Z) : bool := negb (z =? 0).

(** Embree's [RTC_INVALID_GEOMETRY_ID] is [((unsigned)-1)]. *)
Definition RTC_INVALID_GEOMETRY_ID : Z := 4294967295.

Section Classifier.
Context `{Externals}.

(** Returns 1.0 unless a custom alpha value is set: [_light_alpha] of the
    texinfo first (0 is unset), then the model's [alpha]. *)
Definition Face_Alpha (modelinfo : modelinfo_t) (face : bsp2_dface_t) : float :=
  let extended_flags := extended_texinfo_flags (texinfo face) in
  let alpha_u7 := Z.land (Z.shiftr extended_flags TEX_LIGHT_ALPHA_SHIFT) 127 in
  let alpha_float := fdiv (float_of_int alpha_u7) (float_of_int 127) in
  if negb (feq alpha_float f0) then alpha_float
  else alpha modelinfo.

Record facelists := {
  skyfaces : list bsp2_dface_t;
  solidfaces : list bsp2_dface_t;
  filterfaces : list bsp2_dface_t
}.

Definition push_sky (f : bsp2_dface_t) (s : facelists) : facelists :=
  {| skyfaces := skyfaces s ++ [f]; solidfaces := solidfaces s;
     filterfaces := filterfaces s |}.
Definition push_solid (f : bsp2_dface_t) (s : facelists) : facelists :=
  {| skyfaces := skyfaces s; solidfaces := solidfaces s ++ [f];
     filterfaces := filterfaces s |}.
Definition push_filter (f : bsp2_dface_t) (s : facelists) : facelists :=
  {| skyfaces := skyfaces s; solidfaces := solidfaces s;
     filterfaces := filterfaces s ++ [f] |}.

Definition isQ2 (bsp : mbsp_t) : bool := loadversion bsp =? Q2_BSPVERSION.

(** The body of the inner loop of [Embree_TraceInit]: one face of one
    model; each [continue] is a returned state. *)
Definition classify_face (bsp : mbsp_t) (mi : modelinfo_t) (s : facelists)
    (i : Z) : outcome facelists :=
  let face := BSP_GetFace bsp (firstface (model mi) + i) in
  let extended_flags := extended_texinfo_flags (texinfo face) in
  if nonzero (Z.land extended_flags TEX_NOSHADOW) then Ok s
  else if switchableshadow mi then Ok (push_filter face s)
  else
    let contents := Face_Contents bsp face in
    let texinfo := Face_Texinfo bsp face in
    if isQ2 bsp && nonzero (Z.land contents Q2_SURF_NODRAW)
       && negb (nonzero (Z.land contents Q2_SURF_SKY)) then Ok s
    else
      let alpha := Face_Alpha mi face in
      if flt alpha f1
         || (isQ2 bsp && nonzero (Z.land contents Q2_SURF_TRANSLUCENT))
      then Ok (push_filter face s)
      else
        let texname := Face_TextureName bsp face in
        if Ascii.eqb (first_char texname) "{"%char then Ok (push_filter face s)
        else
          let after_sky (s : facelists) : outcome facelists :=
            if Contents_IsTranslucent bsp contents then
              if negb (isWorld mi) then Ok (push_solid face s) else Ok s
            else if isWorld mi || shadow mi then Ok (push_solid face s)
            else
              _ ← Q_assert (shadowself mi || shadowworldonly mi)
                    "shadowself || shadowworldonly";
              Ok (push_filter face s) in
          if isQ2 bsp then
            if nonzero (Z.land contents Q2_SURF_SKY)
               && nonzero (Z.land contents Q2_SURF_LIGHT)
               && nonzero (value texinfo)
            then Ok (push_sky face s)
            else after_sky s
          else
            if Q_strncasecmp "sky" texname 3 =? 0 then Ok (push_sky face s)
            else after_sky s.

(** The body of the outer loop: one model. *)
Definition classify_model (bsp : mbsp_t) (s : facelists) (mi : Z)
    : outcome facelists :=
  let modelinfo := ModelInfoForModel bsp mi in
  if negb (isWorld modelinfo || shadow modelinfo || shadowself modelinfo
           || shadowworldonly modelinfo || switchableshadow modelinfo)
  then Ok s
  else foldM (classify_face bsp modelinfo) (seqZ 0 (numfaces (model modelinfo))) s.

Definition no_faces : facelists :=
  {| skyfaces := []; solidfaces := []; filterfaces := [] |}.

(** Lines 597-686 of [Embree_TraceInit]. *)
Definition classify_faces (bsp : mbsp_t) : outcome facelists :=
  foldM (classify_model bsp) (seqZ 0 (nummodels bsp)) no_faces.

(** *** The classifier as the specification words it

    The ordered rules of section 4.1, first match wins, behind the
    pre-filter on the model. *)

Inductive OcclusionClass := Sky | Solid | Filtered.

Definition contributes (mi : modelinfo_t) : bool :=
  isWorld mi || shadow mi || shadowself mi || shadowworldonly mi
  || switchableshadow mi.

Definition no_shadow_flag (face : bsp2_dface_t) : bool :=
  nonzero (Z.land (extended_texinfo_flags (texinfo face)) TEX_NOSHADOW).

Definition nodraw_not_sky (bsp : mbsp_t) (face : bsp2_dface_t) : bool :=
  isQ2 bsp && nonzero (Z.land (Face_Contents bsp face) Q2_SURF_NODRAW)
  && negb (nonzero (Z.land (Face_Contents bsp face) Q2_SURF_SKY)).

Definition see_through (bsp : mbsp_t) (mi : modelinfo_t) (face : bsp2_dface_t)
    : bool :=
  flt (Face_Alpha mi face) f1
  || (isQ2 bsp && nonzero (Z.land (Face_Contents bsp face) Q2_SURF_TRANSLUCENT)).

Definition fence_name (bsp : mbsp_t) (face : bsp2_dface_t) : bool :=
  Ascii.eqb (first_char (Face_TextureName bsp face)) "{"%char.

Definition sky_material (bsp : mbsp_t) (face : bsp2_dface_t) : bool :=
  if isQ2 bsp
  then nonzero (Z.land (Face_Contents bsp face) Q2_SURF_SKY)
       && nonzero (Z.land (Face_Contents bsp face) Q2_SURF_LIGHT)
       && nonzero (value (Face_Texinfo bsp face))
  else Q_strncasecmp "sky" (Face_TextureName bsp face) 3 =? 0.

Definition liquid (bsp : mbsp_t) (face : bsp2_dface_t) : bool :=
  Contents_IsTranslucent bsp (Face_Contents bsp face).

Definition spec_rules (bsp : mbsp_t) (mi : modelinfo_t) (face : bsp2_dface_t)
    : list (bool * option OcclusionClass) :=
  [ (no_shadow_flag face, None);
    (switchableshadow mi, Some Filtered);
    (nodraw_not_sky bsp face, None);
    (see_through bsp mi face, Some Filtered);
    (fence_name bsp face, Some Filtered);
    (sky_material bsp face, Some Sky);
    (liquid bsp face, if isWorld mi then None else Some Solid);
    (isWorld mi || shadow mi, Some Solid);
    (shadowself mi || shadowworldonly mi, Some Filtered) ].

Fixpoint first_rule (rules : list (bool * option OcclusionClass))
    : option OcclusionClass :=
  match rules with
  | [] => None
  | (cond, class) :: rest => if cond then class else first_rule rest
  end.

Definition spec_class (bsp : mbsp_t) (mi : modelinfo_t) (face : bsp2_dface_t)
    : option OcclusionClass :=
  if contributes mi then first_rule (spec_rules bsp mi face) else None.

Definition OcclusionClass_eqb (c d : OcclusionClass) : bool :=
  match c, d with
  | Sky, Sky | Solid, Solid | Filtered, Filtered => true
  | _, _ => false
  end.

Definition in_class (c : OcclusionClass) (o : option OcclusionClass) : bool :=
  match o with
  | Some d => OcclusionClass_eqb c d
  | None => false
  end.

(** The faces of one model, in the order the loop visits them. *)
Definition model_faces (bsp : mbsp_t) (mi : modelinfo_t) : list bsp2_dface_t :=
  (fun i => BSP_GetFace bsp (firstface (model mi) + i))
    <$> seqZ 0 (numfaces (model mi)).

(** The faces the rules send to class [c], models and faces in order. *)
Definition spec_bucket (c : OcclusionClass) (bsp : mbsp_t) : list bsp2_dface_t :=
  mi ← ModelInfoForModel bsp <$> seqZ 0 (nummodels bsp);
  filter (fun face => in_class c (spec_class bsp mi face) = true)
         (model_faces bsp mi).

(** What one face adds to the three lists, by its class. *)
Definition push_class (o : option OcclusionClass) (face : bsp2_dface_t)
    (s : facelists) : facelists :=
  match o with
  | Some Sky => push_sky face s
  | Some Solid => push_solid face s
  | Some Filtered => push_filter face s
  | None => s
  end.

Definition class_faces (c : OcclusionClass) (bsp : mbsp_t) (mi : modelinfo_t)
    (faces : list bsp2_dface_t) : list bsp2_dface_t :=
  filter (fun face => in_class c (spec_class bsp mi face) = true) faces.

Definition add_faces (s : facelists) (bsp : mbsp_t) (mi : modelinfo_t)
    (faces : list bsp2_dface_t) : facelists :=
  {| skyfaces := skyfaces s ++ class_faces Sky bsp mi faces;
     solidfaces := solidfaces s ++ class_faces Solid bsp mi faces;
     filterfaces := filterfaces s ++ class_faces Filtered bsp mi faces |}.

Definition bucket_of (c : OcclusionClass) (bsp : mbsp_t) (mis : list modelinfo_t)
    : list bsp2_dface_t :=
  mi ← mis; class_faces c bsp mi (model_faces bsp mi).

End Classifier.

(** ** The acceleration structure

    Embree is used through a narrow interface: a scene is a sequence of
    triangle meshes, [rtcNewTriangleMesh] adds one and returns its
    geometry id, ids being handed out in creation order; a filter function
    may be attached to a geometry id. *)

Record Triangle := { v0 : Z; v1 : Z; v2 : Z }.

Record mesh := {
  vertex_buffer : list vec3;
  index_buffer : list Triangle
}.

Record RTCScene := {
  meshes : list mesh;
  filter_geomIDs : list Z
}.

(** The handle of an Embree device.  The file-level variable [device]
    holds a pointer to one, or the null pointer ([None]) as long as
    [Embree_TraceInit] has not created it. *)
Inductive RTCDevice := rtcNewDevice.

Definition rtcDeviceNewScene : RTCScene :=
  {| meshes := []; filter_geomIDs := [] |}.

Definition Triangle0 : Triangle := {| v0 := 0; v1 := 0; v2 := 0 |}.

Definition rtcNewTriangleMesh (scene : RTCScene) (numtris numverts : Z)
    : RTCScene * Z :=
  ({| meshes := meshes scene ++
                [ {| vertex_buffer := replicate (Z.to_nat numverts) vec3_zero;
                     index_buffer := replicate (Z.to_nat numtris) Triangle0 |} ];
      filter_geomIDs := filter_geomIDs scene |},
   Z.of_nat (length (meshes scene))).

(** [rtcMapBuffer] ... [rtcUnmapBuffer]: the mapped buffer is the mesh's
    own storage. *)
Definition mapped_index_buffer (scene : RTCScene) (geomID : Z) : list Triangle :=
  match meshes scene !! Z.to_nat geomID with
  | Some m => index_buffer m
  | None => []
  end.

Definition mapped_vertex_buffer (scene : RTCScene) (geomID : Z) : list vec3 :=
  match meshes scene !! Z.to_nat geomID with
  | Some m => vertex_buffer m
  | None => []
  end.

Definition unmap_index_buffer (scene : RTCScene) (geomID : Z)
    (triangles : list Triangle) : RTCScene :=
  {| meshes := alter (fun m => {| vertex_buffer := vertex_buffer m;
                                  index_buffer := triangles |})
                     (Z.to_nat geomID) (meshes scene);
     filter_geomIDs := filter_geomIDs scene |}.

Definition unmap_vertex_buffer (scene : RTCScene) (geomID : Z)
    (vertices : list vec3) : RTCScene :=
  {| meshes := alter (fun m => {| vertex_buffer := vertices;
                                  index_buffer := index_buffer m |})
                     (Z.to_nat geomID) (meshes scene);
     filter_geomIDs := filter_geomIDs scene |}.

Definition rtcSetFilterFunctionN (scene : RTCScene) (geomID : Z) : RTCScene :=
  {| meshes := meshes scene; filter_geomIDs := geomID :: filter_geomIDs scene |}.

Record sceneinfo := {
  geomID : Z;
  triToFace : list bsp2_dface_t;
  triToModelinfo : list modelinfo_ptr
}.

Section Geometry.
Context `{Externals}.

(** The first loop of [CreateGeometry]: count triangles. *)
Definition count_triangles (faces : list bsp2_dface_t) : Z :=
  fold_left (fun numtris face =>
               if numedges face <? 3 then numtris
               else numtris + (numedges face - 2)) faces 0.

(** The state of the triangle-filling loop. *)
Record fill_state := {
  triangles : list Triangle;
  tri_index : Z;
  fs_triToFace : list bsp2_dface_t;
  fs_triToModelinfo : list modelinfo_ptr
}.

Definition emit_triangle (bsp : mbsp_t) (face : bsp2_dface_t)
    (modelinfo : modelinfo_ptr) (st : fill_state) (j : Z) : outcome fill_state :=
  let tri := {| v0 := Face_VertexAtIndex bsp face (j - 1);
                v1 := Face_VertexAtIndex bsp face j;
                v2 := Face_VertexAtIndex bsp face 0 |} in
  triangles' ← array_store (triangles st) (tri_index st) tri;
  Ok {| triangles := triangles';
        tri_index := tri_index st + 1;
        fs_triToFace := fs_triToFace st ++ [face];
        fs_triToModelinfo := fs_triToModelinfo st ++ [modelinfo] |}.

Definition fill_face (bsp : mbsp_t) (st : fill_state) (face : bsp2_dface_t)
    : outcome fill_state :=
  if numedges face <? 3 then Ok st
  else
    (* NOTE: can be null for "skip" faces *)
    let modelinfo := ModelInfoForFace bsp (Face_GetNum bsp face) in
    foldM (emit_triangle bsp face modelinfo) (seqZ 2 (numedges face - 2)) st.

Definition CreateGeometry (bsp : mbsp_t) (scene : RTCScene)
    (faces : list bsp2_dface_t) : outcome (RTCScene * sceneinfo) :=
  let numtris := count_triangles faces in
  let '(scene, geomID) := rtcNewTriangleMesh scene numtris (numvertexes bsp) in
  (* fill in vertices; a map with fewer than [numvertexes] vertices is
     not well formed, the missing ones read as zero *)
  vertices ← foldM (fun vertices i =>
                      array_store vertices i
                        (default vec3_zero (dvertexes bsp !! Z.to_nat i)))
                   (seqZ 0 (numvertexes bsp))
                   (mapped_vertex_buffer scene geomID);
  let scene := unmap_vertex_buffer scene geomID vertices in
  (* fill in triangles *)
  st ← foldM (fill_face bsp) faces
         {| triangles := mapped_index_buffer scene geomID; tri_index := 0;
            fs_triToFace := []; fs_triToModelinfo := [] |};
  Ok (unmap_index_buffer scene geomID (triangles st),
      {| geomID := geomID; triToFace := fs_triToFace st;
         triToModelinfo := fs_triToModelinfo st |}).

(** *** The triangles of a face list, as the specification describes them

    The fan of a polygon: triangle (vertex [j-1], vertex [j], vertex 0) for
    [j] from 2 to [numedges - 1], each with the face it comes from and the
    model owning that face. *)
Definition fan_triangle (bsp : mbsp_t) (face : bsp2_dface_t) (j : Z) : Triangle :=
  {| v0 := Face_VertexAtIndex bsp face (j - 1);
     v1 := Face_VertexAtIndex bsp face j;
     v2 := Face_VertexAtIndex bsp face 0 |}.

Abbreviation emitted_t := (Triangle * bsp2_dface_t * modelinfo_ptr)%type.
Definition emitted_triangle (e : emitted_t) : Triangle := fst (fst e).
Definition emitted_face (e : emitted_t) : bsp2_dface_t := snd (fst e).
Definition emitted_model (e : emitted_t) : modelinfo_ptr := snd e.

Definition face_fan (bsp : mbsp_t) (face : bsp2_dface_t) : list emitted_t :=
  (fun j => (fan_triangle bsp face j, face,
             ModelInfoForFace bsp (Face_GetNum bsp face)))
    <$> seqZ 2 (numedges face - 2).

Definition emitted (bsp : mbsp_t) (faces : list bsp2_dface_t) : list emitted_t :=
  face ← faces; face_fan bsp face.

(** [CreateGeometryFromWindings]: the counting loop with its assertion. *)
Definition count_winding (acc : Z * Z) (winding : winding_t) : outcome (Z * Z) :=
  let '(numtris, numverts) := acc in
  _ ← Q_assert (3 <=? numpoints winding) "winding->numpoints >= 3";
  Ok (numtris + (numpoints winding - 2), numverts + numpoints winding).

Definition fill_winding_vertices (acc : list vec3 * Z) (winding : winding_t)
    : outcome (list vec3 * Z) :=
  let '(vertices, vert_index) := acc in
  vertices' ← foldM (fun vertices j =>
                       array_store vertices (vert_index + j)
                         (default vec3_zero (winding !! Z.to_nat j)))
                    (seqZ 0 (numpoints winding)) vertices;
  Ok (vertices', vert_index + numpoints winding).

(** Triangle buffer, [tri_index] and [vert_index] of the last loop. *)
Definition fill_winding_triangles (acc : list Triangle * Z * Z)
    (winding : winding_t) : outcome (list Triangle * Z * Z) :=
  let '(triangles, tri_index, vert_index) := acc in
  '(triangles', tri_index') ←
     foldM (fun '(triangles, tri_index) j =>
              triangles' ← array_store triangles tri_index
                             {| v0 := vert_index + (j - 1);
                                v1 := vert_index + j;
                                v2 := vert_index + 0 |};
              Ok (triangles', tri_index + 1))
           (seqZ 2 (numpoints winding - 2)) (triangles, tri_index);
  Ok (triangles', tri_index', vert_index + numpoints winding).

Definition CreateGeometryFromWindings (scene : RTCScene)
    (windings : list winding_t) : outcome RTCScene :=
  match windings with
  | [] => Ok scene
  | _ =>
    '(numtris, numverts) ← foldM count_winding windings (0, 0);
    let '(scene, geomID) := rtcNewTriangleMesh scene numtris numverts in
    '(vertices, _) ← foldM fill_winding_vertices windings
                       (mapped_vertex_buffer scene geomID, 0);
    let scene := unmap_vertex_buffer scene geomID vertices in
    '(triangles, tri_index, vert_index) ←
       foldM fill_winding_triangles windings
         (mapped_index_buffer scene geomID, 0, 0);
    _ ← Q_assert (vert_index =? numverts) "vert_index == numverts";
    _ ← Q_assert (tri_index =? numtris) "tri_index == numtris";
    Ok (unmap_index_buffer scene geomID triangles)
  end.

(** The scene with one more mesh. *)
Definition add_mesh (scene : RTCScene) (m : mesh) : RTCScene :=
  {| meshes := meshes scene ++ [m]; filter_geomIDs := filter_geomIDs scene |}.

(** The vertices of the map, copied verbatim. *)
Definition bsp_vertices (bsp : mbsp_t) : list vec3 :=
  (fun i => default vec3_zero (dvertexes bsp !! Z.to_nat i))
    <$> seqZ 0 (numvertexes bsp).

(** The mesh and the reverse-lookup tables of a list of faces. *)
Definition face_mesh (bsp : mbsp_t) (faces : list bsp2_dface_t) : mesh :=
  {| vertex_buffer := bsp_vertices bsp;
     index_buffer := emitted_triangle <$> emitted bsp faces |}.

Definition face_sceneinfo (bsp : mbsp_t) (id : Z) (faces : list bsp2_dface_t)
    : sceneinfo :=
  {| geomID := id;
     triToFace := emitted_face <$> emitted bsp faces;
     triToModelinfo := emitted_model <$> emitted bsp faces |}.

(** The fan of a winding whose first vertex is vertex [vert_index] of the
    mesh, and the fans of a list of windings laid out one after another. *)
Definition winding_fan (vert_index : Z) (w : winding_t) : list Triangle :=
  (fun j => {| v0 := vert_index + (j - 1); v1 := vert_index + j;
               v2 := vert_index + 0 |})
    <$> seqZ 2 (numpoints w - 2).

Fixpoint winding_fans (vert_index : Z) (windings : list winding_t)
    : list Triangle :=
  match windings with
  | [] => []
  | w :: rest => winding_fan vert_index w
                 ++ winding_fans (vert_index + numpoints w) rest
  end.

Definition winding_mesh (windings : list winding_t) : mesh :=
  {| vertex_buffer := concat windings;
     index_buffer := winding_fans 0 windings |}.

Definition sumZ (l : list Z) : Z := foldr Z.add 0 l.

(** The file-level variables written by [Embree_TraceInit] that the
    queries read.  The variable [device] is read by [Embree_TraceInit]
    alone, which takes and gives it beside this record. *)
Record globals := {
  scene : RTCScene;
  skygeom : sceneinfo;
  solidgeom : sceneinfo;
  filtergeom : sceneinfo;
  bsp_static : mbsp_t
}.

Definition Embree_SceneinfoForGeomID (G : globals) (id : Z) : outcome sceneinfo :=
  if id =? geomID (skygeom G) then Ok (skygeom G)
  else if id =? geomID (solidgeom G) then Ok (solidgeom G)
  else if id =? geomID (filtergeom G) then Ok (filtergeom G)
  else Fatal "unexpected geomID".

Definition Embree_LookupFace (G : globals) (id primID : Z)
    : outcome bsp2_dface_t :=
  info ← Embree_SceneinfoForGeomID G id;
  vector_at (triToFace info) primID.

Definition Embree_LookupModelinfo (G : globals) (id primID : Z)
    : outcome modelinfo_ptr :=
  info ← Embree_SceneinfoForGeomID G id;
  vector_at (triToModelinfo info) primID.

(** The tail of [Embree_TraceInit]: the scene from the classified faces
    and the skip windings. *)
Definition build_scene (bsp : mbsp_t) (faces : facelists)
    (skipwindings : list winding_t) : outcome globals :=
  _ ← (if negb (RTC_CONFIG_RAY_MASK_value =? 0)
       then Fatal "embree must be built with ray masks disabled"
       else Ok tt);
  let scene := rtcDeviceNewScene in
  '(scene, skygeom) ← CreateGeometry bsp scene (skyfaces faces);
  '(scene, solidgeom) ← CreateGeometry bsp scene (solidfaces faces);
  '(scene, filtergeom) ← CreateGeometry bsp scene (filterfaces faces);
  scene ← CreateGeometryFromWindings scene skipwindings;
  let scene := rtcSetFilterFunctionN scene (geomID filtergeom) in
  Ok {| scene := scene; skygeom := skygeom; solidgeom := solidgeom;
        filtergeom := filtergeom; bsp_static := bsp |}.

(** The three classified groups. *)
Inductive group := GSky | GSolid | GFilter.

Definition group_info (G : globals) (g : group) : sceneinfo :=
  match g with
  | GSky => skygeom G
  | GSolid => solidgeom G
  | GFilter => filtergeom G
  end.

Definition group_faces (faces : facelists) (g : group) : list bsp2_dface_t :=
  match g with
  | GSky => skyfaces faces
  | GSolid => solidfaces faces
  | GFilter => filterfaces faces
  end.

(** The triangles of the mesh with geometry id [id]. *)
Definition mesh_triangles (G : globals) (id : Z) : list Triangle :=
  mapped_index_buffer (scene G) id.

Definition mesh_vertices (G : globals) (id : Z) : list vec3 :=
  mapped_vertex_buffer (scene G) id.

(** What [build_scene] yields when it does not stop. *)
Definition built_globals (bsp : mbsp_t) (faces : facelists)
    (skipwindings : list winding_t) : globals :=
  {| scene :=
       {| meshes := [face_mesh bsp (skyfaces faces);
                     face_mesh bsp (solidfaces faces);
                     face_mesh bsp (filterfaces faces)]
                    ++ match skipwindings with
                       | [] => []
                       | _ => [winding_mesh skipwindings]
                       end;
          filter_geomIDs := [2] |};
     skygeom := face_sceneinfo bsp 0 (skyfaces faces);
     solidgeom := face_sceneinfo bsp 1 (solidfaces faces);
     filtergeom := face_sceneinfo bsp 2 (filterfaces faces);
     bsp_static := bsp |}.

End Geometry.

(** ** Vector helpers of mathlib *)

(** Modelled from the spec: mathlib's [VectorMA], [VectorScale],
    [VectorSubtract], [qmin] and [qmax] are not in this file; they are the
    componentwise multiply-add [va + scale * vb], scaling, difference, and
    the two-way minimum and maximum with which section 4.4 forms the linear
    interpolation of the glass tint, in single precision. *)
Definition VectorMA (va : vec3) (scale : float) (vb : vec3) : vec3 :=
  let '(a0, a1, a2) := va in
  let '(b0, b1, b2) := vb in
  (fadd a0 (fmul scale b0), fadd a1 (fmul scale b1), fadd a2 (fmul scale b2)).

Definition VectorScale (v : vec3) (scale : float) : vec3 :=
  let '(a0, a1, a2) := v in (fmul a0 scale, fmul a1 scale, fmul a2 scale).

Definition VectorSubtract (va vb : vec3) : vec3 :=
  let '(a0, a1, a2) := va in
  let '(b0, b1, b2) := vb in
  (fsub a0 b0, fsub a1 b1, fsub a2 b2).

Definition qmax (x y : float) : float := if fgt x y then x else y.
Definition qmin (x y : float) : float := if fgt x y then y else x.

Definition vec3_mul (va vb : vec3) : vec3 :=
  let '(a0, a1, a2) := va in
  let '(b0, b1, b2) := vb in
  (fmul a0 b0, fmul a1 b1, fmul a2 b2).

Definition vec3_all (P : float -> bool) (v : vec3) : bool :=
  let '(a0, a1, a2) := v in P a0 && P a1 && P a2.

(** A read through a raw pointer into an array. *)
Definition array_read {A} (a : list A) (i : Z) : outcome A :=
  if (0 <=? i) && (i <? Z.of_nat (length a))
  then match a !! Z.to_nat i with
       | Some x => Ok x
       | None => Fatal "read outside the allocation"
       end
  else Fatal "read outside the allocation".

(** ** Faces for skip-textured bmodels *)

Section SkipModels.
Context `{Externals} `{Polylib}.

Definition Node_Plane (bsp : mbsp_t) (node : bsp2_dnode_t) (side : bool)
    : outcome plane_t :=
  dplane ← array_read (dplanes bsp) (planenum node);
  let plane := {| normal := dp_normal dplane; dist := dp_dist dplane |} in
  if side
  then Ok {| normal := VectorScale (normal plane) (float_of_int (-1));
             dist := fmul (dist plane) (float_of_int (-1)) |}
  else Ok plane.

(** The inner loop of [Leaf_MakeFaces]: clip [w] by every plane of the
    list except the one at position [i] (the comparison of addresses
    [&plane2 == &plane]); [j] is the position of the head of [planes2].
    [None] is the null winding: everything was clipped away, and the loop
    is left. *)
Fixpoint clip_by_others (i j : nat) (planes2 : list plane_t) (w : winding)
    : option winding :=
  match planes2 with
  | [] => Some w
  | plane2 :: rest =>
      if Nat.eqb j i then clip_by_others i (S j) rest w
      else
        (* discard the back, continue clipping the front part *)
        match fst (ClipWinding w (normal plane2) (dist plane2)) with
        | None => None
        | Some front => clip_by_others i (S j) rest front
        end
  end.

(** The outer loop: [todo] are the planes still to visit, the first of
    them at position [i] of [planes]. *)
Fixpoint Leaf_MakeFaces_loop (planes : list plane_t) (i : nat)
    (todo : list plane_t) (result : list winding) : list winding :=
  match todo with
  | [] => result
  | plane :: rest =>
      (* flip the inward-facing split plane to get the outward-facing
         plane of the face we're constructing *)
      let faceplane :=
        {| normal := VectorScale (normal plane) (float_of_int (-1));
           dist := SFopp (dist plane) |} in
      let w := BaseWindingForPlane (normal faceplane) (dist faceplane) in
      match clip_by_others i 0 planes w with
      | None => Leaf_MakeFaces_loop planes (S i) rest result
      | Some w => Leaf_MakeFaces_loop planes (S i) rest (result ++ [w])
      end
  end.

(** [planes]: all of the node planes that bound this leaf, facing inward. *)
Definition Leaf_MakeFaces (bsp : mbsp_t) (leaf : mleaf_t)
    (planes : list plane_t) : list winding :=
  Leaf_MakeFaces_loop planes 0 planes [].

(** *** The leaf polygons as the specification describes them

    One polygon per plane at most: the base winding of the flipped plane,
    clipped in turn by every other plane of the list, the front part being
    kept; nothing when a clip leaves no front part. *)
Fixpoint clip_chain (w : winding) (others : list plane_t) : option winding :=
  match others with
  | [] => Some w
  | plane2 :: rest =>
      match fst (ClipWinding w (normal plane2) (dist plane2)) with
      | None => None
      | Some front => clip_chain front rest
      end
  end.

Definition flipped_base (plane : plane_t) : winding :=
  BaseWindingForPlane (VectorScale (normal plane) (float_of_int (-1)))
                      (SFopp (dist plane)).

Definition leaf_polygon (planes : list plane_t) (i : nat) (plane : plane_t)
    : option winding :=
  clip_chain (flipped_base plane) (delete i planes).

Definition leaf_is_solid (bsp : mbsp_t) (leaf : mleaf_t) : bool :=
  if isQ2 bsp then nonzero (Z.land (contents leaf) Q2_CONTENTS_SOLID)
  else contents leaf =? CONTENTS_SOLID.

(** [MakeFaces_r]; the recursion follows the child indices stored in the
    node array, so it is bounded by [fuel] ([None]: out of fuel). *)
Fixpoint MakeFaces_r (fuel : nat) (bsp : mbsp_t) (nodenum : Z)
    (planes : list plane_t) (result : list winding)
    : option (outcome (list plane_t * list winding)) :=
  match fuel with
  | O => None
  | S fuel =>
    if nodenum <? 0 then
      let leafnum := - nodenum - 1 in
      Some (leaf ← array_read (dleafs bsp) leafnum;
            if leaf_is_solid bsp leaf
            then Ok (planes, result ++ Leaf_MakeFaces bsp leaf planes)
            else Ok (planes, result))
    else
      match array_read (dnodes bsp) nodenum with
      | Fatal msg => Some (Fatal msg)
      | Ok node =>
        (* go down the front side *)
        match Node_Plane bsp node false with
        | Fatal msg => Some (Fatal msg)
        | Ok front =>
          match MakeFaces_r fuel bsp (children0 node) (planes ++ [front]) result with
          | None => None
          | Some (Fatal msg) => Some (Fatal msg)
          | Some (Ok (planes, result)) =>
            let planes := removelast planes in
            (* go down the back side *)
            match Node_Plane bsp node true with
            | Fatal msg => Some (Fatal msg)
            | Ok back =>
              match MakeFaces_r fuel bsp (children1 node) (planes ++ [back]) result with
              | None => None
              | Some (Fatal msg) => Some (Fatal msg)
              | Some (Ok (planes, result)) => Some (Ok (removelast planes, result))
              end
            end
          end
        end
      end
  end.

Definition MakeFaces (fuel : nat) (bsp : mbsp_t) (model : dmodel_t)
    : option (outcome (list winding)) :=
  match MakeFaces_r fuel bsp (headnode0 model) [] [] with
  | None => None
  | Some (Fatal msg) => Some (Fatal msg)
  | Some (Ok (planes, result)) =>
      Some (_ ← Q_assert (Nat.eqb (length planes) 0) "planes.empty()"; Ok result)
  end.

(** Special handling of skip-textured bmodels: the loop over [tracelist]. *)
Fixpoint skip_windings (fuel : nat) (bsp : mbsp_t) (models : list modelinfo_t)
    : option (outcome (list winding)) :=
  match models with
  | [] => Some (Ok [])
  | mi :: rest =>
      let here :=
        if numfaces (model mi) =? 0 then MakeFaces fuel bsp (model mi)
        else Some (Ok []) in
      match here, skip_windings fuel bsp rest with
      | Some (Ok windings), Some (Ok more) => Some (Ok (windings ++ more))
      | Some (Fatal msg), _ => Some (Fatal msg)
      | Some (Ok _), Some (Fatal msg) => Some (Fatal msg)
      | _, _ => None
      end
  end.

(** [Embree_TraceInit] reads and writes the file-level [device]: the
    argument is its value on entry, and a call that returns gives the value
    it leaves there together with the other file-level variables.  The
    assertion on [device] comes first, before any face is looked at;
    [device] is assigned after the walk over the skip models, just before
    the ray mask is checked. *)
Definition Embree_TraceInit (fuel : nat) (device : option RTCDevice)
    (bsp : mbsp_t) : option (outcome (option RTCDevice * globals)) :=
  match Q_assert (match device with None => true | Some _ => false end)
                 "device == nullptr" with
  | Fatal msg => Some (Fatal msg)
  | Ok _ =>
      match classify_faces bsp with
      | Fatal msg => Some (Fatal msg)
      | Ok faces =>
          match skip_windings fuel bsp tracelist with
          | None => None
          | Some (Fatal msg) => Some (Fatal msg)
          | Some (Ok skipwindings) =>
              let device := Some rtcNewDevice in
              Some (G ← build_scene bsp faces (winding_points <$> skipwindings);
                    Ok (device, G))
          end
      end
  end.

End SkipModels.

(** *** The node tree below a node number

    [MakeFaces_r] follows the child numbers stored in the node array: a
    negative number [n] is the leaf [-n - 1], any other a node.
    [subtree bsp n t] holds when what is reached from number [n] is the
    finite tree [t], every index met on the way lying inside its array. *)

Inductive bsp_tree :=
| TLeaf (leaf : mleaf_t)
| TNode (front back : plane_t) (child0 child1 : bsp_tree).

Fixpoint tree_height (t : bsp_tree) : nat :=
  match t with
  | TLeaf _ => 0
  | TNode _ _ child0 child1 => S (Nat.max (tree_height child0) (tree_height child1))
  end.

Section SkipTrees.
Context `{Externals} `{Polylib}.

Inductive subtree (bsp : mbsp_t) : Z -> bsp_tree -> Prop :=
| subtree_leaf (nodenum : Z) (leaf : mleaf_t) :
    nodenum < 0 ->
    array_read (dleafs bsp) (- nodenum - 1) = Ok leaf ->
    subtree bsp nodenum (TLeaf leaf)
| subtree_node (nodenum : Z) (node : bsp2_dnode_t) (front back : plane_t)
      (child0 child1 : bsp_tree) :
    0 <= nodenum ->
    array_read (dnodes bsp) nodenum = Ok node ->
    Node_Plane bsp node false = Ok front ->
    Node_Plane bsp node true = Ok back ->
    subtree bsp (children0 node) child0 ->
    subtree bsp (children1 node) child1 ->
    subtree bsp nodenum (TNode front back child0 child1).

(** The windings of a tree: those of its solid leaves, each built from the
    planes on the way from the root to the leaf, the front child before the
    back child. *)
Fixpoint tree_faces (bsp : mbsp_t) (planes : list plane_t) (t : bsp_tree)
    : list winding :=
  match t with
  | TLeaf leaf =>
      if leaf_is_solid bsp leaf then Leaf_MakeFaces bsp leaf planes else []
  | TNode front back child0 child1 =>
      tree_faces bsp (planes ++ [front]) child0
      ++ tree_faces bsp (planes ++ [back]) child1
  end.

End SkipTrees.

(** ** Rays, candidate hits and the ray stream *)

Record RTCRay := {
  org : vec3;
  dir : vec3;
  tnear : float;
  tfar : float;
  time : float;
  mask : Z;
  ray_Ng : vec3;
  ray_u : float;
  ray_v : float;
  ray_geomID : Z;
  ray_primID : Z;
  ray_instID : Z
}.

Record RTCHit := {
  hit_Ng : vec3;
  hit_instID : Z;
  hit_geomID : Z;
  hit_primID : Z;
  hit_u : float;
  hit_v : float;
  hit_t : float
}.

(** The traversal of the acceleration structure is Embree's: for a ray it
    yields the potential hits, in the order in which they are examined. *)
Class Backend := {
  rtc_candidates : RTCScene -> RTCRay -> list RTCHit
}.

Record raystream_embree_t := {
  _rays : list RTCRay;
  _rays_maxdist : list float;
  _point_indices : list Z;
  _ray_colors : list vec3;
  _ray_normalcontribs : list vec3;
  (* This is set to the modelinfo's switchshadstyle if the ray hit a
     dynamic shadow caster. *)
  _ray_dynamic_styles : list Z;
  _numrays : Z;
  _maxrays : Z
}.

Record ray_source_info := {
  raystream : option raystream_embree_t; (* may be null if this ray is not from a ray stream *)
  self : modelinfo_ptr;
  singleRayShadowStyle : Z               (* only used if raystream == null *)
}.

Definition new_ray_source_info (raystream_ : option raystream_embree_t)
    (self_ : modelinfo_ptr) : ray_source_info :=
  {| raystream := raystream_; self := self_; singleRayShadowStyle := 0 |}.

Definition set_raystream (ctx : ray_source_info) (rs : raystream_embree_t)
    : ray_source_info :=
  {| raystream := Some rs; self := self ctx;
     singleRayShadowStyle := singleRayShadowStyle ctx |}.

Definition set_ray_colors (rs : raystream_embree_t) (colors : list vec3)
    : raystream_embree_t :=
  {| _rays := _rays rs; _rays_maxdist := _rays_maxdist rs;
     _point_indices := _point_indices rs; _ray_colors := colors;
     _ray_normalcontribs := _ray_normalcontribs rs;
     _ray_dynamic_styles := _ray_dynamic_styles rs;
     _numrays := _numrays rs; _maxrays := _maxrays rs |}.

Definition set_ray_dynamic_styles (rs : raystream_embree_t) (styles : list Z)
    : raystream_embree_t :=
  {| _rays := _rays rs; _rays_maxdist := _rays_maxdist rs;
     _point_indices := _point_indices rs; _ray_colors := _ray_colors rs;
     _ray_normalcontribs := _ray_normalcontribs rs;
     _ray_dynamic_styles := styles;
     _numrays := _numrays rs; _maxrays := _maxrays rs |}.

Definition set_rays (rs : raystream_embree_t) (rays : list RTCRay)
    : raystream_embree_t :=
  {| _rays := rays; _rays_maxdist := _rays_maxdist rs;
     _point_indices := _point_indices rs; _ray_colors := _ray_colors rs;
     _ray_normalcontribs := _ray_normalcontribs rs;
     _ray_dynamic_styles := _ray_dynamic_styles rs;
     _numrays := _numrays rs; _maxrays := _maxrays rs |}.

Definition set_ray_geomID (ray : RTCRay) (id : Z) : RTCRay :=
  {| org := org ray; dir := dir ray; tnear := tnear ray; tfar := tfar ray;
     time := time ray; mask := mask ray; ray_Ng := ray_Ng ray;
     ray_u := ray_u ray; ray_v := ray_v ray;
     ray_geomID := id; ray_primID := ray_primID ray;
     ray_instID := ray_instID ray |}.

(** The hit data copied into the ray when an intersection is accepted. *)
Definition copy_hit (ray : RTCRay) (hit : RTCHit) : RTCRay :=
  {| org := org ray; dir := dir ray; tnear := tnear ray; tfar := hit_t hit;
     time := time ray; mask := mask ray; ray_Ng := hit_Ng hit;
     ray_u := hit_u hit; ray_v := hit_v hit;
     ray_geomID := hit_geomID hit; ray_primID := hit_primID hit;
     ray_instID := hit_instID hit |}.

(** The count, the capacity and the sizes of the six arrays of a stream. *)
Definition stream_shape (rs : raystream_embree_t)
    : Z * Z * list nat :=
  (_numrays rs, _maxrays rs,
   [length (_rays rs); length (_rays_maxdist rs); length (_point_indices rs);
    length (_ray_colors rs); length (_ray_normalcontribs rs);
    length (_ray_dynamic_styles rs)]).

Definition ctx_shape (ctx : ray_source_info) : option (Z * Z * list nat) :=
  stream_shape <$> raystream ctx.

(** The invariant of a stream: the count is within the capacity fixed at
    construction, and every array has that capacity. *)
Definition stream_ok (rs : raystream_embree_t) : Prop :=
  0 <= _numrays rs <= _maxrays rs
  /\ snd (stream_shape rs) = replicate 6 (Z.to_nat (_maxrays rs)).

(** ** Tinting and dynamic occluders *)

Definition one_minus (opacity : float) : float :=
  float_of_double (dsub (double_of_int 1) (double_of_float opacity)).

Definition unit_interval (x : float) : bool := fge x f0 && fle x f1.

Definition AddGlassToRay (ctx : ray_source_info) (rayIndex : Z)
    (opacity : float) (glasscolor : vec3) : outcome ray_source_info :=
  match raystream ctx with
  | None =>
      (* happens for bounce lights, e.g. Embree_TestSky *)
      Ok ctx
  | Some rs =>
      (* clamp opacity *)
      let opacity := qmin (qmax f0 opacity) f1 in
      _ ← Q_assert (rayIndex <? _numrays rs) "rayIndex < rs->_numrays";
      (* the three assertions on the components of the colour *)
      _ ← Q_assert (vec3_all unit_interval glasscolor)
            "glasscolor[i] >= 0.0 && glasscolor[i] <= 1.0";
      color ← array_read (_ray_colors rs) rayIndex;
      (* multiply ray color by glass color *)
      let tinted := vec3_mul color glasscolor in
      (* lerp between original ray color and fully tinted, based on opacity *)
      let lerped := vec3_zero in
      let lerped := VectorMA lerped opacity tinted in
      let lerped := VectorMA lerped (one_minus opacity) color in
      (* use the lerped color *)
      colors ← array_store (_ray_colors rs) rayIndex lerped;
      Ok (set_raystream ctx (set_ray_colors rs colors))
  end.

Definition AddDynamicOccluderToRay (ctx : ray_source_info) (rayIndex : Z)
    (style : Z) : outcome ray_source_info :=
  match raystream ctx with
  | Some rs =>
      styles ← array_store (_ray_dynamic_styles rs) rayIndex style;
      Ok (set_raystream ctx (set_ray_dynamic_styles rs styles))
  | None =>
      (* TestLight case *)
      Ok {| raystream := None; self := self ctx; singleRayShadowStyle := style |}
  end.

(** The linear interpolation between [from] and [to] with weight [w], in
    the order in which [AddGlassToRay] evaluates it. *)
Definition lerp (from to : vec3) (w : float) : vec3 :=
  VectorMA (VectorMA vec3_zero w to) (one_minus w) from.

Definition clamp01 (x : float) : float := qmin (qmax f0 x) f1.

(** ** The filter function *)

Inductive filtertype_t := INTERSECTION | OCCLUSION.

Definition VALID : Z := -1.
Definition INVALID : Z := 0.

(** One of the [N] rays handed to the filter with its potential hit. *)
Record lane := {
  valid : Z;
  lane_ray : RTCRay;
  potentialHit : RTCHit
}.

Definition reject (l : lane) : lane :=
  {| valid := INVALID; lane_ray := lane_ray l; potentialHit := potentialHit l |}.

Definition accept (filtertype : filtertype_t) (l : lane) : lane :=
  {| valid := valid l;
     lane_ray := match filtertype with
                 | OCCLUSION => set_ray_geomID (lane_ray l) 0
                 | INTERSECTION => copy_hit (lane_ray l) (potentialHit l)
                 end;
     potentialHit := potentialHit l |}.

Definition f_0_66 : float := fdiv (float_of_int 66) (float_of_int 100).
Definition f_0_33 : float := fdiv (float_of_int 33) (float_of_int 100).
Definition f255 : float := float_of_int 255.

Section Filter.
Context `{Externals}.

Definition Embree_RayEndpoint (ray : RTCRay) (hit : RTCHit) : vec3 :=
  let dir := snd (VectorNormalize (dir ray)) in
  (* N.B.: we want the distance to the potential hit, not RTCRayN_tfar *)
  let tfar := hit_t hit in
  VectorMA (org ray) tfar dir.

(** [isFence], [isGlass] and the alpha of the hit face. *)
Definition hit_material (bsp : mbsp_t) (hit_modelinfo : modelinfo_t)
    (face : bsp2_dface_t) : bool * bool * float :=
  let alpha := Face_Alpha hit_modelinfo face in
  if isQ2 bsp then
    let contents := Face_Contents bsp face in
    let isFence := Z.land contents Q2_SURF_TRANSLUCENT =? Q2_SURF_TRANSLUCENT in
    let isGlass := negb isFence && nonzero (Z.land contents Q2_SURF_TRANSLUCENT) in
    (isFence, isGlass,
     if isGlass
     then (if nonzero (Z.land contents Q2_SURF_TRANS33) then f_0_66 else f_0_33)
     else alpha)
  else
    let name := Face_TextureName bsp face in
    (Ascii.eqb (first_char name) "{"%char, flt alpha f1, alpha).

(** The cosine between the normalized ray direction and the normalized
    geometry normal of the potential hit. *)
Definition raySurfaceCosAngle (ray : RTCRay) (hit : RTCHit) : float :=
  DotProduct (snd (VectorNormalize (dir ray))) (snd (VectorNormalize (hit_Ng hit))).

Definition sample_color (sample : color_rgba) : vec3 :=
  VectorScale (float_of_int (byte_val (col_r sample)),
               float_of_int (byte_val (col_g sample)),
               float_of_int (byte_val (col_b sample)))
              (fdiv (float_of_int 1) f255).

(** The weight with which [AddGlassToRay] blends: the alpha of the texel
    when the texel is not fully opaque, the alpha of the material
    otherwise. *)
Definition glass_alpha (sample : color_rgba) (alpha : float) : float :=
  if byte_val (col_a sample) <? 255
  then fdiv (float_of_int (byte_val (col_a sample))) f255
  else alpha.

(** Lines 331-415: test fence textures and glass, else accept the hit. *)
Definition filter_transparency (filtertype : filtertype_t) (G : globals)
    (rsi : ray_source_info) (l : lane) (hit_modelinfo : modelinfo_t)
    : outcome (ray_source_info * lane) :=
  let ray := lane_ray l in
  let hit := potentialHit l in
  let rayIndex := mask ray in
  face ← Embree_LookupFace G (hit_geomID hit) (hit_primID hit);
  let '(isFence, isGlass, alpha) := hit_material (bsp_static G) hit_modelinfo face in
  if isFence || isGlass then
    let hitpoint := Embree_RayEndpoint ray hit in
    let sample := SampleTexture face (bsp_static G) hitpoint in
    if isGlass then
      (* hit glass... *)
      let alpha := glass_alpha sample alpha in
      (* only pick up the color of the glass on the _exiting_ side *)
      rsi ← (if flt (raySurfaceCosAngle ray hit) f0
             then AddGlassToRay rsi rayIndex alpha (sample_color sample)
             else Ok rsi);
      Ok (rsi, reject l)
    else if isFence && (byte_val (col_a sample) <? 255) then
      Ok (rsi, reject l)
    else Ok (rsi, accept filtertype l)
  else Ok (rsi, accept filtertype l).

(** The two rejections by shadow policy. *)
Definition world_only_rejects (hit_modelinfo : modelinfo_t)
    (source_modelinfo : modelinfo_ptr) : bool :=
  shadowworldonly hit_modelinfo
  && match source_modelinfo with
     | None => true
     | Some src => negb (isWorld src)
     end.

Definition self_only_rejects (hit_modelinfo : modelinfo_t)
    (source_modelinfo : modelinfo_ptr) : bool :=
  shadowself hit_modelinfo
  && negb (modelinfo_ptr_eqb source_modelinfo (Some hit_modelinfo)).

(** The body of the loop of [Embree_FilterFuncN] for one ray. *)
Definition filter_lane (filtertype : filtertype_t) (G : globals)
    (rsi : ray_source_info) (l : lane) : outcome (ray_source_info * lane) :=
  if negb (valid l =? VALID) then
    (* we only need to handle valid rays *)
    Ok (rsi, l)
  else
    let ray := lane_ray l in
    let hit := potentialHit l in
    (* unpack ray index *)
    let rayIndex := mask ray in
    let source_modelinfo := self rsi in
    hit_modelinfo ← Embree_LookupModelinfo G (hit_geomID hit) (hit_primID hit);
    match hit_modelinfo with
    | None =>
        (* we hit a "skip" face with no associated model: reject hit *)
        Ok (rsi, reject l)
    | Some hm =>
      if world_only_rejects hm source_modelinfo then
        (* we hit "_shadowworldonly" "1" geometry. Ignore the hit unless we
           are from world. *)
        Ok (rsi, reject l)
      else if self_only_rejects hm source_modelinfo then
        (* only casts shadows on itself *)
        Ok (rsi, reject l)
      else if switchableshadow hm then
        (* we hit a dynamic shadow caster. reject the hit, but store the
           info about what we hit. *)
        let style := switchshadstyle hm in
        rsi ← AddDynamicOccluderToRay rsi rayIndex style;
        Ok (rsi, reject l)
      else filter_transparency filtertype G rsi l hm
    end.

Fixpoint Embree_FilterFuncN (filtertype : filtertype_t) (G : globals)
    (rsi : ray_source_info) (lanes : list lane)
    : outcome (ray_source_info * list lane) :=
  match lanes with
  | [] => Ok (rsi, [])
  | l :: rest =>
      '(rsi, l') ← filter_lane filtertype G rsi l;
      '(rsi, rest') ← Embree_FilterFuncN filtertype G rsi rest;
      Ok (rsi, l' :: rest')
  end.

End Filter.

(** ** Queries *)

(** The result of a light test; the structure is declared in trace.hh,
    its two fields are named here as section 4.5 names them. *)
Record hitresult_t := { visible : bool; dynamicStyle : Z }.

Section Queries.
Context `{Externals} `{Backend}.

Definition SetupRay (rayindex : Z) (start dir : vec3) (dist : float) : RTCRay :=
  {| org := start;
     dir := dir;  (* can be un-normalized *)
     tnear := f0;
     tfar := dist;
     time := f0;
     (* NOTE: we are not using the ray masking feature of embree, but just
        using this field to store the ray index *)
     mask := rayindex;
     ray_Ng := vec3_zero; ray_u := f0; ray_v := f0;
     ray_geomID := RTC_INVALID_GEOMETRY_ID;
     ray_primID := RTC_INVALID_GEOMETRY_ID;
     ray_instID := RTC_INVALID_GEOMETRY_ID |}.

Definition SetupRay_StartStop (start stop : vec3) : RTCRay :=
  let dir := VectorSubtract stop start in
  let '(dist, dir) := VectorNormalize dir in
  SetupRay 0 start dir dist.

Definition has_filter (G : globals) (id : Z) : bool :=
  bool_decide (id ∈ filter_geomIDs (scene G)).

(** An occlusion query over the potential hits of one ray: a hit on a
    geometry without filter occludes; a hit on a filtered geometry occludes
    when the filter leaves it valid; otherwise the ray goes on. *)
Fixpoint occluded_by (G : globals) (ctx : ray_source_info) (ray : RTCRay)
    (candidates : list RTCHit) : outcome (ray_source_info * RTCRay) :=
  match candidates with
  | [] => Ok (ctx, ray)
  | hit :: rest =>
      if has_filter G (hit_geomID hit) then
        '(ctx, lanes) ← Embree_FilterFuncN OCCLUSION G ctx
                          [ {| valid := VALID; lane_ray := ray;
                               potentialHit := hit |} ];
        match lanes with
        | [l] => if valid l =? VALID then Ok (ctx, lane_ray l)
                 else occluded_by G ctx (lane_ray l) rest
        | _ => Fatal "filter changed the number of rays"
        end
      else Ok (ctx, set_ray_geomID ray 0)
  end.

Definition rtcOccluded1Ex (G : globals) (ctx : ray_source_info) (ray : RTCRay)
    : outcome (ray_source_info * RTCRay) :=
  occluded_by G ctx ray (rtc_candidates (scene G) ray).

(** A nearest-hit query: every potential hit closer than the current
    [tfar] is offered to the filter of its geometry, or taken. *)
Fixpoint intersected_by (G : globals) (ctx : ray_source_info) (ray : RTCRay)
    (candidates : list RTCHit) : outcome (ray_source_info * RTCRay) :=
  match candidates with
  | [] => Ok (ctx, ray)
  | hit :: rest =>
      if negb (flt (hit_t hit) (tfar ray)) then intersected_by G ctx ray rest
      else if has_filter G (hit_geomID hit) then
        '(ctx, lanes) ← Embree_FilterFuncN INTERSECTION G ctx
                          [ {| valid := VALID; lane_ray := ray;
                               potentialHit := hit |} ];
        match lanes with
        | [l] => intersected_by G ctx (lane_ray l) rest
        | _ => Fatal "filter changed the number of rays"
        end
      else intersected_by G ctx (copy_hit ray hit) rest
  end.

Definition rtcIntersect1Ex (G : globals) (ctx : ray_source_info) (ray : RTCRay)
    : outcome (ray_source_info * RTCRay) :=
  intersected_by G ctx ray (rtc_candidates (scene G) ray).

Definition Embree_TestLight (G : globals) (start stop : vec3)
    (self : modelinfo_ptr) : outcome hitresult_t :=
  let ray := SetupRay_StartStop start stop in
  let ctx2 := new_ray_source_info None self in
  '(ctx2, ray) ← rtcOccluded1Ex G ctx2 ray;
  if negb (ray_geomID ray =? RTC_INVALID_GEOMETRY_ID)
  then Ok {| visible := false; dynamicStyle := 0 |}  (* fully occluded *)
  else
    (* no obstruction (or a switchable shadow obstruction only) *)
    Ok {| visible := true; dynamicStyle := singleRayShadowStyle ctx2 |}.

(** *** The ray stream *)

(** The constructor zeroes two of its six arrays ([calloc]: the colours
    and the normal contributions).  The other four come from
    [q_aligned_malloc] and [new[]] and are not initialised: what their
    slots hold is whatever the allocator hands out, given here slot by
    slot. *)
Record uninitialised := {
  fresh_rays : nat -> RTCRay;
  fresh_rays_maxdist : nat -> float;
  fresh_point_indices : nat -> Z;
  fresh_ray_dynamic_styles : nat -> Z
}.

Definition Embree_MakeRayStream (fresh : uninitialised) (maxRays : Z)
    : outcome raystream_embree_t :=
  if maxRays <? 0 then Fatal "std::bad_array_new_length"
  else
    let n := Z.to_nat maxRays in
    Ok {| _rays := fresh_rays fresh <$> seq 0 n;
          _rays_maxdist := fresh_rays_maxdist fresh <$> seq 0 n;
          _point_indices := fresh_point_indices fresh <$> seq 0 n;
          _ray_colors := replicate n vec3_zero;
          _ray_normalcontribs := replicate n vec3_zero;
          _ray_dynamic_styles := fresh_ray_dynamic_styles fresh <$> seq 0 n;
          _numrays := 0;
          _maxrays := maxRays |}.

Definition pushRay (rs : raystream_embree_t) (i : Z) (origin dir : vec3)
    (dist : float) (color normalcontrib : option vec3)
    : outcome raystream_embree_t :=
  _ ← Q_assert (_numrays rs <? _maxrays rs) "_numrays<_maxrays";
  rays ← array_store (_rays rs) (_numrays rs)
           (SetupRay (_numrays rs) origin dir dist);
  maxdist ← array_store (_rays_maxdist rs) (_numrays rs) dist;
  point_indices ← array_store (_point_indices rs) (_numrays rs) i;
  colors ← match color with
           | Some c => array_store (_ray_colors rs) (_numrays rs) c
           | None => Ok (_ray_colors rs)
           end;
  normalcontribs ← match normalcontrib with
                   | Some c => array_store (_ray_normalcontribs rs) (_numrays rs) c
                   | None => Ok (_ray_normalcontribs rs)
                   end;
  styles ← array_store (_ray_dynamic_styles rs) (_numrays rs) 0;
  Ok {| _rays := rays; _rays_maxdist := maxdist;
        _point_indices := point_indices; _ray_colors := colors;
        _ray_normalcontribs := normalcontribs;
        _ray_dynamic_styles := styles;
        _numrays := _numrays rs + 1; _maxrays := _maxrays rs |}.

Definition numPushedRays (rs : raystream_embree_t) : Z := _numrays rs.

(** One ray of [rtcOccluded1M] / [rtcIntersect1M]: the ray lives in the
    stream the context points to, which the filter may update meanwhile. *)
Definition trace_pushed
    (query : globals -> ray_source_info -> RTCRay ->
             outcome (ray_source_info * RTCRay))
    (G : globals) (ctx : ray_source_info) (i : Z) : outcome ray_source_info :=
  match raystream ctx with
  | None => Fatal "no ray stream"
  | Some rs =>
      ray ← array_read (_rays rs) i;
      '(ctx, ray) ← query G ctx ray;
      match raystream ctx with
      | None => Fatal "no ray stream"
      | Some rs =>
          rays ← array_store (_rays rs) i ray;
          Ok (set_raystream ctx (set_rays rs rays))
      end
  end.

Definition trace_all
    (query : globals -> ray_source_info -> RTCRay ->
             outcome (ray_source_info * RTCRay))
    (G : globals) (self : modelinfo_ptr) (rs : raystream_embree_t)
    : outcome raystream_embree_t :=
  if _numrays rs =? 0 then Ok rs
  else
    let ctx2 := new_ray_source_info (Some rs) self in
    ctx2 ← foldM (trace_pushed query G) (seqZ 0 (_numrays rs)) ctx2;
    match raystream ctx2 with
    | Some rs => Ok rs
    | None => Fatal "no ray stream"
    end.

Definition tracePushedRaysOcclusion := trace_all rtcOccluded1Ex.
Definition tracePushedRaysIntersection := trace_all rtcIntersect1Ex.

Definition getPushedRayOccluded (rs : raystream_embree_t) (j : Z) : outcome bool :=
  _ ← Q_assert (j <? _maxrays rs) "j < _maxrays";
  ray ← array_read (_rays rs) j;
  Ok (negb (ray_geomID ray =? RTC_INVALID_GEOMETRY_ID)).

Definition getPushedRayColor (rs : raystream_embree_t) (j : Z) : outcome vec3 :=
  _ ← Q_assert (j <? _maxrays rs) "j < _maxrays";
  array_read (_ray_colors rs) j.

Definition getPushedRayDynamicStyle (rs : raystream_embree_t) (j : Z) : outcome Z :=
  _ ← Q_assert (j <? _maxrays rs) "j < _maxrays";
  array_read (_ray_dynamic_styles rs) j.

Definition clearPushedRays (rs : raystream_embree_t) : raystream_embree_t :=
  {| _rays := _rays rs; _rays_maxdist := _rays_maxdist rs;
     _point_indices := _point_indices rs; _ray_colors := _ray_colors rs;
     _ray_normalcontribs := _ray_normalcontribs rs;
     _ray_dynamic_styles := _ray_dynamic_styles rs;
     _numrays := 0; _maxrays := _maxrays rs |}.

(** The operations a consumer applies to a stream. *)
Inductive stream_op :=
| OpPushRay (i : Z) (origin dir : vec3) (dist : float)
            (color normalcontrib : option vec3)
| OpTraceOcclusion (self : modelinfo_ptr)
| OpTraceIntersection (self : modelinfo_ptr)
| OpClear.

Definition run_op (G : globals) (rs : raystream_embree_t) (op : stream_op)
    : outcome raystream_embree_t :=
  match op with
  | OpPushRay i origin dir dist color normalcontrib =>
      pushRay rs i origin dir dist color normalcontrib
  | OpTraceOcclusion self => tracePushedRaysOcclusion G self rs
  | OpTraceIntersection self => tracePushedRaysIntersection G self rs
  | OpClear => Ok (clearPushedRays rs)
  end.

(** A potential hit on filtered geometry owned by model [hm]. *)
Definition filtered_hit_on (G : globals) (hm : modelinfo_t) (hit : RTCHit) : Prop :=
  has_filter G (hit_geomID hit) = true
  /\ Embree_LookupModelinfo G (hit_geomID hit) (hit_primID hit) = Ok (Some hm).

(** The hit face is neither glass nor a fence with a cut-out texel. *)
Definition opaque_at (G : globals) (hm : modelinfo_t) (ray : RTCRay)
    (hit : RTCHit) : bool :=
  match Embree_LookupFace G (hit_geomID hit) (hit_primID hit) with
  | Ok face =>
      let '(isFence, isGlass, _) := hit_material (bsp_static G) hm face in
      let sample := SampleTexture face (bsp_static G) (Embree_RayEndpoint ray hit) in
      negb isGlass && negb (isFence && (byte_val (col_a sample) <? 255))
  | Fatal _ => false
  end.

End Queries.

(** ** The sky test, the dirt trace and the readers of a stream *)

(** [hittype_t] of trace.hh, with the three values this file returns. *)
Inductive hittype_t := NONE | SOLID | SKY.

Section Readers.
Context `{Externals} `{Backend}.

(** [MAX_SKY_DIST] is a constant of light.hh. *)
Variable MAX_SKY_DIST : float.

(** An out-parameter is a pointer that may be null: [None] is the null
    pointer, [Some x] a pointer to storage holding [x]; the storage after
    the call is returned with the result. *)
Definition Embree_TestSky (G : globals) (start dirn : vec3)
    (self : modelinfo_ptr) (face_out : option (option bsp2_dface_t))
    : outcome (hitresult_t * option (option bsp2_dface_t)) :=
  (* trace from the sample point towards the sun, and
     return true if we hit a sky poly. *)
  let dir_normalized := snd (VectorNormalize dirn) in
  let ray := SetupRay 0 start dir_normalized MAX_SKY_DIST in
  let ctx2 := new_ray_source_info None self in
  '(ctx2, ray) ← rtcIntersect1Ex G ctx2 ray;
  let hit_sky := ray_geomID ray =? geomID (skygeom G) in
  face_out ← match face_out with
             | Some _ =>
                 if hit_sky then
                   si ← Embree_SceneinfoForGeomID G (ray_geomID ray);
                   face ← vector_at (triToFace si) (ray_primID ray);
                   Ok (Some (Some face))
                 else Ok (Some None)
             | None => Ok None
             end;
  Ok ({| visible := hit_sky; dynamicStyle := singleRayShadowStyle ctx2 |},
      face_out).

Definition Embree_DirtTrace (G : globals) (start dirn : vec3) (dist : float)
    (self : modelinfo_ptr) (hitdist_out : option float)
    (hitplane_out : option plane_t) (face_out : option (option bsp2_dface_t))
    : outcome (hittype_t * option float * option plane_t
               * option (option bsp2_dface_t)) :=
  let ray := SetupRay 0 start dirn dist in
  let ctx2 := new_ray_source_info None self in
  '(ctx2, ray) ← rtcIntersect1Ex G ctx2 ray;
  if ray_geomID ray =? RTC_INVALID_GEOMETRY_ID
  then Ok (NONE, hitdist_out, hitplane_out, face_out)
  else
    let hitdist_out := (fun _ => tfar ray) <$> hitdist_out in
    let hitplane_out :=
      (fun _ => let normal := snd (VectorNormalize (ray_Ng ray)) in
                let hitpoint := VectorMA start (tfar ray) dirn in
                Build_plane_t normal (DotProduct normal hitpoint))
        <$> hitplane_out in
    face_out ← match face_out with
               | Some _ =>
                   si ← Embree_SceneinfoForGeomID G (ray_geomID ray);
                   face ← vector_at (triToFace si) (ray_primID ray);
                   Ok (Some (Some face))
               | None => Ok None
               end;
    Ok (if ray_geomID ray =? geomID (skygeom G) then SKY else SOLID,
        hitdist_out, hitplane_out, face_out).

(** *** The other readers of [raystream_embree_t] *)

Definition getPushedRayDist (rs : raystream_embree_t) (j : Z) : outcome float :=
  _ ← Q_assert (j <? _maxrays rs) "j < _maxrays";
  array_read (_rays_maxdist rs) j.

Definition getPushedRayHitDist (rs : raystream_embree_t) (j : Z) : outcome float :=
  _ ← Q_assert (j <? _maxrays rs) "j < _maxrays";
  ray ← array_read (_rays rs) j;
  Ok (tfar ray).

Definition getPushedRayHitType (G : globals) (rs : raystream_embree_t) (j : Z)
    : outcome hittype_t :=
  _ ← Q_assert (j <? _maxrays rs) "j < _maxrays";
  ray ← array_read (_rays rs) j;
  if ray_geomID ray =? RTC_INVALID_GEOMETRY_ID then Ok NONE
  else if ray_geomID ray =? geomID (skygeom G) then Ok SKY
  else Ok SOLID.

(** The table [triToFace] holds the faces pushed by [CreateGeometry], none
    of them null, so [Q_assert(face != nullptr)] holds of what it reads. *)
Definition getPushedRayHitFace (G : globals) (rs : raystream_embree_t) (j : Z)
    : outcome (option bsp2_dface_t) :=
  _ ← Q_assert (j <? _maxrays rs) "j < _maxrays";
  ray ← array_read (_rays rs) j;
  if ray_geomID ray =? RTC_INVALID_GEOMETRY_ID then Ok None
  else
    si ← Embree_SceneinfoForGeomID G (ray_geomID ray);
    face ← vector_at (triToFace si) (ray_primID ray);
    Ok (Some face).

Definition getPushedRayDir (rs : raystream_embree_t) (j : Z) : outcome vec3 :=
  _ ← Q_assert (j <? _maxrays rs) "j < _maxrays";
  ray ← array_read (_rays rs) j;
  Ok (dir ray).

Definition getPushedRayPointIndex (rs : raystream_embree_t) (j : Z) : outcome Z :=
  _ ← Q_assert (j <? _maxrays rs) "j < _maxrays";
  array_read (_point_indices rs) j.

Definition getPushedRayNormalContrib (rs : raystream_embree_t) (j : Z)
    : outcome vec3 :=
  _ ← Q_assert (j <? _maxrays rs) "j < _maxrays";
  array_read (_ray_normalcontribs rs) j.

(** Everything the readers tell about slot [j] of a stream. *)
Definition read_slot (G : globals) (rs : raystream_embree_t) (j : Z)
    : outcome bool * outcome float * outcome float * outcome hittype_t
      * outcome (option bsp2_dface_t) * outcome vec3 * outcome Z
      * outcome vec3 * outcome vec3 * outcome Z :=
  (getPushedRayOccluded rs j, getPushedRayDist rs j, getPushedRayHitDist rs j,
   getPushedRayHitType G rs j, getPushedRayHitFace G rs j,
   getPushedRayDir rs j, getPushedRayPointIndex rs j,
   getPushedRayColor rs j, getPushedRayNormalContrib rs j,
   getPushedRayDynamicStyle rs j).

End Readers.

(** *** What the filter and the queries leave alone *)

(** The part of a ray that its caller sets and that Embree only reads. *)
Definition ray_inputs (ray : RTCRay) : vec3 * vec3 * float * float * Z :=
  (org ray, dir ray, tnear ray, time ray, mask ray).

(** The part of a stream that neither the filter nor a trace writes: the
    capacity, the count, the distances, the point indices, the normal
    contributions and the inputs of the rays.  The colours and the dynamic
    styles, which the filter overwrites, are left out. *)
Definition stream_inputs (rs : raystream_embree_t)
    : Z * Z * list float * list Z * list vec3
      * list (vec3 * vec3 * float * float * Z) :=
  (_maxrays rs, _numrays rs, _rays_maxdist rs, _point_indices rs,
   _ray_normalcontribs rs, ray_inputs <$> _rays rs).

Definition ctx_inputs (ctx : ray_source_info)
    : modelinfo_ptr
      * option (Z * Z * list float * list Z * list vec3
                * list (vec3 * vec3 * float * float * Z)) :=
  (self ctx, stream_inputs <$> raystream ctx).

(** The ray index that [SetupRay] keeps in the mask of a ray is the number
    of the slot the ray is pushed to; the filter takes it from there. *)
Definition masks_are_slots (rs : raystream_embree_t) : Prop :=
  forall j : Z,
    0 <= j < _numrays rs ->
    exists ray : RTCRay, _rays rs !! Z.to_nat j = Some ray /\ mask ray = j.

(** Two streams whose colours and styles differ at most in slot [m], and
    two streams that hold the same rays, colours and styles from slot [n]
    on. *)
Definition touched_only (m : Z) (rs rs' : raystream_embree_t) : Prop :=
  forall j : nat,
    j <> Z.to_nat m ->
    _ray_colors rs' !! j = _ray_colors rs !! j
    /\ _ray_dynamic_styles rs' !! j = _ray_dynamic_styles rs !! j.

Definition same_from (n : Z) (rs rs' : raystream_embree_t) : Prop :=
  forall j : nat,
    n <= Z.of_nat j ->
    _rays rs' !! j = _rays rs !! j
    /\ _ray_colors rs' !! j = _ray_colors rs !! j
    /\ _ray_dynamic_styles rs' !! j = _ray_dynamic_styles rs !! j.

(** A ray before and after an occlusion query: untouched, or with the
    geometry id 0 by which Embree and the filter mark an occluded ray. *)
Definition occlusion_mark (ray ray' : RTCRay) : Prop :=
  ray' = ray \/ ray' = set_ray_geomID ray 0.

(** A ray and its potential hit before and after the filter: the hit and
    the inputs of the ray are as they were; the validity is as it was or
    has become [INVALID]; a ray that is not valid afterwards has not been
    written to; a ray that was not valid before is as it was. *)
Definition lane_kept (l l' : lane) : Prop :=
  potentialHit l' = potentialHit l
  /\ ray_inputs (lane_ray l') = ray_inputs (lane_ray l)
  /\ (valid l' = valid l \/ valid l' = INVALID)
  /\ (valid l' <> VALID -> lane_ray l' = lane_ray l)
  /\ (valid l <> VALID -> l' = l).

(** ** Polygons as the specification speaks of them

    The reconstruction of skip models is specified over exact geometry: a
    plane is the set of points [p] with [normal . p = dist], its inward
    side the points with [normal . p >= dist].  Coordinates are rationals;
    a finite float stands for the rational it denotes. *)

Definition point : Type := Q * Q * Q.

Definition Q_of_float (x : float) : Q :=
  match x with
  | S754_finite s m e =>
      ((if s then -1 else 1) * inject_Z (Z.pos m) * Qpower 2 e)%Q
  | _ => 0%Q
  end.

Definition plane_side (n : vec3) (d : float) (pt : point) : Q :=
  let '(n0, n1, n2) := n in
  let '(x, y, z) := pt in
  (Q_of_float n0 * x + Q_of_float n1 * y + Q_of_float n2 * z - Q_of_float d)%Q.

Definition on_boundary (pl : plane_t) (pt : point) : Prop :=
  (plane_side (normal pl) (dist pl) pt == 0)%Q.
Definition inside (pl : plane_t) (pt : point) : Prop :=
  (0 <= plane_side (normal pl) (dist pl) pt)%Q.
Definition strictly_inside (pl : plane_t) (pt : point) : Prop :=
  (0 < plane_side (normal pl) (dist pl) pt)%Q.

(** [m * 2^23]: the product of mantissas when a float is multiplied by
    -1, whose mantissa is [2^23]. *)
Definition shl23 (m : positive) : positive :=
  (m~0~0~0~0~0~0~0~0~0~0~0~0~0~0~0~0~0~0~0~0~0~0~0)%positive.

Definition ideal_polygon : Type := point -> Prop.

(** Modelled from the spec: polylib's [BaseWindingForPlane] and
    [ClipWinding] are not under src.  Sections 4.2 and 6 give them as
    [BasePolygonForPlane(normal, dist) -> polygon], "the plane's unbounded
    half-space boundary", and [ClipPolygon(polygon, planeNormal, planeDist)
    -> (frontPart?, backPart?)], where a part is absent when the polygon
    "clips away entirely" on that side.  A polygon is the set of its
    points. *)
Definition ideal_base (n : vec3) (d : float) : ideal_polygon :=
  fun pt => (plane_side n d pt == 0)%Q.

Definition ideal_clip (w : ideal_polygon) (n : vec3) (d : float)
    : option ideal_polygon * option ideal_polygon :=
  (if excluded_middle_informative (exists pt, w pt /\ (0 < plane_side n d pt)%Q)
   then Some (fun pt => w pt /\ (0 <= plane_side n d pt)%Q)
   else None,
   if excluded_middle_informative (exists pt, w pt /\ (plane_side n d pt < 0)%Q)
   then Some (fun pt => w pt /\ (plane_side n d pt <= 0)%Q)
   else None).

Definition ideal_polylib : Polylib :=
  {| winding := ideal_polygon;
     BaseWindingForPlane := ideal_base;
     ClipWinding := ideal_clip;
     winding_points := fun _ => [] |}.

(** The planes of a leaf: floats that denote numbers, planes that have
    points, no plane redundant, or no point inside all of them. *)
Definition plane_valid (pl : plane_t) : Prop :=
  vec3_all (valid_binary f32_prec f32_emax) (normal pl) = true.

Definition proper_plane (pl : plane_t) : Prop := exists pt, on_boundary pl pt.

Definition irredundant_at (planes : list plane_t) (i : nat) (pl : plane_t)
    (pt : point) : Prop :=
  on_boundary pl pt
  /\ forall (j : nat) (other : plane_t),
       planes !! j = Some other -> j <> i -> strictly_inside other pt.

Definition irredundant (planes : list plane_t) : Prop :=
  forall (i : nat) (pl : plane_t),
    planes !! i = Some pl -> exists pt, irredundant_at planes i pl pt.

Definition empty_leaf (planes : list plane_t) : Prop :=
  forall pt : point, ~ Forall (fun pl => inside pl pt) planes.

(** The unit cube, and two half-spaces that exclude each other. *)
Definition axis_plane (nx ny nz d : Z) : plane_t :=
  {| normal := (float_of_int nx, float_of_int ny, float_of_int nz);
     dist := float_of_int d |}.

Definition cube_planes : list plane_t :=
  [axis_plane 1 0 0 0; axis_plane (-1) 0 0 (-1);
   axis_plane 0 1 0 0; axis_plane 0 (-1) 0 (-1);
   axis_plane 0 0 1 0; axis_plane 0 0 (-1) (-1)].

Definition cube_face_centers : list point :=
  [(0, 1 # 2, 1 # 2); (1, 1 # 2, 1 # 2);
   (1 # 2, 0, 1 # 2); (1 # 2, 1, 1 # 2);
   (1 # 2, 1 # 2, 0); (1 # 2, 1 # 2, 1)]%Q.

Definition contrary_planes : list plane_t :=
  [axis_plane 1 0 0 1; axis_plane (-1) 0 0 0].

(** ** A sample map

    Concrete data on which the definitions are run: the constants of
    bspfile.hh, a table of faces and a table of models. *)

Record sample_face := {
  sf_numedges : Z;
  sf_flags : Z;
  sf_contents : Z;
  sf_name : string;
  sf_value : Z;
  sf_texel : color_rgba;
  sf_owner : modelinfo_ptr
}.

Definition opaque_white : color_rgba :=
  {| col_r := Byte.xff; col_g := Byte.xff; col_b := Byte.xff; col_a := Byte.xff |}.
Definition opaque_red : color_rgba :=
  {| col_r := Byte.xff; col_g := Byte.x00; col_b := Byte.x00; col_a := Byte.xff |}.
Definition clear_texel : color_rgba :=
  {| col_r := Byte.xff; col_g := Byte.xff; col_b := Byte.xff; col_a := Byte.x00 |}.

Definition plain_face : sample_face :=
  {| sf_numedges := 4; sf_flags := 0; sf_contents := -2; sf_name := "wall";
     sf_value := 0; sf_texel := opaque_white; sf_owner := None |}.

Definition plain_model : modelinfo_t :=
  {| mi_addr := 0; model := {| headnode0 := 0; firstface := 0; numfaces := 0 |};
     isWorld := false; shadow := false; shadowself := false;
     shadowworldonly := false; switchableshadow := false;
     switchshadstyle := 0; alpha := f1 |}.

Definition to_upper (c : Z) : Z :=
  if (97 <=? c) && (c <=? 122) then c - 32 else c.

(** [Q_strncasecmp] of cmdlib, on at most [n] characters. *)
Fixpoint strncasecmp (s1 s2 : string) (n : nat) : Z :=
  match n with
  | O => 0
  | S n' =>
      let c1 := Z.of_nat (nat_of_ascii (first_char s1)) in
      let c2 := Z.of_nat (nat_of_ascii (first_char s2)) in
      if negb (to_upper c1 =? to_upper c2) then -1
      else if c1 =? 0 then 0
      else strncasecmp (match s1 with String _ t => t | _ => s1 end)
                       (match s2 with String _ t => t | _ => s2 end) n'
  end.

Definition sample_dot (va vb : vec3) : float :=
  let '(a0, a1, a2) := va in
  let '(b0, b1, b2) := vb in
  fadd (fadd (fmul a0 b0) (fmul a1 b1)) (fmul a2 b2).

Definition sample_normalize (v : vec3) : float * vec3 :=
  let '(a0, a1, a2) := v in
  let dadd := SFadd f64_prec f64_emax in
  let sq x := double_of_float (fmul x x) in
  let length := SFsqrt f64_prec f64_emax
                  (dadd (dadd (dadd (double_of_int 0) (sq a0)) (sq a1)) (sq a2)) in
  if SFeqb length (double_of_int 0) then (f0, v)
  else
    let l := float_of_double length in
    (l, (fdiv a0 l, fdiv a1 l, fdiv a2 l)).

Definition sample_externals (models : list modelinfo_t)
    (faces : list sample_face) : Externals :=
  let face_at (n : nat) := default plain_face (faces !! n) in
  {| Q2_BSPVERSION := 38;
     TEX_NOSHADOW := 2 ^ 44;
     TEX_LIGHT_ALPHA_SHIFT := 57;
     Q2_SURF_LIGHT := 1;
     Q2_SURF_SKY := 4;
     Q2_SURF_NODRAW := 128;
     Q2_SURF_TRANS33 := 16;
     Q2_SURF_TRANSLUCENT := 48;
     Q2_CONTENTS_SOLID := 1;
     CONTENTS_SOLID := -2;
     RTC_CONFIG_RAY_MASK_value := 0;
     extended_texinfo_flags := fun t => sf_flags (face_at (Z.to_nat t));
     tracelist := [];
     ModelInfoForModel := fun _ mi => default plain_model (models !! Z.to_nat mi);
     ModelInfoForFace := fun _ n => sf_owner (face_at (Z.to_nat n));
     BSP_GetFace := fun _ n =>
       {| face_addr := Z.to_nat n;
          numedges := sf_numedges (face_at (Z.to_nat n));
          texinfo := n |};
     Face_GetNum := fun _ face => Z.of_nat (face_addr face);
     Face_VertexAtIndex := fun _ face j => 10 * Z.of_nat (face_addr face) + j;
     Face_Contents := fun _ face => sf_contents (face_at (face_addr face));
     Face_Texinfo := fun _ face => {| value := sf_value (face_at (face_addr face)) |};
     Face_TextureName := fun _ face => sf_name (face_at (face_addr face));
     Contents_IsTranslucent := fun _ c => (c =? -3) || (c =? -4) || (c =? -5);
     Q_strncasecmp := fun s1 s2 n => strncasecmp s1 s2 (Z.to_nat n);
     SampleTexture := fun face _ _ => sf_texel (face_at (face_addr face));
     VectorNormalize := sample_normalize;
     DotProduct := sample_dot |}.

Definition sample_bsp (version nmodels : Z) : mbsp_t :=
  {| loadversion := version; nummodels := nmodels; numvertexes := 0;
     dvertexes := []; dplanes := []; dnodes := []; dleafs := [] |}.

(** A back end under which every ray meets the given potential hits. *)
Definition fixed_candidates (hits : list RTCHit) : Backend :=
  {| rtc_candidates := fun _ _ => hits |}.

Definition hit_on (id primID : Z) (t : float) (Ng : vec3) : RTCHit :=
  {| hit_Ng := Ng; hit_instID := 0; hit_geomID := id; hit_primID := primID;
     hit_u := f0; hit_v := f0; hit_t := t |}.

Definition from_Ok {A} (d : A) (o : outcome A) : A :=
  match o with Ok a => a | Fatal _ => d end.

Definition no_sceneinfo : sceneinfo :=
  {| geomID := 0; triToFace := []; triToModelinfo := [] |}.

Definition no_globals : globals :=
  {| scene := rtcDeviceNewScene; skygeom := no_sceneinfo;
     solidgeom := no_sceneinfo; filtergeom := no_sceneinfo;
     bsp_static := sample_bsp 29 0 |}.

Definition fhalf : float := fdiv f1 (float_of_int 2).

(** *** A demonstration map (Quake 1 format)

    Model 0 is the world; the bmodels exercise the shadow policies. *)

Definition demo_model (addr : nat) (first count : Z)
    (world shad self worldonly switchable : bool) (style : Z) (alpha_ : float)
    : modelinfo_t :=
  {| mi_addr := addr;
     model := {| headnode0 := 0; firstface := first; numfaces := count |};
     isWorld := world; shadow := shad; shadowself := self;
     shadowworldonly := worldonly; switchableshadow := switchable;
     switchshadstyle := style; alpha := alpha_ |}.

Definition demo_world := demo_model 0 0 2 true false false false false 0 f1.
Definition demo_selfglass := demo_model 1 2 1 false false true false false 0 fhalf.
Definition demo_switchself := demo_model 2 3 1 false false true false true 32 f1.
Definition demo_grate := demo_model 3 4 1 false true false false false 0 fhalf.
Definition demo_selfwall := demo_model 4 5 1 false false true false false 0 f1.
Definition demo_switch := demo_model 5 6 1 false false false false true 33 f1.
Definition demo_fence := demo_model 6 7 2 false true false false false 0 f1.
Definition demo_redglass := demo_model 7 9 1 false true false false false 0 fhalf.

Definition demo_models : list modelinfo_t :=
  [demo_world; demo_selfglass; demo_switchself; demo_grate; demo_selfwall;
   demo_switch; demo_fence; demo_redglass].

Definition demo_face (edges : Z) (name : string) (texel : color_rgba)
    (owner : modelinfo_t) : sample_face :=
  {| sf_numedges := edges; sf_flags := 0; sf_contents := -2; sf_name := name;
     sf_value := 0; sf_texel := texel; sf_owner := Some owner |}.

Definition demo_faces : list sample_face :=
  [demo_face 4 "wall" opaque_white demo_world;
   demo_face 3 "sky1" opaque_white demo_world;
   demo_face 4 "window" opaque_white demo_selfglass;
   demo_face 4 "wall" opaque_white demo_switchself;
   demo_face 4 "{grate" opaque_white demo_grate;
   demo_face 4 "wall" opaque_white demo_selfwall;
   demo_face 4 "wall" opaque_white demo_switch;
   demo_face 4 "{fence" clear_texel demo_fence;
   demo_face 4 "{fence" opaque_white demo_fence;
   demo_face 4 "glass" opaque_red demo_redglass].

#[local] Instance demo_externals : Externals :=
  sample_externals demo_models demo_faces.

Definition demo_bsp : mbsp_t := sample_bsp 29 8.

Definition demo_facelists : facelists :=
  Eval vm_compute in from_Ok no_faces (classify_faces demo_bsp).

(** One skip winding: a triangle. *)
Definition demo_skip : list winding_t :=
  [[(f0, f0, f0); (f1, f0, f0); (f0, f1, f0)]].

Definition demo_globals : globals :=
  Eval vm_compute in from_Ok no_globals (build_scene demo_bsp demo_facelists demo_skip).

(** A stream holding one white ray, and lanes for that ray against
    primitives of the filtered group (geometry 2): the ray runs along +z
    and the surfaces face -z, so the ray leaves them. *)
Definition upward : vec3 := (f0, f0, f1).
Definition downward : vec3 := (f0, f0, float_of_int (-1)).

Definition demo_stream : raystream_embree_t :=
  {| _rays := [SetupRay 0 vec3_zero upward (float_of_int 100)];
     _rays_maxdist := [float_of_int 100];
     _point_indices := [0];
     _ray_colors := [(f1, f1, f1)];
     _ray_normalcontribs := [vec3_zero];
     _ray_dynamic_styles := [0];
     _numrays := 1;
     _maxrays := 1 |}.

Definition demo_lane (primID : Z) : lane :=
  {| valid := VALID;
     lane_ray := SetupRay 0 vec3_zero upward (float_of_int 100);
     potentialHit := hit_on 2 primID (float_of_int 10) downward |}.

Definition demo_stream_ctx (self_ : modelinfo_ptr) : ray_source_info :=
  new_ray_source_info (Some demo_stream) self_.

Definition demo_single_ctx (self_ : modelinfo_ptr) : ray_source_info :=
  new_ray_source_info None self_.

(** Potential hits on primitive [primID] of the filtered group, and on the
    world's wall in the solid group. *)
Definition demo_hit (primID : Z) : RTCHit :=
  hit_on 2 primID (float_of_int 10) downward.
Definition demo_wall_hit : RTCHit := hit_on 1 0 (float_of_int 20) downward.

(** A stream of capacity 2 on the demonstration map, whose rays meet the
    red glass (primitive 14 of the filtered group). *)
Definition demo_backend : Backend := fixed_candidates [demo_hit 14].

Definition demo_push : stream_op :=
  OpPushRay 7 vec3_zero upward (float_of_int 100) (Some (f1, f1, f1)) None.

(** Memory that still holds what an earlier allocation left in it. *)
Definition stale_memory : uninitialised :=
  {| fresh_rays := fun i => SetupRay (Z.of_nat i + 5) vec3_zero downward f1;
     fresh_rays_maxdist := fun _ => f1;
     fresh_point_indices := fun i => Z.of_nat i + 99;
     fresh_ray_dynamic_styles := fun _ => 7 |}.

Definition demo_empty : raystream_embree_t :=
  Eval vm_compute in from_Ok demo_stream (Embree_MakeRayStream stale_memory 2).

Definition demo_full : raystream_embree_t :=
  Eval vm_compute in
    from_Ok demo_stream
      (foldM (@run_op demo_externals demo_backend demo_globals)
             [demo_push; demo_push] demo_empty).

Definition demo_traced : raystream_embree_t :=
  Eval vm_compute in
    from_Ok demo_stream
      (@run_op demo_externals demo_backend demo_globals demo_full
         (OpTraceOcclusion None)).

Definition demo_reused : raystream_embree_t :=
  Eval vm_compute in
    from_Ok demo_stream
      (foldM (@run_op demo_externals demo_backend demo_globals)
             [OpClear; demo_push] demo_traced).

(** *** A small node tree

    Two nodes and three leaves in the Quake 1 format, where
    [CONTENTS_SOLID] is -2: node 0 splits by plane 0 and has node 1 in
    front and the solid leaf 0 behind; node 1 splits by plane 1 and has
    the empty leaf 1 in front and the solid leaf 2 behind. *)
Definition tree_bsp : mbsp_t :=
  {| loadversion := 29; nummodels := 1; numvertexes := 0; dvertexes := [];
     dplanes := [ {| dp_normal := (f1, f0, f0); dp_dist := f1 |};
                  {| dp_normal := (f0, f1, f0); dp_dist := float_of_int 2 |} ];
     dnodes := [ {| planenum := 0; children0 := 1; children1 := -1 |};
                 {| planenum := 1; children0 := -2; children1 := -3 |} ];
     dleafs := [ {| contents := -2 |}; {| contents := -1 |};
                 {| contents := -2 |} ] |}.

Definition tree_model : dmodel_t :=
  {| headnode0 := 0; firstface := 0; numfaces := 0 |}.

Definition tree_plane (nx ny nz d : Z) : plane_t :=
  {| normal := (float_of_int nx, float_of_int ny, float_of_int nz);
     dist := float_of_int d |}.

(** Zero times -1 is the negative zero. *)
Definition fm0 : float := S754_zero true.

Definition tree_of_tree_bsp : bsp_tree :=
  TNode (tree_plane 1 0 0 1)
        {| normal := (float_of_int (-1), fm0, fm0); dist := float_of_int (-1) |}
        (TNode (tree_plane 0 1 0 2)
               {| normal := (fm0, float_of_int (-1), fm0);
                  dist := float_of_int (-2) |}
               (TLeaf {| contents := -1 |}) (TLeaf {| contents := -2 |}))
        (TLeaf {| contents := -2 |}).

(** A polygon library that records what is asked of it: a winding is the
    plane of its base followed by the planes it was clipped by, no clip
    takes everything away, and every winding has the points of one and
    the same triangle. *)
Definition recording_polylib : Polylib :=
  {| winding := list plane_t;
     BaseWindingForPlane := fun n d => [Build_plane_t n d];
     ClipWinding := fun w n d => (Some (w ++ [Build_plane_t n d]), None);
     winding_points := fun _ => [(f0, f0, f0); (f1, f0, f0); (f0, f1, f0)] |}.

(** What [MakeFaces] records on the small tree: the faces of the solid
    leaf 2 (behind node 1, in front of node 0), then those of the solid
    leaf 0 (behind node 0). *)
Definition tree_windings : list (list plane_t) :=
  Eval vm_compute in
    match @MakeFaces demo_externals recording_polylib 3 tree_bsp tree_model with
    | Some (Ok windings) => windings
    | _ => []
    end.

(** The sample constants and helpers with another answer to the query
    for [RTC_CONFIG_RAY_MASK] and another list of traced models. *)
Definition with_config (E : Externals) (ray_mask : Z)
    (traced : list modelinfo_t) : Externals :=
  {| Q2_BSPVERSION := @Q2_BSPVERSION E;
     TEX_NOSHADOW := @TEX_NOSHADOW E;
     TEX_LIGHT_ALPHA_SHIFT := @TEX_LIGHT_ALPHA_SHIFT E;
     Q2_SURF_LIGHT := @Q2_SURF_LIGHT E;
     Q2_SURF_SKY := @Q2_SURF_SKY E;
     Q2_SURF_NODRAW := @Q2_SURF_NODRAW E;
     Q2_SURF_TRANS33 := @Q2_SURF_TRANS33 E;
     Q2_SURF_TRANSLUCENT := @Q2_SURF_TRANSLUCENT E;
     Q2_CONTENTS_SOLID := @Q2_CONTENTS_SOLID E;
     CONTENTS_SOLID := @CONTENTS_SOLID E;
     RTC_CONFIG_RAY_MASK_value := ray_mask;
     extended_texinfo_flags := @extended_texinfo_flags E;
     tracelist := traced;
     ModelInfoForModel := @ModelInfoForModel E;
     ModelInfoForFace := @ModelInfoForFace E;
     BSP_GetFace := @BSP_GetFace E;
     Face_GetNum := @Face_GetNum E;
     Face_VertexAtIndex := @Face_VertexAtIndex E;
     Face_Contents := @Face_Contents E;
     Face_Texinfo := @Face_Texinfo E;
     Face_TextureName := @Face_TextureName E;
     Contents_IsTranslucent := @Contents_IsTranslucent E;
     Q_strncasecmp := @Q_strncasecmp E;
     SampleTexture := @SampleTexture E;
     VectorNormalize := @VectorNormalize E;
     DotProduct := @DotProduct E |}.

(** A skip-textured model: no faces of its own, the small tree as hull. *)
Definition skip_model : modelinfo_t :=
  {| mi_addr := 8; model := tree_model;
     isWorld := false; shadow := true; shadowself := false;
     shadowworldonly := false; switchableshadow := false;
     switchshadstyle := 0; alpha := f1 |}.

Definition masked_externals : Externals := with_config demo_externals 1 [].
Definition plain_externals : Externals :=
  with_config demo_externals 0 [demo_world; demo_grate].
Definition skip_externals : Externals :=
  with_config demo_externals 0 [demo_world; skip_model].

(** Potential hits on the sky face and on the skip geometry of the
    demonstration map. *)
Definition demo_sky_hit : RTCHit := hit_on 0 0 (float_of_int 30) downward.
Definition demo_skip_hit : RTCHit := hit_on 3 0 (float_of_int 5) downward.

Definition sky_backend : Backend := fixed_candidates [demo_sky_hit].
Definition skip_backend : Backend := fixed_candidates [demo_skip_hit; demo_wall_hit].

(** A packet of three rays for the filter: one against the red glass, one
    that is not valid and carries numbers of no geometry, one against the
    opaque texel of the fence. *)
Definition stray_lane : lane :=
  {| valid := INVALID;
     lane_ray := SetupRay 0 vec3_zero upward (float_of_int 100);
     potentialHit := hit_on 99 7 (float_of_int 10) downward |}.

Definition demo_packet : list lane := [demo_lane 14; stray_lane; demo_lane 12].

Definition demo_packet_filtered : ray_source_info * list lane :=
  Eval vm_compute in
    from_Ok (demo_stream_ctx None, [])
      (@Embree_FilterFuncN demo_externals OCCLUSION demo_globals
         (demo_stream_ctx None) demo_packet).

(** A dirt trace that meets the world's wall, with the three results asked
    for. *)
Definition wall_backend : Backend := fixed_candidates [demo_wall_hit].

Definition demo_dirt
    : hittype_t * option float * option plane_t * option (option bsp2_dface_t) :=
  Eval vm_compute in
    from_Ok (NONE, None, None, None)
      (@Embree_DirtTrace demo_externals wall_backend demo_globals
         vec3_zero upward (float_of_int 100) None
         (Some f0) (Some {| normal := vec3_zero; dist := f0 |}) (Some None)).

(** The stream of capacity 2 after one push, and the traced stream
    cleared and given one ray without a colour. *)
Definition demo_one : raystream_embree_t :=
  Eval vm_compute in
    from_Ok demo_stream
      (@run_op demo_externals demo_backend demo_globals demo_empty demo_push).

Definition demo_recycled : raystream_embree_t :=
  Eval vm_compute in
    from_Ok demo_stream
      (pushRay (clearPushedRays demo_traced) 9 vec3_zero upward
         (float_of_int 50) None None).

(** The full stream after an occlusion trace against the world's wall,
    after an intersection trace against it, and after an intersection
    trace that ends on the skip geometry. *)
Definition demo_walled : raystream_embree_t :=
  Eval vm_compute in
    from_Ok demo_stream
      (@tracePushedRaysOcclusion demo_externals wall_backend demo_globals None
         demo_full).

Definition demo_intersected : raystream_embree_t :=
  Eval vm_compute in
    from_Ok demo_stream
      (@tracePushedRaysIntersection demo_externals wall_backend demo_globals
         None demo_full).

Definition demo_skipped : raystream_embree_t :=
  Eval vm_compute in
    from_Ok demo_stream
      (@tracePushedRaysIntersection demo_externals skip_backend demo_globals
         None demo_full).

(** The stream with one pushed ray of two, traced through the red glass. *)
Definition demo_one_traced : raystream_embree_t :=
  Eval vm_compute in
    from_Ok demo_stream
      (@tracePushedRaysOcclusion demo_externals demo_backend demo_globals None
         demo_one).

(** * Properties *)

(** ** Loops and arrays *)

Lemma foldM_app {A S} (body : S -> A -> outcome S) (l1 l2 : list A) (s : S) :
  foldM body (l1 ++ l2) s = (s' ← foldM body l1 s; foldM body l2 s').
Proof.
  revert s. induction l1 as [|x l1 IH]; intros s; simpl; [done|].
  destruct (body s x) as [s'|msg]; simpl; [apply IH|done].
Qed.

Lemma foldM_ext {A S} (f g : S -> A -> outcome S) (l : list A) (s : S) :
  (forall s a, f s a = g s a) -> foldM f l s = foldM g l s.
Proof.
  intros Hfg. revert s. induction l as [|x l IH]; intros s; simpl; [done|].
  rewrite Hfg. destruct (g s x); simpl; [apply IH|done].
Qed.

Lemma seqZ_to_nat (k n : Z) : seqZ k n = seqZ k (Z.of_nat (Z.to_nat n)).
Proof. unfold seqZ. by rewrite Nat2Z.id. Qed.

Lemma array_store_Ok {A} (arr : list A) (i : Z) (x : A) :
  0 <= i < Z.of_nat (length arr) ->
  array_store arr i x = Ok (<[Z.to_nat i := x]> arr).
Proof.
  intros Hi. unfold array_store.
  destruct (0 <=? i) eqn:E1; [|lia]. destruct (i <? Z.of_nat (length arr)) eqn:E2; [done|lia].
Qed.

Lemma array_store_inv {A} (arr arr' : list A) (i : Z) (x : A) :
  array_store arr i x = Ok arr' ->
  0 <= i < Z.of_nat (length arr) /\ arr' = <[Z.to_nat i := x]> arr.
Proof.
  unfold array_store.
  destruct (0 <=? i) eqn:E1; simpl; [|discriminate].
  destruct (i <? Z.of_nat (length arr)) eqn:E2; [|discriminate].
  intros [= <-]. split; [lia|done].
Qed.

Lemma array_store_length {A} (arr arr' : list A) (i : Z) (x : A) :
  array_store arr i x = Ok arr' -> length arr' = length arr.
Proof. intros [_ ->]%array_store_inv. apply length_insert. Qed.

Lemma array_read_Ok {A} (arr : list A) (i : nat) (x : A) :
  arr !! i = Some x -> array_read arr (Z.of_nat i) = Ok x.
Proof.
  intros Hx. pose proof (lookup_lt_Some _ _ _ Hx) as Hlt.
  unfold array_read. rewrite Nat2Z.id, Hx.
  destruct (0 <=? Z.of_nat i) eqn:E1; [|lia].
  destruct (Z.of_nat i <? Z.of_nat (length arr)) eqn:E2; [done|lia].
Qed.

Lemma array_read_inv {A} (arr : list A) (i : Z) (x : A) :
  array_read arr i = Ok x ->
  0 <= i < Z.of_nat (length arr) /\ arr !! Z.to_nat i = Some x.
Proof.
  unfold array_read.
  destruct (0 <=? i) eqn:E1; simpl; [|discriminate].
  destruct (i <? Z.of_nat (length arr)) eqn:E2; [|discriminate].
  destruct (arr !! Z.to_nat i) eqn:E3; [|discriminate].
  intros [= <-]. split; [lia|done].
Qed.

Lemma vector_at_Ok {A} (v : list A) (i : nat) (x : A) :
  v !! i = Some x -> vector_at v (Z.of_nat i) = Ok x.
Proof.
  intros Hx. pose proof (lookup_lt_Some _ _ _ Hx) as Hlt.
  unfold vector_at. rewrite Nat2Z.id, Hx.
  destruct (0 <=? Z.of_nat i) eqn:E1; [|lia].
  destruct (Z.of_nat i <? Z.of_nat (length v)) eqn:E2; [done|lia].
Qed.

Lemma vector_at_inv {A} (v : list A) (i : Z) (x : A) :
  vector_at v i = Ok x ->
  0 <= i < Z.of_nat (length v) /\ v !! Z.to_nat i = Some x.
Proof.
  unfold vector_at.
  destruct (0 <=? i) eqn:E1; simpl; [|discriminate].
  destruct (i <? Z.of_nat (length v)) eqn:E2; [|discriminate].
  destruct (v !! Z.to_nat i) eqn:E3; [|discriminate].
  intros [= <-]. split; [lia|done].
Qed.

Lemma vector_at_in_range {A} (v : list A) (i : Z) :
  0 <= i < Z.of_nat (length v) -> exists x, vector_at v i = Ok x.
Proof.
  intros Hi. destruct (lookup_lt_is_Some_2 v (Z.to_nat i)) as [x Hx]; [lia|].
  exists x. rewrite <- (Z2Nat.id i) by lia. by apply vector_at_Ok.
Qed.

Lemma vector_at_out_of_range {A} (v : list A) (i : Z) :
  ~ 0 <= i < Z.of_nat (length v) -> vector_at v i = Fatal "vector::at".
Proof.
  intros Hi. unfold vector_at.
  destruct (0 <=? i) eqn:E1; simpl; [|done].
  destruct (i <? Z.of_nat (length v)) eqn:E2; [lia|done].
Qed.

Lemma array_read_in_range {A} (arr : list A) (i : Z) :
  0 <= i < Z.of_nat (length arr) -> exists x, array_read arr i = Ok x.
Proof.
  intros Hi. destruct (lookup_lt_is_Some_2 arr (Z.to_nat i)) as [x Hx]; [lia|].
  exists x. rewrite <- (Z2Nat.id i) by lia. by apply array_read_Ok.
Qed.

(** ** The geometry classifier *)

Section ClassifierProofs.
Context `{Externals}.

Lemma classify_face_spec (bsp : mbsp_t) (mi : modelinfo_t) (s : facelists) (i : Z) :
  contributes mi = true ->
  classify_face bsp mi s i =
    Ok (push_class (spec_class bsp mi (BSP_GetFace bsp (firstface (model mi) + i)))
                   (BSP_GetFace bsp (firstface (model mi) + i)) s).
Proof.
  intros Hc. unfold classify_face, spec_class. rewrite Hc.
  unfold spec_rules, no_shadow_flag, nodraw_not_sky, see_through, fence_name,
    sky_material, liquid.
  set (face := BSP_GetFace bsp (firstface (model mi) + i)).
  unfold contributes in Hc.
  destruct (nonzero (Z.land (extended_texinfo_flags (texinfo face)) TEX_NOSHADOW));
    simpl; [done|].
  destruct (switchableshadow mi) eqn:Hsw; simpl; [done|].
  destruct (isQ2 bsp) eqn:HQ2; simpl.
  - destruct (nonzero (Z.land (Face_Contents bsp face) Q2_SURF_NODRAW)); simpl.
    + destruct (nonzero (Z.land (Face_Contents bsp face) Q2_SURF_SKY)); simpl; [|done].
      destruct (flt (Face_Alpha mi face) f1); simpl; [done|].
      destruct (nonzero (Z.land (Face_Contents bsp face) Q2_SURF_TRANSLUCENT));
        simpl; [done|].
      destruct (Ascii.eqb _ _); simpl; [done|].
      destruct (nonzero (Z.land (Face_Contents bsp face) Q2_SURF_LIGHT)); simpl;
        [destruct (nonzero (value (Face_Texinfo bsp face))); simpl; [done|]|];
        destruct (Contents_IsTranslucent bsp (Face_Contents bsp face)); simpl;
        destruct (isWorld mi); simpl; try done;
        destruct (shadow mi); simpl; try done;
        destruct (shadowself mi); simpl; try done;
        destruct (shadowworldonly mi); simpl; done.
    + destruct (flt (Face_Alpha mi face) f1); simpl; [done|].
      destruct (nonzero (Z.land (Face_Contents bsp face) Q2_SURF_TRANSLUCENT));
        simpl; [done|].
      destruct (Ascii.eqb _ _); simpl; [done|].
      destruct (nonzero (Z.land (Face_Contents bsp face) Q2_SURF_SKY)); simpl;
        [destruct (nonzero (Z.land (Face_Contents bsp face) Q2_SURF_LIGHT)); simpl;
         [destruct (nonzero (value (Face_Texinfo bsp face))); simpl; [done|]|]|];
        destruct (Contents_IsTranslucent bsp (Face_Contents bsp face)); simpl;
        destruct (isWorld mi); simpl; try done;
        destruct (shadow mi); simpl; try done;
        destruct (shadowself mi); simpl; try done;
        destruct (shadowworldonly mi); simpl; done.
  - destruct (flt (Face_Alpha mi face) f1); simpl; [done|].
    destruct (Ascii.eqb _ _); simpl; [done|].
    destruct (Q_strncasecmp "sky" (Face_TextureName bsp face) 3 =? 0); simpl; [done|].
    destruct (Contents_IsTranslucent bsp (Face_Contents bsp face)); simpl;
      destruct (isWorld mi); simpl; try done;
      destruct (shadow mi); simpl; try done;
      destruct (shadowself mi); simpl; try done;
      destruct (shadowworldonly mi); simpl; done.
Qed.

Lemma class_faces_app c bsp mi l1 l2 :
  class_faces c bsp mi (l1 ++ l2) = class_faces c bsp mi l1 ++ class_faces c bsp mi l2.
Proof. unfold class_faces. apply filter_app. Qed.

Lemma add_faces_push (s : facelists) bsp mi (face : bsp2_dface_t) (rest : list bsp2_dface_t) :
  add_faces (push_class (spec_class bsp mi face) face s) bsp mi rest =
  add_faces s bsp mi (face :: rest).
Proof.
  unfold add_faces, class_faces. rewrite !filter_cons.
  destruct (spec_class bsp mi face) as [[]|]; destruct s; simpl;
    repeat case_decide; simpl in *; try congruence;
    rewrite <- ?app_assoc; simpl; done.
Qed.

Lemma add_faces_nil s bsp mi : add_faces s bsp mi [] = s.
Proof. destruct s. unfold add_faces, class_faces. simpl. by rewrite !app_nil_r. Qed.

Lemma classify_face_loop (bsp : mbsp_t) (mi : modelinfo_t) (l : list Z) (s : facelists) :
  contributes mi = true ->
  foldM (classify_face bsp mi) l s =
    Ok (add_faces s bsp mi ((fun i => BSP_GetFace bsp (firstface (model mi) + i)) <$> l)).
Proof.
  intros Hc. revert s. induction l as [|i l IH]; intros s; simpl.
  - by rewrite add_faces_nil.
  - rewrite classify_face_spec by done. simpl. rewrite IH.
    by rewrite add_faces_push.
Qed.

Lemma class_faces_silent c bsp mi faces :
  contributes mi = false -> class_faces c bsp mi faces = [].
Proof.
  intros Hc. unfold class_faces. induction faces as [|f l IH]; [done|].
  rewrite filter_cons. case_decide as Hd; [|done].
  unfold spec_class in Hd. rewrite Hc in Hd. discriminate.
Qed.

Lemma classify_model_spec (bsp : mbsp_t) (s : facelists) (mi : Z) :
  classify_model bsp s mi =
    Ok (add_faces s bsp (ModelInfoForModel bsp mi)
                  (model_faces bsp (ModelInfoForModel bsp mi))).
Proof.
  unfold classify_model.
  destruct (contributes (ModelInfoForModel bsp mi)) eqn:Hc.
  - unfold contributes in Hc. rewrite Hc. simpl.
    rewrite classify_face_loop by done. done.
  - unfold add_faces. rewrite !class_faces_silent by done.
    unfold contributes in Hc. rewrite Hc. simpl.
    destruct s; simpl. by rewrite !app_nil_r.
Qed.

Lemma classify_model_loop (bsp : mbsp_t) (l : list Z) (s : facelists) :
  foldM (classify_model bsp) l s =
    Ok {| skyfaces := skyfaces s ++ bucket_of Sky bsp (ModelInfoForModel bsp <$> l);
          solidfaces := solidfaces s ++ bucket_of Solid bsp (ModelInfoForModel bsp <$> l);
          filterfaces := filterfaces s ++ bucket_of Filtered bsp (ModelInfoForModel bsp <$> l) |}.
Proof.
  revert s. induction l as [|mi l IH]; intros s; simpl.
  - destruct s; simpl. by rewrite !app_nil_r.
  - rewrite classify_model_spec. simpl. rewrite IH. unfold bucket_of, add_faces. simpl.
    by rewrite <- !app_assoc.
Qed.

(** C1. For every model and every face of it, the classification loop of
    [Embree_TraceInit] assigns the face as the ordered rules say: the three
    lists it builds are exactly the faces the rules send to the sky, solid
    and filtered classes, in the order of the models and of their faces; a
    face the rules drop, and every face of a model that is neither the
    world nor flagged for shadows, is in none of them.  The loop never
    stops on its assertion. *)
Theorem classify_faces_follows_rules (bsp : mbsp_t) :
  classify_faces bsp =
    Ok {| skyfaces := spec_bucket Sky bsp;
          solidfaces := spec_bucket Solid bsp;
          filterfaces := spec_bucket Filtered bsp |}.
Proof.
  unfold classify_faces. rewrite classify_model_loop. reflexivity.
Qed.

End ClassifierProofs.

(** On the demonstration map the sky face goes to the sky list, the
    world's wall to the solid list, and the faces of the translucent,
    fence, switchable and self-shadowing models to the filtered list. *)
Example classify_demo :
  classify_faces demo_bsp = Ok demo_facelists
  /\ face_addr <$> skyfaces demo_facelists = [1%nat]
  /\ face_addr <$> solidfaces demo_facelists = [0%nat]
  /\ face_addr <$> filterfaces demo_facelists
     = [2; 3; 4; 5; 6; 7; 8; 9]%nat.
Proof. vm_compute. repeat split. Qed.

(** ** Filling the buffers of a mesh *)

Lemma store_at_end {A} (pre suf : list A) (x y : A) :
  array_store (pre ++ y :: suf) (Z.of_nat (length pre)) x = Ok ((pre ++ [x]) ++ suf).
Proof.
  rewrite array_store_Ok by (rewrite length_app; simpl; lia).
  rewrite Nat2Z.id. f_equal.
  rewrite insert_app_r_alt by lia. rewrite Nat.sub_diag. simpl.
  by rewrite <- app_assoc.
Qed.

(** Stores at consecutive positions [base + k], [base + k + 1], ... *)
Lemma store_run {A} (g : Z -> A) (base : Z) (m : nat) :
  forall (k : Z) (pre suf : list A),
    base + k = Z.of_nat (length pre) ->
    (m <= length suf)%nat ->
    foldM (fun arr j => array_store arr (base + j) (g j)) (seqZ k (Z.of_nat m))
          (pre ++ suf)
    = Ok (pre ++ (g <$> seqZ k (Z.of_nat m)) ++ drop m suf).
Proof.
  induction m as [|m IH]; intros k pre suf Hk Hm.
  - simpl. by rewrite drop_0.
  - rewrite seqZ_cons by lia. simpl.
    destruct suf as [|y suf]; [simpl in Hm; lia|].
    rewrite Hk, store_at_end. simpl.
    replace (Z.pred (Z.of_nat (S m))) with (Z.of_nat m) by lia.
    rewrite IH.
    + by rewrite <- app_assoc.
    + rewrite length_app. simpl. lia.
    + simpl in Hm. lia.
Qed.

Lemma lookup_all {A} (d : A) (w : list A) :
  (fun j => default d (w !! Z.to_nat j)) <$> seqZ 0 (Z.of_nat (length w)) = w.
Proof.
  apply list_eq. intros i. rewrite list_lookup_fmap.
  destruct (decide (i < length w)%nat) as [Hi|Hi].
  - rewrite lookup_seqZ_lt by lia. simpl. rewrite Z.add_0_l, Nat2Z.id.
    destruct (lookup_lt_is_Some_2 w i Hi) as [x Hx]. by rewrite Hx.
  - rewrite lookup_seqZ_ge by lia. simpl. symmetry. apply lookup_ge_None. lia.
Qed.

Section GeometryProofs.
Context `{Externals}.

Lemma count_triangles_acc (bsp : mbsp_t) (faces : list bsp2_dface_t) (n : Z) :
  fold_left (fun numtris face =>
               if numedges face <? 3 then numtris
               else numtris + (numedges face - 2)) faces n
  = n + Z.of_nat (length (emitted bsp faces)).
Proof.
  revert n. induction faces as [|face faces IH]; intros n; simpl; [lia|].
  rewrite IH. unfold emitted. simpl. rewrite length_app. fold (emitted bsp faces).
  unfold face_fan. rewrite length_fmap, length_seqZ.
  destruct (numedges face <? 3) eqn:E; lia.
Qed.

Lemma count_triangles_emitted (bsp : mbsp_t) (faces : list bsp2_dface_t) :
  count_triangles faces = Z.of_nat (length (emitted bsp faces)).
Proof. unfold count_triangles. by rewrite (count_triangles_acc bsp). Qed.

Lemma emit_triangle_step (bsp : mbsp_t) (face : bsp2_dface_t) (mi : modelinfo_ptr)
    (pre suf : list Triangle) (y : Triangle) tf tm (j : Z) :
  emit_triangle bsp face mi
    {| triangles := pre ++ y :: suf; tri_index := Z.of_nat (length pre);
       fs_triToFace := tf; fs_triToModelinfo := tm |} j
  = Ok {| triangles := (pre ++ [fan_triangle bsp face j]) ++ suf;
          tri_index := Z.of_nat (length (pre ++ [fan_triangle bsp face j]));
          fs_triToFace := tf ++ [face];
          fs_triToModelinfo := tm ++ [mi] |}.
Proof.
  unfold emit_triangle. simpl. rewrite store_at_end. simpl.
  rewrite length_app. simpl. do 2 f_equal. lia.
Qed.

Lemma emit_loop (bsp : mbsp_t) (face : bsp2_dface_t) (mi : modelinfo_ptr)
    (js : list Z) :
  forall (pre suf : list Triangle) tf tm,
    (length js <= length suf)%nat ->
    foldM (emit_triangle bsp face mi) js
      {| triangles := pre ++ suf; tri_index := Z.of_nat (length pre);
         fs_triToFace := tf; fs_triToModelinfo := tm |}
    = Ok {| triangles := pre ++ (fan_triangle bsp face <$> js) ++ drop (length js) suf;
            tri_index := Z.of_nat (length pre + length js);
            fs_triToFace := tf ++ ((fun _ => face) <$> js);
            fs_triToModelinfo := tm ++ ((fun _ => mi) <$> js) |}.
Proof.
  induction js as [|j js IH]; intros pre suf tf tm Hlen.
  - simpl. rewrite drop_0, !app_nil_r, Nat.add_0_r. done.
  - destruct suf as [|y suf]; [simpl in Hlen; lia|].
    cbn [foldM]. rewrite emit_triangle_step. cbn [mbind outcome_bind].
    rewrite IH by (simpl in Hlen; lia).
    rewrite length_app. simpl. rewrite <- !app_assoc. simpl.
    do 3 f_equal. lia.
Qed.

Lemma emitted_cons (bsp : mbsp_t) (face : bsp2_dface_t) (faces : list bsp2_dface_t) :
  emitted bsp (face :: faces) = face_fan bsp face ++ emitted bsp faces.
Proof. reflexivity. Qed.

Lemma fill_face_fan (bsp : mbsp_t) (st : fill_state) (face : bsp2_dface_t) :
  fill_face bsp st face =
  foldM (emit_triangle bsp face (ModelInfoForFace bsp (Face_GetNum bsp face)))
        (seqZ 2 (numedges face - 2)) st.
Proof.
  unfold fill_face. destruct (numedges face <? 3) eqn:E; [|done].
  rewrite seqZ_nil by lia. done.
Qed.

Lemma fill_face_loop (bsp : mbsp_t) (faces : list bsp2_dface_t) :
  forall (pre suf : list Triangle) tf tm,
    (length (emitted bsp faces) <= length suf)%nat ->
    foldM (fill_face bsp) faces
      {| triangles := pre ++ suf; tri_index := Z.of_nat (length pre);
         fs_triToFace := tf; fs_triToModelinfo := tm |}
    = Ok {| triangles := pre ++ (emitted_triangle <$> emitted bsp faces)
                          ++ drop (length (emitted bsp faces)) suf;
            tri_index := Z.of_nat (length pre + length (emitted bsp faces));
            fs_triToFace := tf ++ (emitted_face <$> emitted bsp faces);
            fs_triToModelinfo := tm ++ (emitted_model <$> emitted bsp faces) |}.
Proof.
  induction faces as [|face faces IH]; intros pre suf tf tm Hlen.
  - simpl. rewrite drop_0, !app_nil_r, Nat.add_0_r. done.
  - cbn [foldM]. rewrite fill_face_fan.
    rewrite emitted_cons in *. rewrite length_app in Hlen.
    assert (Hfan : length (face_fan bsp face) = length (seqZ 2 (numedges face - 2)))
      by (unfold face_fan; by rewrite length_fmap).
    rewrite emit_loop by lia. cbn [mbind outcome_bind].
    rewrite (app_assoc pre).
    replace (length pre + length (seqZ 2 (numedges face - 2)))%nat
      with (length (pre ++ (fan_triangle bsp face <$> seqZ 2 (numedges face - 2))))
      by (rewrite length_app, length_fmap; done).
    rewrite IH by (rewrite length_drop; lia).
    rewrite drop_drop, !fmap_app, !length_app, length_fmap, <- !app_assoc.
    rewrite Hfan. unfold face_fan.
    rewrite <- !list_fmap_compose. unfold compose, emitted_triangle, emitted_face,
      emitted_model. simpl.
    do 2 f_equal. lia.
Qed.

Lemma CreateGeometry_spec (bsp : mbsp_t) (scene : RTCScene)
    (faces : list bsp2_dface_t) :
  CreateGeometry bsp scene faces =
    Ok (add_mesh scene (face_mesh bsp faces),
        face_sceneinfo bsp (Z.of_nat (length (meshes scene))) faces).
Proof.
  unfold CreateGeometry, rtcNewTriangleMesh, mapped_vertex_buffer,
    mapped_index_buffer, unmap_vertex_buffer, unmap_index_buffer.
  cbn [meshes filter_geomIDs].
  rewrite Nat2Z.id, list_lookup_middle by done. cbn [vertex_buffer index_buffer].
  rewrite (foldM_ext _ (fun arr j => array_store arr (0 + j)
             (default vec3_zero (dvertexes bsp !! Z.to_nat j)))) by done.
  rewrite (seqZ_to_nat 0 (numvertexes bsp)).
  rewrite (store_run _ 0 _ 0 [] (replicate (Z.to_nat (numvertexes bsp)) vec3_zero))
    by (rewrite ?length_replicate; simpl; lia).
  cbn [mbind outcome_bind app].
  rewrite (alter_app_r_alt _ (meshes scene)) by lia.
  rewrite Nat.sub_diag. cbn [alter list_alter vertex_buffer index_buffer].
  rewrite list_lookup_middle by done. cbn [index_buffer].
  rewrite (fill_face_loop bsp faces [] (replicate (Z.to_nat (count_triangles faces)) Triangle0))
    by (rewrite length_replicate, (count_triangles_emitted bsp), Nat2Z.id; done).
  cbn [mbind outcome_bind app triangles fs_triToFace fs_triToModelinfo].
  rewrite (alter_app_r_alt _ (meshes scene)) by lia.
  rewrite Nat.sub_diag. cbn [alter list_alter vertex_buffer index_buffer].
  rewrite !drop_ge, !app_nil_r
    by (rewrite length_replicate, ?(count_triangles_emitted bsp), ?Nat2Z.id; lia).
  unfold add_mesh, face_mesh, face_sceneinfo, bsp_vertices.
  rewrite <- (seqZ_to_nat 0 (numvertexes bsp)). done.
Qed.

Lemma winding_fans_length (v : Z) (windings : list winding_t) :
  Forall (fun w => 3 <= numpoints w) windings ->
  Z.of_nat (length (winding_fans v windings))
  = Z.of_nat (length (concat windings)) - 2 * Z.of_nat (length windings).
Proof.
  intros Hall. revert v. induction Hall as [|w ws Hw _ IH]; intros v; simpl; [done|].
  rewrite !length_app. unfold winding_fan. rewrite length_fmap, length_seqZ.
  specialize (IH (v + numpoints w)). unfold numpoints in *. lia.
Qed.

Lemma count_winding_loop (windings : list winding_t) (v numtris numverts : Z) :
  Forall (fun w => 3 <= numpoints w) windings ->
  foldM count_winding windings (numtris, numverts)
  = Ok (numtris + Z.of_nat (length (winding_fans v windings)),
        numverts + Z.of_nat (length (concat windings))).
Proof.
  intros Hall. revert v numtris numverts.
  induction Hall as [|w ws Hw _ IH]; intros v numtris numverts; simpl.
  - by rewrite !Z.add_0_r.
  - unfold Q_assert. destruct (3 <=? numpoints w) eqn:E; [|lia]. simpl.
    rewrite (IH (v + numpoints w)). rewrite !length_app.
    unfold winding_fan. rewrite length_fmap, length_seqZ.
    unfold numpoints in *. do 2 f_equal; lia.
Qed.

Lemma count_winding_stops (windings : list winding_t) (acc : Z * Z) :
  Exists (fun w => numpoints w < 3) windings ->
  foldM count_winding windings acc = Fatal "winding->numpoints >= 3".
Proof.
  intros Hex. revert acc. induction Hex as [w ws Hw|w ws _ IH]; intros [nt nv]; simpl.
  - unfold Q_assert. destruct (3 <=? numpoints w) eqn:E; [lia|done].
  - unfold Q_assert. destruct (3 <=? numpoints w) eqn:E; [|done]. simpl. apply IH.
Qed.

Lemma fill_winding_vertices_step (w : winding_t) (pre suf : list vec3) :
  (length w <= length suf)%nat ->
  fill_winding_vertices (pre ++ suf, Z.of_nat (length pre)) w
  = Ok ((pre ++ w) ++ drop (length w) suf, Z.of_nat (length (pre ++ w))).
Proof.
  intros Hlen. unfold fill_winding_vertices, numpoints.
  rewrite (store_run (fun j => default vec3_zero (w !! Z.to_nat j))
             (Z.of_nat (length pre)) (length w) 0 pre suf) by lia.
  cbn [mbind outcome_bind].
  rewrite (lookup_all vec3_zero w), length_app, <- app_assoc.
  do 2 f_equal. lia.
Qed.

Lemma fill_winding_vertices_loop (windings : list winding_t) :
  forall (pre suf : list vec3),
    (length (concat windings) <= length suf)%nat ->
    foldM fill_winding_vertices windings (pre ++ suf, Z.of_nat (length pre))
    = Ok (pre ++ concat windings ++ drop (length (concat windings)) suf,
          Z.of_nat (length pre + length (concat windings))).
Proof.
  induction windings as [|w ws IH]; intros pre suf Hlen.
  - simpl. by rewrite drop_0, Nat.add_0_r.
  - cbn [foldM concat] in *. rewrite length_app in Hlen.
    rewrite fill_winding_vertices_step by lia. cbn [mbind outcome_bind].
    rewrite IH by (rewrite length_drop; lia).
    rewrite drop_drop, !length_app, <- !app_assoc.
    do 2 f_equal. lia.
Qed.

Lemma winding_triangle_loop (vert_index : Z) (js : list Z) :
  forall (pre suf : list Triangle),
    (length js <= length suf)%nat ->
    foldM (fun '(triangles, tri_index) j =>
             triangles' ← array_store triangles tri_index
                            {| v0 := vert_index + (j - 1);
                               v1 := vert_index + j;
                               v2 := vert_index + 0 |};
             Ok (triangles', tri_index + 1))
          js (pre ++ suf, Z.of_nat (length pre))
    = Ok (pre ++ ((fun j => {| v0 := vert_index + (j - 1); v1 := vert_index + j;
                               v2 := vert_index + 0 |}) <$> js)
              ++ drop (length js) suf,
          Z.of_nat (length pre + length js)).
Proof.
  induction js as [|j js IH]; intros pre suf Hlen.
  - simpl. by rewrite drop_0, Nat.add_0_r.
  - destruct suf as [|y suf]; [simpl in Hlen; lia|].
    cbn [foldM]. rewrite store_at_end. cbn [mbind outcome_bind].
    replace (Z.of_nat (length pre) + 1)
      with (Z.of_nat (length (pre ++ [{| v0 := vert_index + (j - 1);
                                         v1 := vert_index + j;
                                         v2 := vert_index + 0 |}])))
      by (rewrite length_app; simpl; lia).
    rewrite IH by (simpl in Hlen; lia).
    rewrite length_app. simpl. rewrite <- !app_assoc. simpl.
    do 2 f_equal. lia.
Qed.

Lemma fill_winding_triangles_step (w : winding_t) (v : Z) (pre suf : list Triangle) :
  (length (winding_fan v w) <= length suf)%nat ->
  fill_winding_triangles (pre ++ suf, Z.of_nat (length pre), v) w
  = Ok ((pre ++ winding_fan v w) ++ drop (length (winding_fan v w)) suf,
        Z.of_nat (length (pre ++ winding_fan v w)), v + numpoints w).
Proof.
  intros Hlen. unfold fill_winding_triangles.
  assert (Hfan : length (winding_fan v w) = length (seqZ 2 (numpoints w - 2)))
    by (unfold winding_fan; by rewrite length_fmap).
  rewrite winding_triangle_loop by lia. cbn [mbind outcome_bind].
  fold (winding_fan v w). rewrite length_app, <- app_assoc, Hfan. done.
Qed.

Lemma fill_winding_triangles_loop (windings : list winding_t) :
  forall (v : Z) (pre suf : list Triangle),
    (length (winding_fans v windings) <= length suf)%nat ->
    foldM fill_winding_triangles windings (pre ++ suf, Z.of_nat (length pre), v)
    = Ok (pre ++ winding_fans v windings
              ++ drop (length (winding_fans v windings)) suf,
          Z.of_nat (length pre + length (winding_fans v windings)),
          v + Z.of_nat (length (concat windings))).
Proof.
  induction windings as [|w ws IH]; intros v pre suf Hlen.
  - simpl. by rewrite drop_0, Nat.add_0_r, Z.add_0_r.
  - cbn [foldM winding_fans concat] in *. rewrite length_app in Hlen.
    rewrite fill_winding_triangles_step by lia. cbn [mbind outcome_bind].
    rewrite IH by (rewrite length_drop; lia).
    rewrite drop_drop, !length_app, <- !app_assoc.
    unfold numpoints. do 2 f_equal; [do 2 f_equal|]; lia.
Qed.

Lemma CreateGeometryFromWindings_spec (scene : RTCScene) (windings : list winding_t) :
  windings <> [] ->
  Forall (fun w => 3 <= numpoints w) windings ->
  CreateGeometryFromWindings scene windings = Ok (add_mesh scene (winding_mesh windings)).
Proof.
  intros Hne Hall. unfold CreateGeometryFromWindings.
  destruct windings as [|w0 ws0] eqn:Ews; [done|]. rewrite <- Ews in *. clear Ews.
  rewrite (count_winding_loop windings 0) by done. cbn [mbind outcome_bind].
  unfold rtcNewTriangleMesh, mapped_vertex_buffer, mapped_index_buffer,
    unmap_vertex_buffer, unmap_index_buffer.
  cbn [meshes filter_geomIDs].
  rewrite Nat2Z.id, list_lookup_middle by done. cbn [vertex_buffer index_buffer].
  rewrite !Z.add_0_l, !Nat2Z.id.
  pose proof (fill_winding_vertices_loop windings []
                (replicate (length (concat windings)) vec3_zero)) as Hv.
  rewrite length_replicate in Hv. specialize (Hv (le_n _)).
  cbn [app length Nat.add] in Hv. change (Z.of_nat 0) with 0 in Hv.
  rewrite Hv. clear Hv. cbn [mbind outcome_bind].
  rewrite (alter_app_r_alt _ (meshes scene)) by lia.
  rewrite Nat.sub_diag. cbn [alter list_alter vertex_buffer index_buffer].
  rewrite list_lookup_middle by done. cbn [index_buffer].
  pose proof (fill_winding_triangles_loop windings 0 []
                (replicate (length (winding_fans 0 windings)) Triangle0)) as Ht.
  rewrite length_replicate in Ht. specialize (Ht (le_n _)).
  cbn [app length Nat.add] in Ht. change (Z.of_nat 0) with 0 in Ht.
  rewrite Ht. clear Ht. cbn [mbind outcome_bind].
  unfold Q_assert. rewrite !Z.add_0_l, !Z.eqb_refl. cbn [mbind outcome_bind].
  rewrite (alter_app_r_alt _ (meshes scene)) by lia.
  rewrite Nat.sub_diag. cbn [alter list_alter vertex_buffer index_buffer].
  rewrite !drop_ge, !app_nil_r by (rewrite length_replicate; lia).
  done.
Qed.

Lemma CreateGeometryFromWindings_stops (scene : RTCScene) (windings : list winding_t) :
  Exists (fun w => numpoints w < 3) windings ->
  CreateGeometryFromWindings scene windings = Fatal "winding->numpoints >= 3".
Proof.
  intros Hex. unfold CreateGeometryFromWindings.
  destruct windings as [|w0 ws0] eqn:Ews; [by apply Exists_nil in Hex|].
  rewrite <- Ews in *. by rewrite count_winding_stops.
Qed.

End GeometryProofs.

(** ** The built scene and the reverse lookup *)

Section SceneProofs.
Context `{Externals}.

Lemma windings_dichotomy (windings : list winding_t) :
  Forall (fun w => 3 <= numpoints w) windings
  \/ Exists (fun w => numpoints w < 3) windings.
Proof.
  destruct (decide (Forall (fun w => 3 <= numpoints w) windings)) as [Hall|Hnot];
    [by left|right].
  apply not_Forall_Exists in Hnot; [|intros w; apply _].
  eapply Exists_impl; [exact Hnot|]. intros w Hw. simpl in Hw. lia.
Qed.

Lemma build_scene_Ok (bsp : mbsp_t) (faces : facelists) (windings : list winding_t) :
  RTC_CONFIG_RAY_MASK_value = 0 ->
  Forall (fun w => 3 <= numpoints w) windings ->
  build_scene bsp faces windings = Ok (built_globals bsp faces windings).
Proof.
  intros Hmask Hall. unfold build_scene. rewrite Hmask. cbn [Z.eqb negb mbind outcome_bind].
  do 3 (rewrite CreateGeometry_spec; cbn [mbind outcome_bind]).
  destruct windings as [|w0 ws0] eqn:Ews.
  - cbn [CreateGeometryFromWindings mbind outcome_bind]. reflexivity.
  - rewrite <- Ews in *. rewrite CreateGeometryFromWindings_spec by (done || by subst).
    cbn [mbind outcome_bind]. subst windings. reflexivity.
Qed.

Lemma build_scene_inv (bsp : mbsp_t) (faces : facelists) (windings : list winding_t)
    (G : globals) :
  build_scene bsp faces windings = Ok G ->
  G = built_globals bsp faces windings
  /\ Forall (fun w => 3 <= numpoints w) windings.
Proof.
  intros HG.
  destruct (RTC_CONFIG_RAY_MASK_value =? 0) eqn:Hmask.
  - apply Z.eqb_eq in Hmask.
    destruct (windings_dichotomy windings) as [Hall|Hex].
    + rewrite build_scene_Ok in HG by done. by inversion HG.
    + unfold build_scene in HG. rewrite Hmask in HG.
      cbn [Z.eqb negb mbind outcome_bind] in HG.
      do 3 (rewrite CreateGeometry_spec in HG; cbn [mbind outcome_bind] in HG).
      rewrite CreateGeometryFromWindings_stops in HG by done. discriminate.
  - unfold build_scene in HG. rewrite Hmask in HG. discriminate.
Qed.

Lemma built_group_id (bsp : mbsp_t) (faces : facelists) (windings : list winding_t)
    (g : group) :
  geomID (group_info (built_globals bsp faces windings) g)
  = match g with GSky => 0 | GSolid => 1 | GFilter => 2 end.
Proof. by destruct g. Qed.

Lemma built_group_lookup (bsp : mbsp_t) (faces : facelists)
    (windings : list winding_t) (g : group) :
  Embree_SceneinfoForGeomID (built_globals bsp faces windings)
    (geomID (group_info (built_globals bsp faces windings) g))
  = Ok (face_sceneinfo bsp (match g with GSky => 0 | GSolid => 1 | GFilter => 2 end)
          (group_faces faces g)).
Proof. by destruct g. Qed.

Lemma built_group_triangles (bsp : mbsp_t) (faces : facelists)
    (windings : list winding_t) (g : group) :
  mesh_triangles (built_globals bsp faces windings)
    (geomID (group_info (built_globals bsp faces windings) g))
  = emitted_triangle <$> emitted bsp (group_faces faces g).
Proof. by destruct g. Qed.

(** C6. Round trip: in each of the three classified groups of a built
    scene, the [i]-th triangle of the group's mesh is the [i]-th triangle
    emitted from the group's faces, and the reverse lookup of the group's
    id and [i] returns exactly the face that triangle was made from and
    the model owning that face. *)
Theorem lookup_round_trip (bsp : mbsp_t) (faces : facelists)
    (windings : list winding_t) (G : globals) (g : group) (i : nat)
    (tri : Triangle) (face : bsp2_dface_t) (mi : modelinfo_ptr) :
  build_scene bsp faces windings = Ok G ->
  emitted bsp (group_faces faces g) !! i = Some (tri, face, mi) ->
  mesh_triangles G (geomID (group_info G g)) !! i = Some tri
  /\ Embree_LookupFace G (geomID (group_info G g)) (Z.of_nat i) = Ok face
  /\ Embree_LookupModelinfo G (geomID (group_info G g)) (Z.of_nat i) = Ok mi.
Proof.
  intros [-> _]%build_scene_inv Hi.
  unfold Embree_LookupFace, Embree_LookupModelinfo.
  rewrite built_group_triangles, built_group_lookup.
  cbn [mbind outcome_bind face_sceneinfo triToFace triToModelinfo].
  split; [|split].
  - by rewrite list_lookup_fmap, Hi.
  - apply vector_at_Ok. by rewrite list_lookup_fmap, Hi.
  - apply vector_at_Ok. by rewrite list_lookup_fmap, Hi.
Qed.

End SceneProofs.

(** The scene of [Embree_TraceInit] is the scene built from the faces the
    rules select and from the windings of the skip models. *)
Lemma Embree_TraceInit_scene `{Externals} `{Polylib} (fuel : nat)
    (device device' : option RTCDevice) (bsp : mbsp_t) (G : globals) :
  Embree_TraceInit fuel device bsp = Some (Ok (device', G)) ->
  exists skipwindings : list winding_t,
    G = built_globals bsp
          {| skyfaces := spec_bucket Sky bsp;
             solidfaces := spec_bucket Solid bsp;
             filterfaces := spec_bucket Filtered bsp |}
          skipwindings.
Proof.
  unfold Embree_TraceInit, classify_faces.
  destruct (Q_assert _ _); [|discriminate]. rewrite classify_model_loop.
  destruct (skip_windings fuel bsp tracelist) as [[windings|msg]|]; try discriminate.
  destruct (build_scene _ _ _) as [G0|] eqn:HG; [|discriminate].
  cbn [mbind outcome_bind]. intros [= _ <-].
  apply build_scene_inv in HG as [-> _]. by eexists.
Qed.

(** In the demonstration map, primitive 5 of the filtered group is the
    second triangle of face 4, which belongs to the grate model. *)
Lemma lookup_round_trip_witness :
  mesh_triangles demo_globals 2 !! 5%nat = Some {| v0 := 42; v1 := 43; v2 := 40 |}
  /\ Embree_LookupFace demo_globals 2 5
     = Ok {| face_addr := 4; numedges := 4; texinfo := 4 |}
  /\ Embree_LookupModelinfo demo_globals 2 5 = Ok (Some demo_grate).
Proof.
  apply (lookup_round_trip demo_bsp demo_facelists demo_skip demo_globals
           GFilter 5
           {| v0 := 42; v1 := 43; v2 := 40 |}
           {| face_addr := 4; numedges := 4; texinfo := 4 |}
           (Some demo_grate)).
  - vm_compute. reflexivity.
  - vm_compute. reflexivity.
Defined.

(** ** Unrecognised geometry *)

Section SkipLookup.
Context `{Externals}.

Lemma sceneinfo_unknown (G : globals) (id : Z) :
  id <> geomID (skygeom G) -> id <> geomID (solidgeom G) ->
  id <> geomID (filtergeom G) ->
  Embree_SceneinfoForGeomID G id = Fatal "unexpected geomID".
Proof.
  intros Hsky Hsolid Hfilter. unfold Embree_SceneinfoForGeomID.
  apply Z.eqb_neq in Hsky, Hsolid, Hfilter. by rewrite Hsky, Hsolid, Hfilter.
Qed.

Lemma emitted_inv (bsp : mbsp_t) (faces : list bsp2_dface_t)
    (e : Triangle * bsp2_dface_t * modelinfo_ptr) :
  e ∈ emitted bsp faces ->
  emitted_face e ∈ faces
  /\ 3 <= numedges (emitted_face e)
  /\ emitted_model e
     = ModelInfoForFace bsp (Face_GetNum bsp (emitted_face e)).
Proof.
  unfold emitted. intros (face & He & Hface)%list_elem_of_bind.
  unfold face_fan in He. apply list_elem_of_fmap in He as (j & -> & Hj).
  apply elem_of_seqZ in Hj. cbn. repeat split; (done || lia).
Qed.

(** What the two reverse tables of a classified group hold for one
    primitive: a face of the group's list and the model that
    [ModelInfoForFace] gives for that face. *)
Lemma table_model_face (bsp : mbsp_t) (fs : list bsp2_dface_t) (id primID : Z)
    (mi : modelinfo_ptr) :
  vector_at (triToModelinfo (face_sceneinfo bsp id fs)) primID = Ok mi ->
  exists face : bsp2_dface_t,
    vector_at (triToFace (face_sceneinfo bsp id fs)) primID = Ok face
    /\ face ∈ fs
    /\ mi = ModelInfoForFace bsp (Face_GetNum bsp face).
Proof.
  intros [Hrange Hat]%vector_at_inv.
  cbn [face_sceneinfo triToFace triToModelinfo] in *.
  apply list_lookup_fmap_Some in Hat as (e & -> & He).
  destruct (emitted_inv bsp fs e) as (Hin & _ & Hmodel);
    [by eapply list_elem_of_lookup_2|].
  exists (emitted_face e). split; [|by split].
  rewrite <- (Z2Nat.id primID) by lia. apply vector_at_Ok.
  by rewrite list_lookup_fmap, He.
Qed.

(** C5, as the code has it.  The windings of the skip models are merged as
    a fourth mesh, geometry id 3, for which nothing is recorded: the
    reverse lookup of any of its primitives is the fatal error
    "unexpected geomID", as it is for every id other than those of the
    three classified groups.  The lookup of the model returns null only
    for a triangle of one of the three classified groups, and then the
    face of that triangle is one for which [ModelInfoForFace] is null. *)
Theorem skip_geometry_lookup_fails (bsp : mbsp_t) (faces : facelists)
    (windings : list winding_t) (G : globals) (primID : Z) :
  build_scene bsp faces windings = Ok G ->
  windings <> [] ->
  meshes (scene G) !! 3%nat = Some (winding_mesh windings)
  /\ Embree_LookupFace G 3 primID = Fatal "unexpected geomID"
  /\ Embree_LookupModelinfo G 3 primID = Fatal "unexpected geomID"
  /\ (forall id : Z,
        id <> geomID (skygeom G) -> id <> geomID (solidgeom G) ->
        id <> geomID (filtergeom G) ->
        Embree_LookupFace G id primID = Fatal "unexpected geomID"
        /\ Embree_LookupModelinfo G id primID = Fatal "unexpected geomID")
  /\ (forall id prim : Z,
        Embree_LookupModelinfo G id prim = Ok None ->
        exists (g : group) (face : bsp2_dface_t),
          id = geomID (group_info G g)
          /\ Embree_LookupFace G id prim = Ok face
          /\ face ∈ group_faces faces g
          /\ ModelInfoForFace bsp (Face_GetNum bsp face) = None).
Proof.
  intros [-> _]%build_scene_inv Hne.
  split; [|split; [|split; [|split]]].
  - destruct windings; [done|]. reflexivity.
  - reflexivity.
  - reflexivity.
  - intros id Hsky Hsolid Hfilter.
    unfold Embree_LookupFace, Embree_LookupModelinfo.
    by rewrite sceneinfo_unknown.
  - intros id prim. unfold Embree_LookupFace, Embree_LookupModelinfo.
    unfold Embree_SceneinfoForGeomID.
    cbn [built_globals skygeom solidgeom filtergeom face_sceneinfo geomID].
    destruct (id =? 0) eqn:E0; [apply Z.eqb_eq in E0 as ->|].
    { cbn [mbind outcome_bind].
      intros (face & Hface & Hin & Hnull)%table_model_face.
      exists GSky, face. by rewrite Hface. }
    destruct (id =? 1) eqn:E1; [apply Z.eqb_eq in E1 as ->|].
    { cbn [mbind outcome_bind].
      intros (face & Hface & Hin & Hnull)%table_model_face.
      exists GSolid, face. by rewrite Hface. }
    destruct (id =? 2) eqn:E2; [apply Z.eqb_eq in E2 as ->|discriminate].
    cbn [mbind outcome_bind].
    intros (face & Hface & Hin & Hnull)%table_model_face.
    exists GFilter, face. by rewrite Hface.
Qed.

End SkipLookup.

Lemma skip_geometry_lookup_fails_witness :
  meshes (scene demo_globals) !! 3%nat = Some (winding_mesh demo_skip)
  /\ Embree_LookupFace demo_globals 3 0 = Fatal "unexpected geomID"
  /\ Embree_LookupModelinfo demo_globals 3 0 = Fatal "unexpected geomID"
  /\ (forall id : Z,
        id <> geomID (skygeom demo_globals) -> id <> geomID (solidgeom demo_globals) ->
        id <> geomID (filtergeom demo_globals) ->
        Embree_LookupFace demo_globals id 0 = Fatal "unexpected geomID"
        /\ Embree_LookupModelinfo demo_globals id 0 = Fatal "unexpected geomID")
  /\ (forall id prim : Z,
        Embree_LookupModelinfo demo_globals id prim = Ok None ->
        exists (g : group) (face : bsp2_dface_t),
          id = geomID (group_info demo_globals g)
          /\ Embree_LookupFace demo_globals id prim = Ok face
          /\ face ∈ group_faces demo_facelists g
          /\ ModelInfoForFace demo_bsp (Face_GetNum demo_bsp face) = None).
Proof.
  apply (skip_geometry_lookup_fails demo_bsp demo_facelists demo_skip demo_globals 0).
  - vm_compute. reflexivity.
  - discriminate.
Defined.

(** The claim of C5 fails on the demonstration map: primitive 0 of the
    skip geometry (id 3) exists, and its reverse lookup does not yield a
    null model; it ends the process. *)
Lemma skip_geometry_lookup_counterexample :
  mesh_triangles demo_globals 3 !! 0%nat = Some {| v0 := 1; v1 := 2; v2 := 0 |}
  /\ Embree_LookupModelinfo demo_globals 3 0 <> Ok None
  /\ is_Ok (Embree_LookupFace demo_globals 3 0) = false
  /\ is_Ok (Embree_LookupModelinfo demo_globals 3 0) = false.
Proof. vm_compute. repeat split; discriminate. Qed.

(** ** Fan triangulation *)

Section FanProofs.
Context `{Externals}.

Lemma sumZ_cons (x : Z) (l : list Z) : sumZ (x :: l) = x + sumZ l.
Proof. reflexivity. Qed.

Lemma face_fan_length (bsp : mbsp_t) (face : bsp2_dface_t) :
  Z.of_nat (length (face_fan bsp face)) = Z.max 0 (numedges face - 2).
Proof. unfold face_fan. rewrite length_fmap, length_seqZ. lia. Qed.

Lemma emitted_length (bsp : mbsp_t) (faces : list bsp2_dface_t) :
  Z.of_nat (length (emitted bsp faces))
  = sumZ ((fun face => numedges face - 2)
            <$> filter (fun face => 3 <= numedges face) faces).
Proof.
  induction faces as [|face faces IH]; [done|].
  rewrite emitted_cons, length_app, Nat2Z.inj_add, IH, face_fan_length, filter_cons.
  case_decide; rewrite ?fmap_cons, ?sumZ_cons; lia.
Qed.

Lemma winding_fans_app (v : Z) (l1 l2 : list winding_t) :
  winding_fans v (l1 ++ l2)
  = winding_fans v l1 ++ winding_fans (v + Z.of_nat (length (concat l1))) l2.
Proof.
  revert v. induction l1 as [|w l1 IH]; intros v; simpl.
  - by rewrite Z.add_0_r.
  - rewrite IH, length_app, <- app_assoc. unfold numpoints.
    do 3 f_equal. lia.
Qed.

Lemma winding_fans_total (v : Z) (windings : list winding_t) :
  Forall (fun w => 3 <= numpoints w) windings ->
  Z.of_nat (length (winding_fans v windings))
  = sumZ ((fun w => numpoints w - 2) <$> windings).
Proof.
  intros Hall. revert v. induction Hall as [|w ws Hw _ IH]; intros v; [done|].
  cbn [winding_fans]. rewrite length_app, Nat2Z.inj_add, IH, fmap_cons, sumZ_cons.
  unfold winding_fan. rewrite length_fmap, length_seqZ. lia.
Qed.

Lemma concat_lookup_middle (before after : list winding_t) (w : winding_t) (i : nat) :
  (i < length w)%nat ->
  concat (before ++ w :: after) !! (length (concat before) + i)%nat = w !! i.
Proof.
  intros Hi. rewrite concat_app. simpl.
  rewrite lookup_app_r by lia.
  replace (length (concat before) + i - length (concat before))%nat with i by lia.
  by rewrite lookup_app_l.
Qed.

Lemma winding_triangle_vertices (before after : list winding_t) (w : winding_t)
    (j : Z) :
  2 <= j < numpoints w ->
  exists tri : Triangle,
    winding_fans 0 (before ++ w :: after)
      !! (length (winding_fans 0 before) + Z.to_nat (j - 2))%nat = Some tri
    /\ concat (before ++ w :: after) !! Z.to_nat (v0 tri) = w !! Z.to_nat (j - 1)
    /\ concat (before ++ w :: after) !! Z.to_nat (v1 tri) = w !! Z.to_nat j
    /\ concat (before ++ w :: after) !! Z.to_nat (v2 tri) = w !! 0%nat.
Proof.
  intros Hj. unfold numpoints in Hj.
  set (off := Z.of_nat (length (concat before))).
  exists {| v0 := off + (j - 1); v1 := off + j; v2 := off + 0 |}.
  split; [|split; [|split]].
  - rewrite winding_fans_app. rewrite lookup_app_r by lia.
    replace (length (winding_fans 0 before) + Z.to_nat (j - 2)
             - length (winding_fans 0 before))%nat with (Z.to_nat (j - 2)) by lia.
    simpl. rewrite lookup_app_l
      by (unfold winding_fan, numpoints; rewrite length_fmap, length_seqZ; lia).
    unfold winding_fan. rewrite list_lookup_fmap, lookup_seqZ_lt
      by (unfold numpoints; lia).
    simpl. do 2 f_equal; lia.
  - simpl. replace (Z.to_nat (off + (j - 1)))
      with (length (concat before) + Z.to_nat (j - 1))%nat by lia.
    apply concat_lookup_middle. lia.
  - simpl. replace (Z.to_nat (off + j))
      with (length (concat before) + Z.to_nat j)%nat by lia.
    apply concat_lookup_middle. lia.
  - simpl. replace (Z.to_nat (off + 0))
      with (length (concat before) + 0)%nat by lia.
    apply concat_lookup_middle. lia.
Qed.

(** C7, as the code has it.  A face with [N >= 3] edges yields exactly the
    [N - 2] fan triangles (vertex [j-1], vertex [j], vertex 0), [j] from 2
    to [N - 1], a face with fewer than 3 edges none, and the mesh of a face
    list holds these fans one after another, their number being the sum of
    [N - 2] over the faces with at least 3 edges; [CreateGeometry] never
    stops.  Skip windings with at least 3 points each are triangulated the
    same way over their own copied vertices; a skip winding with fewer
    than 3 points is not skipped: it fails the assertion of
    [CreateGeometryFromWindings], which ends the process. *)
Theorem fan_triangulation (bsp : mbsp_t) (scene : RTCScene)
    (faces : list bsp2_dface_t) (windings : list winding_t) :
  (exists scene' info,
     CreateGeometry bsp scene faces = Ok (scene', info)
     /\ mapped_index_buffer scene' (geomID info)
        = emitted_triangle <$> (face ← faces; face_fan bsp face))
  /\ (forall face : bsp2_dface_t,
        emitted_triangle <$> face_fan bsp face
        = (fun j => {| v0 := Face_VertexAtIndex bsp face (j - 1);
                       v1 := Face_VertexAtIndex bsp face j;
                       v2 := Face_VertexAtIndex bsp face 0 |})
            <$> seqZ 2 (numedges face - 2))
  /\ (forall face : bsp2_dface_t,
        (3 <= numedges face ->
         Z.of_nat (length (face_fan bsp face)) = numedges face - 2)
        /\ (numedges face < 3 -> face_fan bsp face = []))
  /\ Z.of_nat (length (face ← faces; face_fan bsp face))
     = sumZ ((fun face => numedges face - 2)
               <$> filter (fun face => 3 <= numedges face) faces)
  /\ (windings <> [] -> Forall (fun w => 3 <= numpoints w) windings ->
      CreateGeometryFromWindings scene windings
      = Ok (add_mesh scene {| vertex_buffer := concat windings;
                              index_buffer := winding_fans 0 windings |})
      /\ Z.of_nat (length (winding_fans 0 windings))
         = sumZ ((fun w => numpoints w - 2) <$> windings))
  /\ (forall (before after : list winding_t) (w : winding_t) (j : Z),
        windings = before ++ w :: after -> 2 <= j < numpoints w ->
        exists tri : Triangle,
          winding_fans 0 windings
            !! (length (winding_fans 0 before) + Z.to_nat (j - 2))%nat = Some tri
          /\ concat windings !! Z.to_nat (v0 tri) = w !! Z.to_nat (j - 1)
          /\ concat windings !! Z.to_nat (v1 tri) = w !! Z.to_nat j
          /\ concat windings !! Z.to_nat (v2 tri) = w !! 0%nat)
  /\ (Exists (fun w => numpoints w < 3) windings ->
      CreateGeometryFromWindings scene windings = Fatal "winding->numpoints >= 3").
Proof.
  split; [|split; [|split; [|split; [|split; [|split]]]]].
  - eexists _, _. split; [apply CreateGeometry_spec|].
    unfold mapped_index_buffer, add_mesh. cbn [meshes face_sceneinfo geomID].
    rewrite Nat2Z.id, list_lookup_middle by done. reflexivity.
  - intros face. unfold face_fan. rewrite <- list_fmap_compose. reflexivity.
  - intros face. split.
    + intros HN. rewrite face_fan_length. lia.
    + intros HN. unfold face_fan. rewrite seqZ_nil by lia. reflexivity.
  - apply emitted_length.
  - intros Hne Hall. split.
    + by apply CreateGeometryFromWindings_spec.
    + by apply winding_fans_total.
  - intros before after w j -> Hj. by apply winding_triangle_vertices.
  - apply CreateGeometryFromWindings_stops.
Qed.

End FanProofs.

(** The claim of C7 fails for skip windings: a winding of two points does
    not "contribute no triangles" to an otherwise valid list; the build
    stops at the assertion, while a face of two edges is passed over. *)
Lemma fan_triangulation_counterexample :
  let segment : winding_t := [(f0, f0, f0); (f1, f0, f0)] in
  let triangle : winding_t := [(f0, f0, f0); (f1, f0, f0); (f0, f1, f0)] in
  CreateGeometryFromWindings rtcDeviceNewScene [segment; triangle]
    = Fatal "winding->numpoints >= 3"
  /\ CreateGeometryFromWindings rtcDeviceNewScene [triangle]
     = Ok (add_mesh rtcDeviceNewScene (winding_mesh [triangle]))
  /\ CreateGeometryFromWindings rtcDeviceNewScene [segment; triangle]
     <> CreateGeometryFromWindings rtcDeviceNewScene [triangle].
Proof. vm_compute. repeat split; discriminate. Qed.

(** ** The transparency and shadow filter *)

Lemma sample_channel_unit (c : Byte.byte) :
  unit_interval (fmul (float_of_int (byte_val c)) (fdiv (float_of_int 1) f255)) = true.
Proof. destruct c; vm_compute; reflexivity. Qed.

Section FilterProofs.
Context `{Externals}.

Lemma sample_color_unit (sample : color_rgba) :
  vec3_all unit_interval (sample_color sample) = true.
Proof.
  unfold sample_color, VectorScale, vec3_all.
  by rewrite !sample_channel_unit.
Qed.

Lemma filter_lane_policy (ft : filtertype_t) (G : globals) (rsi : ray_source_info)
    (l : lane) (hm : modelinfo_t) :
  valid l = VALID ->
  Embree_LookupModelinfo G (hit_geomID (potentialHit l)) (hit_primID (potentialHit l))
    = Ok (Some hm) ->
  filter_lane ft G rsi l =
    if world_only_rejects hm (self rsi) then Ok (rsi, reject l)
    else if self_only_rejects hm (self rsi) then Ok (rsi, reject l)
    else if switchableshadow hm then
      rsi' ← AddDynamicOccluderToRay rsi (mask (lane_ray l)) (switchshadstyle hm);
      Ok (rsi', reject l)
    else filter_transparency ft G rsi l hm.
Proof.
  intros Hvalid Hlookup. unfold filter_lane.
  rewrite Hvalid, Hlookup. reflexivity.
Qed.

Lemma AddGlassToRay_no_stream (rsi : ray_source_info) (rayIndex : Z)
    (opacity : float) (glasscolor : vec3) :
  raystream rsi = None -> AddGlassToRay rsi rayIndex opacity glasscolor = Ok rsi.
Proof. intros Hrs. unfold AddGlassToRay. by rewrite Hrs. Qed.

Lemma AddGlassToRay_stream (rsi : ray_source_info) (rs : raystream_embree_t)
    (rayIndex : Z) (opacity : float) (sample : color_rgba) (color : vec3) :
  raystream rsi = Some rs ->
  0 <= rayIndex < _numrays rs ->
  _ray_colors rs !! Z.to_nat rayIndex = Some color ->
  AddGlassToRay rsi rayIndex opacity (sample_color sample)
  = Ok (set_raystream rsi
          (set_ray_colors rs
             (<[Z.to_nat rayIndex :=
                  lerp color (vec3_mul color (sample_color sample)) (clamp01 opacity)]>
                (_ray_colors rs)))).
Proof.
  intros Hrs Hidx Hcolor. unfold AddGlassToRay. rewrite Hrs.
  unfold Q_assert. rewrite sample_color_unit.
  destruct (rayIndex <? _numrays rs) eqn:E; [|lia]. cbn [mbind outcome_bind].
  pose proof (lookup_lt_Some _ _ _ Hcolor) as Hlt.
  replace rayIndex with (Z.of_nat (Z.to_nat rayIndex)) at 1 by lia.
  rewrite (array_read_Ok _ _ _ Hcolor). cbn [mbind outcome_bind].
  rewrite array_store_Ok by lia. reflexivity.
Qed.

(** C2, as the code has it.  In the transparency step, a fence-style
    material that is not at the same time glass-style is rejected exactly
    when the sampled texel's alpha is below 255 and is otherwise accepted
    as an opaque hit.  A glass-style material (which in the Quake 1 format
    includes a fence-named texture whose alpha is below 1) is rejected
    whatever the texel; when the ray leaves the surface and a ray stream is
    present, the ray's colour becomes the linear interpolation between its
    colour and colour * glass colour, the weight being the effective alpha
    (texel alpha / 255 when the texel is not fully opaque, else the
    material's alpha) clamped to [0, 1]; without a ray stream, or when the
    ray enters the surface, nothing is changed. *)
Theorem glass_and_fence (ft : filtertype_t) (G : globals) (rsi : ray_source_info)
    (l : lane) (hm : modelinfo_t) (face : bsp2_dface_t)
    (isFence isGlass : bool) (alpha : float) :
  Embree_LookupFace G (hit_geomID (potentialHit l)) (hit_primID (potentialHit l))
    = Ok face ->
  hit_material (bsp_static G) hm face = (isFence, isGlass, alpha) ->
  let sample := SampleTexture face (bsp_static G)
                  (Embree_RayEndpoint (lane_ray l) (potentialHit l)) in
  let exiting := flt (raySurfaceCosAngle (lane_ray l) (potentialHit l)) f0 in
  (isGlass = false -> isFence = true ->
   filter_transparency ft G rsi l hm
   = Ok (rsi, if byte_val (col_a sample) <? 255 then reject l else accept ft l))
  /\ (isGlass = true ->
      (raystream rsi = None \/ exiting = false ->
       filter_transparency ft G rsi l hm = Ok (rsi, reject l))
      /\ (forall (rs : raystream_embree_t) (color : vec3),
            raystream rsi = Some rs -> exiting = true ->
            0 <= mask (lane_ray l) < _numrays rs ->
            _ray_colors rs !! Z.to_nat (mask (lane_ray l)) = Some color ->
            filter_transparency ft G rsi l hm
            = Ok (set_raystream rsi
                    (set_ray_colors rs
                       (<[Z.to_nat (mask (lane_ray l)) :=
                            lerp color (vec3_mul color (sample_color sample))
                                 (clamp01 (glass_alpha sample alpha))]>
                          (_ray_colors rs))),
                  reject l))).
Proof.
  intros Hface Hmat sample exiting. unfold filter_transparency.
  rewrite Hface. cbn [mbind outcome_bind]. rewrite Hmat.
  fold sample. fold exiting. split.
  - intros -> ->. cbn [orb andb].
    destruct (byte_val (col_a sample) <? 255); reflexivity.
  - intros ->. rewrite orb_true_r. split.
    + intros [Hnone|Hin].
      * destruct exiting; [|reflexivity].
        by rewrite AddGlassToRay_no_stream.
      * by rewrite Hin.
    + intros rs color Hrs Hout Hidx Hcolor. rewrite Hout.
      by rewrite (AddGlassToRay_stream rsi rs _ _ _ color).
Qed.

End FilterProofs.

(** On the demonstration map: a white ray leaving red glass of alpha 0.5
    (face 9, primitive 14) is rejected and its colour becomes
    (1, 0.5, 0.5). *)
Lemma glass_and_fence_witness :
  filter_transparency OCCLUSION demo_globals (demo_stream_ctx None) (demo_lane 14)
    demo_redglass
  = Ok (set_raystream (demo_stream_ctx None)
          (set_ray_colors demo_stream [(f1, fhalf, fhalf)]),
        reject (demo_lane 14)).
Proof.
  pose proof (glass_and_fence OCCLUSION demo_globals (demo_stream_ctx None)
                (demo_lane 14) demo_redglass
                {| face_addr := 9; numedges := 4; texinfo := 9 |}
                false true fhalf) as Hthm.
  destruct Hthm as [_ Hglass].
  - vm_compute. reflexivity.
  - vm_compute. reflexivity.
  - destruct (Hglass eq_refl) as [_ Hlerp].
    rewrite (Hlerp demo_stream (f1, f1, f1)).
    + vm_compute. reflexivity.
    + reflexivity.
    + vm_compute. reflexivity.
    + vm_compute. split; [discriminate|reflexivity].
    + reflexivity.
Defined.

(** The claim of C2 fails for a fence texture on a translucent model: on
    the demonstration map the grate (texture "{grate", model alpha 0.5,
    face 4, primitive 4) is fence-style and its texel is fully opaque
    (alpha 255), yet the hit is rejected, not accepted, because the
    material is handled as glass first. *)
Lemma fence_iff_counterexample :
  let face := {| face_addr := 4; numedges := 4; texinfo := 4 |} in
  let sample := SampleTexture face demo_bsp
                  (Embree_RayEndpoint (lane_ray (demo_lane 4))
                     (potentialHit (demo_lane 4))) in
  Embree_LookupFace demo_globals 2 4 = Ok face
  /\ hit_material demo_bsp demo_grate face = (true, true, fhalf)
  /\ byte_val (col_a sample) = 255
  /\ filter_lane OCCLUSION demo_globals (demo_single_ctx None) (demo_lane 4)
     = Ok (demo_single_ctx None, reject (demo_lane 4))
  /\ valid (reject (demo_lane 4)) <> VALID.
Proof. vm_compute. repeat split; discriminate. Qed.

(** ** Point visibility *)

Section QueryProofs.
Context `{Ext : Externals} `{Bk : Backend}.

Lemma FilterFuncN_single (ft : filtertype_t) (G : globals) (rsi : ray_source_info)
    (l : lane) :
  Embree_FilterFuncN ft G rsi [l]
  = ('(rsi', l') ← filter_lane ft G rsi l; Ok (rsi', [l'])).
Proof. simpl. destruct (filter_lane ft G rsi l) as [[rsi' l']|msg]; reflexivity. Qed.

Lemma occluded_step (G : globals) (ctx ctx' : ray_source_info) (ray : RTCRay)
    (hit : RTCHit) (rest : list RTCHit) (l' : lane) :
  has_filter G (hit_geomID hit) = true ->
  filter_lane OCCLUSION G ctx {| valid := VALID; lane_ray := ray; potentialHit := hit |}
    = Ok (ctx', l') ->
  occluded_by G ctx ray (hit :: rest)
  = if valid l' =? VALID then Ok (ctx', lane_ray l')
    else occluded_by G ctx' (lane_ray l') rest.
Proof.
  intros Hfilter Hlane. cbn [occluded_by]. rewrite Hfilter, FilterFuncN_single, Hlane.
  reflexivity.
Qed.

Lemma occluded_step_reject (G : globals) (ctx ctx' : ray_source_info) (ray : RTCRay)
    (hit : RTCHit) (rest : list RTCHit) :
  has_filter G (hit_geomID hit) = true ->
  filter_lane OCCLUSION G ctx {| valid := VALID; lane_ray := ray; potentialHit := hit |}
    = Ok (ctx', reject {| valid := VALID; lane_ray := ray; potentialHit := hit |}) ->
  occluded_by G ctx ray (hit :: rest) = occluded_by G ctx' ray rest.
Proof. intros Hfilter Hlane. by rewrite (occluded_step _ _ _ _ _ _ _ Hfilter Hlane). Qed.

Lemma occluded_step_accept (G : globals) (ctx ctx' : ray_source_info) (ray : RTCRay)
    (hit : RTCHit) (rest : list RTCHit) :
  has_filter G (hit_geomID hit) = true ->
  filter_lane OCCLUSION G ctx {| valid := VALID; lane_ray := ray; potentialHit := hit |}
    = Ok (ctx', accept OCCLUSION {| valid := VALID; lane_ray := ray; potentialHit := hit |}) ->
  occluded_by G ctx ray (hit :: rest) = Ok (ctx', set_ray_geomID ray 0).
Proof. intros Hfilter Hlane. by rewrite (occluded_step _ _ _ _ _ _ _ Hfilter Hlane). Qed.

(** The light test in terms of the occlusion query. *)
Lemma TestLight_unfold (G : globals) (start stop : vec3) (self : modelinfo_ptr) :
  Embree_TestLight G start stop self
  = ('(ctx, ray) ← occluded_by G (new_ray_source_info None self)
                     (SetupRay_StartStop start stop)
                     (rtc_candidates (scene G) (SetupRay_StartStop start stop));
     if negb (ray_geomID ray =? RTC_INVALID_GEOMETRY_ID)
     then Ok {| visible := false; dynamicStyle := 0 |}
     else Ok {| visible := true; dynamicStyle := singleRayShadowStyle ctx |}).
Proof. reflexivity. Qed.

Lemma SetupRay_StartStop_geomID (start stop : vec3) :
  ray_geomID (SetupRay_StartStop start stop) = RTC_INVALID_GEOMETRY_ID.
Proof. unfold SetupRay_StartStop. by destruct (VectorNormalize _). Qed.

(** A switchable-shadow occluder met by a single-ray query is always
    passed, and its style is recorded unless a policy rule rejected the
    hit before. *)
Lemma occluded_switchable (G : globals) (hm : modelinfo_t) (querier : modelinfo_ptr)
    (ray : RTCRay) (candidates : list RTCHit) :
  switchableshadow hm = true ->
  Forall (filtered_hit_on G hm) candidates ->
  forall s : Z,
    occluded_by G {| raystream := None; self := querier; singleRayShadowStyle := s |}
      ray candidates
    = Ok ({| raystream := None; self := querier;
             singleRayShadowStyle :=
               if world_only_rejects hm querier || self_only_rejects hm querier then s
               else match candidates with
                    | [] => s
                    | _ => switchshadstyle hm
                    end |},
          ray).
Proof.
  intros Hsw Hall. induction Hall as [|hit rest [Hfilter Hlookup] _ IH]; intros s.
  - cbn [occluded_by]. by destruct (_ || _).
  - pose proof (filter_lane_policy OCCLUSION G
                  {| raystream := None; self := querier; singleRayShadowStyle := s |}
                  {| valid := VALID; lane_ray := ray; potentialHit := hit |}
                  hm eq_refl Hlookup) as Hlane.
    cbn [self raystream lane_ray mask] in Hlane.
    destruct (world_only_rejects hm querier) eqn:Hw; cbn [orb].
    { rewrite (occluded_step_reject _ _ _ _ _ _ Hfilter Hlane), IH.
      reflexivity. }
    destruct (self_only_rejects hm querier) eqn:Hs; cbn [orb].
    { rewrite (occluded_step_reject _ _ _ _ _ _ Hfilter Hlane), IH.
      reflexivity. }
    rewrite Hsw in Hlane. cbn in Hlane.
    rewrite (occluded_step_reject _ _ _ _ _ _ Hfilter Hlane), IH.
    cbn [orb]. by destruct rest.
Qed.

Lemma AddDynamicOccluderToRay_stream (rsi : ray_source_info)
    (rs : raystream_embree_t) (rayIndex style : Z) :
  raystream rsi = Some rs ->
  0 <= rayIndex < Z.of_nat (length (_ray_dynamic_styles rs)) ->
  AddDynamicOccluderToRay rsi rayIndex style
  = Ok (set_raystream rsi
          (set_ray_dynamic_styles rs
             (<[Z.to_nat rayIndex := style]> (_ray_dynamic_styles rs)))).
Proof.
  intros Hrs Hidx. unfold AddDynamicOccluderToRay. rewrite Hrs.
  by rewrite array_store_Ok.
Qed.

(** C3, as the code has it.  For a switchable-shadow model whose hit is
    not rejected beforehand by the world-only or self-only rule, the filter
    stores the model's style in the ray's dynamic-style slot (of the ray
    stream when there is one, of the single-query accumulator otherwise)
    and rejects the hit.  A light test whose ray meets only that model's
    filtered geometry is never blocked; it reports the model's style when
    the ray meets some of it and neither rule rejects for the querying
    model, and style 0 otherwise. *)
Theorem switchable_shadow_style (G : globals) (hm : modelinfo_t) :
  switchableshadow hm = true ->
  (forall (ft : filtertype_t) (rsi : ray_source_info) (l : lane),
     valid l = VALID ->
     Embree_LookupModelinfo G (hit_geomID (potentialHit l)) (hit_primID (potentialHit l))
       = Ok (Some hm) ->
     world_only_rejects hm (self rsi) = false ->
     self_only_rejects hm (self rsi) = false ->
     (raystream rsi = None ->
      filter_lane ft G rsi l
      = Ok ({| raystream := None; self := self rsi;
               singleRayShadowStyle := switchshadstyle hm |}, reject l))
     /\ (forall rs : raystream_embree_t,
           raystream rsi = Some rs ->
           0 <= mask (lane_ray l) < Z.of_nat (length (_ray_dynamic_styles rs)) ->
           filter_lane ft G rsi l
           = Ok (set_raystream rsi
                   (set_ray_dynamic_styles rs
                      (<[Z.to_nat (mask (lane_ray l)) := switchshadstyle hm]>
                         (_ray_dynamic_styles rs))),
                 reject l)))
  /\ (forall (start stop : vec3) (querier : modelinfo_ptr),
        Forall (filtered_hit_on G hm)
               (rtc_candidates (scene G) (SetupRay_StartStop start stop)) ->
        Embree_TestLight G start stop querier
        = Ok {| visible := true;
                dynamicStyle :=
                  if world_only_rejects hm querier || self_only_rejects hm querier
                  then 0
                  else match rtc_candidates (scene G) (SetupRay_StartStop start stop) with
                       | [] => 0
                       | _ => switchshadstyle hm
                       end |}).
Proof.
  intros Hsw. split.
  - intros ft rsi l Hvalid Hlookup Hw Hs.
    rewrite (filter_lane_policy ft G rsi l hm Hvalid Hlookup), Hw, Hs, Hsw.
    split.
    + intros Hrs. unfold AddDynamicOccluderToRay. by rewrite Hrs.
    + intros rs Hrs Hidx. by rewrite (AddDynamicOccluderToRay_stream rsi rs).
  - intros start stop querier Hall. rewrite TestLight_unfold.
    unfold new_ray_source_info.
    rewrite (occluded_switchable G hm querier _ _ Hsw Hall 0).
    cbn [mbind outcome_bind singleRayShadowStyle].
    by rewrite SetupRay_StartStop_geomID, Z.eqb_refl.
Qed.

(** Hits that the filter rejects without touching the context let the ray
    through. *)
Lemma occluded_all_rejected (G : globals) (ctx : ray_source_info) (ray : RTCRay)
    (candidates : list RTCHit) :
  Forall (fun hit =>
            has_filter G (hit_geomID hit) = true
            /\ filter_lane OCCLUSION G ctx
                 {| valid := VALID; lane_ray := ray; potentialHit := hit |}
               = Ok (ctx, reject {| valid := VALID; lane_ray := ray;
                                    potentialHit := hit |})) candidates ->
  occluded_by G ctx ray candidates = Ok (ctx, ray).
Proof.
  induction 1 as [|hit rest [Hfilter Hlane] _ IH]; [reflexivity|].
  by rewrite (occluded_step_reject _ _ _ _ _ _ Hfilter Hlane).
Qed.

Lemma filter_transparency_opaque (ft : filtertype_t) (G : globals)
    (rsi : ray_source_info) (l : lane) (hm : modelinfo_t) :
  opaque_at G hm (lane_ray l) (potentialHit l) = true ->
  filter_transparency ft G rsi l hm = Ok (rsi, accept ft l).
Proof.
  unfold opaque_at, filter_transparency.
  destruct (Embree_LookupFace G _ _) as [face|msg]; [|discriminate].
  cbn [mbind outcome_bind].
  destruct (hit_material (bsp_static G) hm face) as [[isFence isGlass] alpha].
  destruct isGlass; [discriminate|]. cbn [negb andb]. rewrite orb_false_r.
  destruct isFence; [|reflexivity]. cbn [andb].
  by intros ->%negb_true_iff.
Qed.

(** C4, as the code has it.  The filter rejects a hit on a
    shadow-world-only model when the querying model is absent or not the
    world, and a hit on a shadow-self-only model when the querying model is
    another one.  Hence a light test whose ray meets only filtered geometry
    of a shadow-self-only model is fully visible for any other querying
    model; for the model itself it is blocked, provided the surface met is
    opaque (neither glass nor a cut-out fence texel), the model is not a
    switchable shadow, and the world-only rule does not reject. *)
Theorem shadow_policy (G : globals) (hm : modelinfo_t) :
  (forall (ft : filtertype_t) (rsi : ray_source_info) (l : lane),
     valid l = VALID ->
     Embree_LookupModelinfo G (hit_geomID (potentialHit l)) (hit_primID (potentialHit l))
       = Ok (Some hm) ->
     (shadowworldonly hm = true ->
      (self rsi = None \/ exists src, self rsi = Some src /\ isWorld src = false) ->
      filter_lane ft G rsi l = Ok (rsi, reject l))
     /\ (shadowself hm = true ->
         modelinfo_ptr_eqb (self rsi) (Some hm) = false ->
         filter_lane ft G rsi l = Ok (rsi, reject l)))
  /\ (forall (start stop : vec3) (querier : modelinfo_ptr),
        shadowself hm = true ->
        Forall (filtered_hit_on G hm)
               (rtc_candidates (scene G) (SetupRay_StartStop start stop)) ->
        (modelinfo_ptr_eqb querier (Some hm) = false ->
         Embree_TestLight G start stop querier
         = Ok {| visible := true; dynamicStyle := 0 |})
        /\ (modelinfo_ptr_eqb querier (Some hm) = true ->
            rtc_candidates (scene G) (SetupRay_StartStop start stop) <> [] ->
            world_only_rejects hm querier = false ->
            switchableshadow hm = false ->
            Forall (fun hit => opaque_at G hm (SetupRay_StartStop start stop) hit = true)
                   (rtc_candidates (scene G) (SetupRay_StartStop start stop)) ->
            Embree_TestLight G start stop querier
            = Ok {| visible := false; dynamicStyle := 0 |})).
Proof.
  assert (Hself : forall ft rsi l,
             valid l = VALID ->
             Embree_LookupModelinfo G (hit_geomID (potentialHit l))
               (hit_primID (potentialHit l)) = Ok (Some hm) ->
             shadowself hm = true ->
             modelinfo_ptr_eqb (self rsi) (Some hm) = false ->
             filter_lane ft G rsi l = Ok (rsi, reject l)).
  { intros ft rsi l Hvalid Hlookup Hss Hne.
    rewrite (filter_lane_policy ft G rsi l hm Hvalid Hlookup).
    destruct (world_only_rejects hm (self rsi)); [reflexivity|].
    unfold self_only_rejects. by rewrite Hss, Hne. }
  split.
  - intros ft rsi l Hvalid Hlookup. split.
    + intros Hwo Hsrc.
      rewrite (filter_lane_policy ft G rsi l hm Hvalid Hlookup).
      unfold world_only_rejects. rewrite Hwo.
      destruct Hsrc as [->|(src & -> & ->)]; reflexivity.
    + by apply Hself.
  - intros start stop querier Hss Hall. split.
    + intros Hne. rewrite TestLight_unfold.
      rewrite occluded_all_rejected.
      * cbn [mbind outcome_bind].
        by rewrite SetupRay_StartStop_geomID, Z.eqb_refl.
      * eapply Forall_impl; [exact Hall|]. intros hit [Hfilter Hlookup].
        split; [done|]. by apply Hself.
    + intros Heq Hne Hw Hsw Hopaque. rewrite TestLight_unfold.
      destruct (rtc_candidates (scene G) (SetupRay_StartStop start stop))
        as [|hit rest]; [done|].
      apply Forall_cons in Hall as [[Hfilter Hlookup] _].
      apply Forall_cons in Hopaque as [Hop _].
      rewrite (occluded_step_accept G _ (new_ray_source_info None querier) _ _ _ Hfilter).
      * reflexivity.
      * rewrite (filter_lane_policy OCCLUSION G (new_ray_source_info None querier)
                   {| valid := VALID; lane_ray := SetupRay_StartStop start stop;
                      potentialHit := hit |} hm eq_refl Hlookup).
        cbn [self new_ray_source_info]. rewrite Hw, Hsw.
        unfold self_only_rejects. rewrite Heq, andb_false_r.
        by apply filter_transparency_opaque.
Qed.

(** C10.  The light test reports style 0 whenever the ray is blocked,
    whatever style the filter recorded in the accumulator of the query on
    the way to the blocking hit; the recorded style is reported only with
    [visible = true]. *)
Theorem occluded_discards_style (G : globals) (start stop : vec3)
    (querier : modelinfo_ptr) (result : hitresult_t) :
  Embree_TestLight G start stop querier = Ok result ->
  exists (ctx : ray_source_info) (ray : RTCRay),
    rtcOccluded1Ex G (new_ray_source_info None querier)
      (SetupRay_StartStop start stop) = Ok (ctx, ray)
    /\ (visible result = false -> dynamicStyle result = 0)
    /\ (visible result = true -> dynamicStyle result = singleRayShadowStyle ctx)
    /\ (dynamicStyle result <> 0 -> visible result = true)
    /\ visible result = (ray_geomID ray =? RTC_INVALID_GEOMETRY_ID).
Proof.
  unfold Embree_TestLight.
  destruct (rtcOccluded1Ex G _ _) as [[ctx ray]|msg]; [|discriminate].
  cbn [mbind outcome_bind]. intros Hres. exists ctx, ray. split; [reflexivity|].
  destruct (ray_geomID ray =? RTC_INVALID_GEOMETRY_ID);
    cbn [negb] in Hres; injection Hres as <-; cbn [visible dynamicStyle];
    repeat split; try done.
Qed.

End QueryProofs.

(** On the demonstration map, a ray that meets only the switchable model
    of style 33 (face 6, primitive 8) comes back visible with style 33. *)
Lemma switchable_shadow_style_witness :
  @Embree_TestLight demo_externals (fixed_candidates [demo_hit 8]) demo_globals
    vec3_zero upward None
  = Ok {| visible := true; dynamicStyle := 33 |}.
Proof.
  destruct (@switchable_shadow_style demo_externals (fixed_candidates [demo_hit 8])
              demo_globals demo_switch eq_refl) as [_ Hquery].
  rewrite Hquery.
  - vm_compute. reflexivity.
  - repeat constructor; vm_compute; reflexivity.
Defined.

(** The claim of C3 fails for a switchable-shadow model that is also
    shadow-self-only (style 32, face 3, primitive 2): for a querying model
    other than itself the self-only rule rejects the hit before the style
    is recorded, and the light test reports style 0, not 32. *)
Lemma switchable_shadow_style_counterexample :
  switchableshadow demo_switchself = true
  /\ switchshadstyle demo_switchself = 32
  /\ Embree_LookupModelinfo demo_globals 2 2 = Ok (Some demo_switchself)
  /\ @Embree_TestLight demo_externals (fixed_candidates [demo_hit 2]) demo_globals
       vec3_zero upward None
     = Ok {| visible := true; dynamicStyle := 0 |}
  /\ @Embree_TestLight demo_externals (fixed_candidates [demo_hit 2]) demo_globals
       vec3_zero upward None
     <> Ok {| visible := true; dynamicStyle := switchshadstyle demo_switchself |}.
Proof. vm_compute. repeat split; discriminate. Qed.

(** On the demonstration map, the shadow-self-only wall (face 5,
    primitive 6) lets the light of another model through and blocks the
    light of its own model. *)
Lemma shadow_policy_witness :
  @Embree_TestLight demo_externals (fixed_candidates [demo_hit 6]) demo_globals
    vec3_zero upward (Some demo_world)
  = Ok {| visible := true; dynamicStyle := 0 |}
  /\ @Embree_TestLight demo_externals (fixed_candidates [demo_hit 6]) demo_globals
       vec3_zero upward (Some demo_selfwall)
     = Ok {| visible := false; dynamicStyle := 0 |}.
Proof.
  destruct (@shadow_policy demo_externals (fixed_candidates [demo_hit 6])
              demo_globals demo_selfwall) as [_ Hquery].
  destruct (Hquery vec3_zero upward (Some demo_world)) as [Hother _];
    [reflexivity | repeat constructor; vm_compute; reflexivity |].
  destruct (Hquery vec3_zero upward (Some demo_selfwall)) as [_ Hown];
    [reflexivity | repeat constructor; vm_compute; reflexivity |].
  split.
  - apply Hother. reflexivity.
  - apply Hown.
    + reflexivity.
    + discriminate.
    + reflexivity.
    + reflexivity.
    + repeat constructor; vm_compute; reflexivity.
Defined.

(** The claim of C4 fails for a shadow-self-only model of glass (alpha
    0.5, face 2, primitive 0): the query of the model itself through its
    own geometry is not blocked, because glass never blocks. *)
Lemma shadow_policy_counterexample :
  shadowself demo_selfglass = true
  /\ Embree_LookupModelinfo demo_globals 2 0 = Ok (Some demo_selfglass)
  /\ modelinfo_ptr_eqb (Some demo_selfglass) (Some demo_selfglass) = true
  /\ @Embree_TestLight demo_externals (fixed_candidates [demo_hit 0]) demo_globals
       vec3_zero upward (Some demo_selfglass)
     = Ok {| visible := true; dynamicStyle := 0 |}.
Proof. vm_compute. repeat split; discriminate. Qed.

(** On the demonstration map, a ray that crosses the switchable model of
    style 33 and then meets the world's wall is blocked: the accumulator
    holds 33, the result reports 0. *)
Lemma occluded_discards_style_witness :
  exists (ctx : ray_source_info) (ray : RTCRay),
    @rtcOccluded1Ex demo_externals (fixed_candidates [demo_hit 8; demo_wall_hit])
      demo_globals (new_ray_source_info None None)
      (SetupRay_StartStop vec3_zero upward) = Ok (ctx, ray)
    /\ singleRayShadowStyle ctx = 33
    /\ @Embree_TestLight demo_externals (fixed_candidates [demo_hit 8; demo_wall_hit])
         demo_globals vec3_zero upward None
       = Ok {| visible := false; dynamicStyle := 0 |}.
Proof.
  destruct (@occluded_discards_style demo_externals
              (fixed_candidates [demo_hit 8; demo_wall_hit])
              demo_globals vec3_zero upward None
              {| visible := false; dynamicStyle := 0 |})
    as (ctx & ray & Hocc & _).
  - vm_compute. reflexivity.
  - exists ctx, ray. split; [exact Hocc|]. split.
    + vm_compute in Hocc. injection Hocc as <- _. reflexivity.
    + vm_compute. reflexivity.
Defined.

(** ** The ray stream *)

Section StreamProofs.
Context `{Ext : Externals} `{Bk : Backend}.

(** Case analysis on the first command of a sequence that returned. *)
Ltac bind_cases E :=
  lazymatch goal with
  | |- mbind _ (Q_assert ?b _) = Ok _ -> _ =>
      unfold Q_assert; destruct b eqn:E; cbn [mbind outcome_bind]; [|discriminate]
  | |- mbind _ ?m = Ok _ -> _ =>
      destruct m eqn:E; cbn [mbind outcome_bind]; [|discriminate]
  end.

Lemma AddGlassToRay_shape (ctx ctx' : ray_source_info) (rayIndex : Z)
    (opacity : float) (glasscolor : vec3) :
  AddGlassToRay ctx rayIndex opacity glasscolor = Ok ctx' ->
  ctx_shape ctx' = ctx_shape ctx.
Proof.
  unfold AddGlassToRay, ctx_shape.
  destruct (raystream ctx) as [rs|] eqn:Hrs; [|by intros [= <-]; rewrite Hrs].
  bind_cases E1. bind_cases E2. bind_cases Hread. bind_cases Hstore.
  intros [= <-]. apply array_store_length in Hstore.
  cbn. unfold stream_shape. cbn. by rewrite Hstore.
Qed.

Lemma AddDynamicOccluderToRay_shape (ctx ctx' : ray_source_info) (rayIndex style : Z) :
  AddDynamicOccluderToRay ctx rayIndex style = Ok ctx' ->
  ctx_shape ctx' = ctx_shape ctx.
Proof.
  unfold AddDynamicOccluderToRay, ctx_shape.
  destruct (raystream ctx) as [rs|] eqn:Hrs; [|by intros [= <-]].
  bind_cases Hstore. intros [= <-]. apply array_store_length in Hstore.
  cbn. unfold stream_shape. cbn. by rewrite Hstore.
Qed.

Lemma filter_transparency_shape (ft : filtertype_t) (G : globals)
    (ctx ctx' : ray_source_info) (l l' : lane) (hm : modelinfo_t) :
  filter_transparency ft G ctx l hm = Ok (ctx', l') ->
  ctx_shape ctx' = ctx_shape ctx.
Proof.
  unfold filter_transparency. bind_cases Hface.
  destruct (hit_material _ _ _) as [[isFence isGlass] alpha].
  destruct (isFence || isGlass); [|by intros [= <- _]].
  destruct isGlass.
  - destruct (flt _ _).
    + bind_cases Hglass. intros [= <- _].
      by apply AddGlassToRay_shape in Hglass.
    + cbn [mbind outcome_bind]. by intros [= <- _].
  - destruct (isFence && _); by intros [= <- _].
Qed.

Lemma filter_lane_shape (ft : filtertype_t) (G : globals)
    (ctx ctx' : ray_source_info) (l l' : lane) :
  filter_lane ft G ctx l = Ok (ctx', l') -> ctx_shape ctx' = ctx_shape ctx.
Proof.
  unfold filter_lane.
  destruct (negb _); [by intros [= <- _]|].
  bind_cases Hlookup.
  destruct a as [hm|]; [|by intros [= <- _]].
  destruct (world_only_rejects _ _); [by intros [= <- _]|].
  destruct (self_only_rejects _ _); [by intros [= <- _]|].
  destruct (switchableshadow hm).
  - bind_cases Hdyn. intros [= <- _].
    by apply AddDynamicOccluderToRay_shape in Hdyn.
  - apply filter_transparency_shape.
Qed.

Lemma FilterFuncN_shape (ft : filtertype_t) (G : globals) (lanes : list lane) :
  forall (ctx ctx' : ray_source_info) (lanes' : list lane),
    Embree_FilterFuncN ft G ctx lanes = Ok (ctx', lanes') ->
    ctx_shape ctx' = ctx_shape ctx.
Proof.
  induction lanes as [|l lanes IH]; intros ctx ctx' lanes'; cbn [Embree_FilterFuncN].
  - by intros [= <- _].
  - bind_cases Hlane. destruct a as [ctx1 l1].
    bind_cases Hrest. destruct a as [ctx2 rest].
    intros [= <- _].
    rewrite (IH _ _ _ Hrest). by apply filter_lane_shape in Hlane.
Qed.

Lemma occluded_by_shape (G : globals) (candidates : list RTCHit) :
  forall (ctx ctx' : ray_source_info) (ray ray' : RTCRay),
    occluded_by G ctx ray candidates = Ok (ctx', ray') ->
    ctx_shape ctx' = ctx_shape ctx.
Proof.
  induction candidates as [|hit rest IH]; intros ctx ctx' ray ray'; cbn [occluded_by].
  - by intros [= <- _].
  - destruct (has_filter G _); [|by intros [= <- _]].
    bind_cases Hfilter. destruct a as [ctx1 lanes].
    apply FilterFuncN_shape in Hfilter.
    destruct lanes as [|l [|l2 lanes]]; [discriminate| |discriminate].
    destruct (valid l =? VALID).
    + intros [= <- _]. done.
    + intros Hrest. rewrite (IH _ _ _ _ Hrest). done.
Qed.

Lemma intersected_by_shape (G : globals) (candidates : list RTCHit) :
  forall (ctx ctx' : ray_source_info) (ray ray' : RTCRay),
    intersected_by G ctx ray candidates = Ok (ctx', ray') ->
    ctx_shape ctx' = ctx_shape ctx.
Proof.
  induction candidates as [|hit rest IH]; intros ctx ctx' ray ray';
    cbn [intersected_by].
  - by intros [= <- _].
  - destruct (negb _); [apply IH|].
    destruct (has_filter G _); [|apply IH].
    bind_cases Hfilter. destruct a as [ctx1 lanes].
    apply FilterFuncN_shape in Hfilter.
    destruct lanes as [|l [|l2 lanes]]; [discriminate| |discriminate].
    intros Hrest. rewrite (IH _ _ _ _ Hrest). done.
Qed.

(** Tracing with a query that keeps the shape of the stream keeps it. *)
Section Tracing.
Variable query : globals -> ray_source_info -> RTCRay ->
                 outcome (ray_source_info * RTCRay).
Hypothesis query_shape :
  forall G ctx ctx' ray ray',
    query G ctx ray = Ok (ctx', ray') -> ctx_shape ctx' = ctx_shape ctx.

Lemma trace_pushed_shape (G : globals) (ctx ctx' : ray_source_info) (i : Z) :
  trace_pushed query G ctx i = Ok ctx' -> ctx_shape ctx' = ctx_shape ctx.
Proof.
  unfold trace_pushed.
  destruct (raystream ctx) as [rs|] eqn:Hrs; [|discriminate].
  bind_cases Hread. bind_cases Hq. destruct a0 as [ctx1 ray1].
  apply query_shape in Hq.
  destruct (raystream ctx1) as [rs1|] eqn:Hrs1; [|discriminate].
  bind_cases Hstore. intros [= <-].
  apply array_store_length in Hstore.
  rewrite <- Hq. unfold ctx_shape. rewrite Hrs1. cbn. unfold stream_shape. cbn.
  by rewrite Hstore.
Qed.

Lemma trace_loop_shape (G : globals) (indices : list Z) :
  forall ctx ctx' : ray_source_info,
    foldM (trace_pushed query G) indices ctx = Ok ctx' ->
    ctx_shape ctx' = ctx_shape ctx.
Proof.
  induction indices as [|i indices IH]; intros ctx ctx'; cbn [foldM].
  - by intros [= <-].
  - bind_cases Hstep. intros Hrest.
    rewrite (IH _ _ Hrest). by apply trace_pushed_shape in Hstep.
Qed.

Lemma trace_all_shape (G : globals) (querier : modelinfo_ptr)
    (rs rs' : raystream_embree_t) :
  trace_all query G querier rs = Ok rs' -> stream_shape rs' = stream_shape rs.
Proof.
  unfold trace_all. destruct (_numrays rs =? 0); [by intros [= <-]|].
  bind_cases Hloop. apply trace_loop_shape in Hloop.
  destruct (raystream a) as [rs1|] eqn:Hrs1; [|discriminate].
  intros [= <-]. unfold ctx_shape in Hloop. rewrite Hrs1 in Hloop.
  change (Some (stream_shape rs1) = Some (stream_shape rs)) in Hloop.
  congruence.
Qed.

End Tracing.

Lemma stream_ok_shape (rs rs' : raystream_embree_t) :
  stream_shape rs' = stream_shape rs -> stream_ok rs -> stream_ok rs'.
Proof.
  unfold stream_ok. intros Hshape [Hcount Harrays].
  assert (_numrays rs' = _numrays rs /\ _maxrays rs' = _maxrays rs) as [-> ->]
    by (unfold stream_shape in Hshape; by injection Hshape).
  by rewrite Hshape.
Qed.

Lemma rtcOccluded1Ex_shape (G : globals) (ctx ctx' : ray_source_info)
    (ray ray' : RTCRay) :
  rtcOccluded1Ex G ctx ray = Ok (ctx', ray') -> ctx_shape ctx' = ctx_shape ctx.
Proof. apply occluded_by_shape. Qed.

Lemma rtcIntersect1Ex_shape (G : globals) (ctx ctx' : ray_source_info)
    (ray ray' : RTCRay) :
  rtcIntersect1Ex G ctx ray = Ok (ctx', ray') -> ctx_shape ctx' = ctx_shape ctx.
Proof. apply intersected_by_shape. Qed.

Lemma MakeRayStream_ok (fresh : uninitialised) (maxRays : Z)
    (rs : raystream_embree_t) :
  Embree_MakeRayStream fresh maxRays = Ok rs ->
  stream_ok rs /\ _numrays rs = 0 /\ _maxrays rs = maxRays.
Proof.
  unfold Embree_MakeRayStream. destruct (maxRays <? 0) eqn:E; [discriminate|].
  intros [= <-]. unfold stream_ok, stream_shape. cbn.
  rewrite !length_fmap, !length_seq, !length_replicate. repeat split; lia.
Qed.

Lemma pushRay_full (rs : raystream_embree_t) (i : Z) (origin dir : vec3)
    (dist : float) (color normalcontrib : option vec3) :
  _numrays rs = _maxrays rs ->
  pushRay rs i origin dir dist color normalcontrib = Fatal "_numrays<_maxrays".
Proof.
  intros Hfull. unfold pushRay, Q_assert.
  destruct (_numrays rs <? _maxrays rs) eqn:E; [lia|reflexivity].
Qed.

Lemma pushRay_Ok (rs : raystream_embree_t) (i : Z) (origin dir : vec3)
    (dist : float) (color normalcontrib : option vec3) :
  stream_ok rs -> _numrays rs < _maxrays rs ->
  exists rs', pushRay rs i origin dir dist color normalcontrib = Ok rs'
              /\ _numrays rs' = _numrays rs + 1.
Proof.
  intros [Hcount Harrays] Hroom. unfold stream_shape in Harrays.
  cbn in Harrays. injection Harrays as H1 H2 H3 H4 H5 H6.
  unfold pushRay, Q_assert.
  destruct (_numrays rs <? _maxrays rs) eqn:E; [|lia]. cbn [mbind outcome_bind].
  rewrite !array_store_Ok by lia. cbn [mbind outcome_bind].
  destruct color, normalcontrib; rewrite ?array_store_Ok by lia;
    cbn [mbind outcome_bind]; eexists; split; reflexivity.
Qed.

Lemma pushRay_inv (rs rs' : raystream_embree_t) (i : Z) (origin dir : vec3)
    (dist : float) (color normalcontrib : option vec3) :
  pushRay rs i origin dir dist color normalcontrib = Ok rs' ->
  _numrays rs < _maxrays rs
  /\ stream_shape rs' = (_numrays rs + 1, _maxrays rs, snd (stream_shape rs)).
Proof.
  unfold pushRay. bind_cases Hroom. bind_cases H1. bind_cases H2. bind_cases H3.
  bind_cases H4. bind_cases H5. bind_cases H6. intros [= <-].
  apply array_store_length in H1, H2, H3, H6.
  assert (length a2 = length (_ray_colors rs)) as Hc.
  { destruct color; [by apply array_store_length in H4|by injection H4 as <-]. }
  assert (length a3 = length (_ray_normalcontribs rs)) as Hn.
  { destruct normalcontrib; [by apply array_store_length in H5|by injection H5 as <-]. }
  split; [lia|]. unfold stream_shape. cbn. by rewrite H1, H2, H3, H6, Hc, Hn.
Qed.

Lemma run_op_invariant (G : globals) (rs rs' : raystream_embree_t) (op : stream_op) :
  stream_ok rs -> run_op G rs op = Ok rs' ->
  stream_ok rs'
  /\ _maxrays rs' = _maxrays rs
  /\ _numrays rs' = match op with
                    | OpPushRay _ _ _ _ _ _ => _numrays rs + 1
                    | OpClear => 0
                    | _ => _numrays rs
                    end.
Proof.
  intros Hok Hrun. destruct op; cbn [run_op] in Hrun.
  - apply pushRay_inv in Hrun as [Hroom Hshape].
    destruct Hok as [Hcount Harrays].
    assert (_numrays rs' = _numrays rs + 1 /\ _maxrays rs' = _maxrays rs) as [Hn Hm]
      by (unfold stream_shape in Hshape; by injection Hshape).
    unfold stream_ok. rewrite Hshape, Hn, Hm. cbn [snd]. repeat split; (lia || done).
  - apply (trace_all_shape _ rtcOccluded1Ex_shape) in Hrun.
    split; [by apply (stream_ok_shape rs)|].
    unfold stream_shape in Hrun. by injection Hrun.
  - apply (trace_all_shape _ rtcIntersect1Ex_shape) in Hrun.
    split; [by apply (stream_ok_shape rs)|].
    unfold stream_shape in Hrun. by injection Hrun.
  - injection Hrun as <-. destruct Hok as [Hcount Harrays].
    unfold stream_ok. cbn. repeat split; (lia || done).
Qed.

(** C9.  For every ray stream the number of pushed rays stays within the
    capacity fixed at construction: pushing when the count equals the
    capacity fails the assertion; a push that returns adds exactly one;
    tracing leaves the count as it is; clearing sets it to zero and keeps
    the capacity and the arrays; so [0 <= count <= capacity], with the
    capacity unchanged, holds after any sequence of operations on a
    constructed stream, whatever the arrays that the constructor does not
    initialise held. *)
Theorem raystream_count_invariant (G : globals) :
  (forall (fresh : uninitialised) (maxRays : Z) (rs : raystream_embree_t),
     Embree_MakeRayStream fresh maxRays = Ok rs ->
     stream_ok rs /\ _numrays rs = 0 /\ _maxrays rs = maxRays)
  /\ (forall (rs : raystream_embree_t) i origin dir dist color normalcontrib,
        _numrays rs = _maxrays rs ->
        pushRay rs i origin dir dist color normalcontrib = Fatal "_numrays<_maxrays")
  /\ (forall (rs : raystream_embree_t) i origin dir dist color normalcontrib,
        stream_ok rs -> _numrays rs < _maxrays rs ->
        exists rs', pushRay rs i origin dir dist color normalcontrib = Ok rs'
                    /\ _numrays rs' = _numrays rs + 1)
  /\ (forall rs : raystream_embree_t,
        _numrays (clearPushedRays rs) = 0
        /\ _maxrays (clearPushedRays rs) = _maxrays rs
        /\ snd (stream_shape (clearPushedRays rs)) = snd (stream_shape rs))
  /\ (forall (rs rs' : raystream_embree_t) (op : stream_op),
        stream_ok rs -> run_op G rs op = Ok rs' ->
        stream_ok rs'
        /\ _maxrays rs' = _maxrays rs
        /\ _numrays rs' = match op with
                          | OpPushRay _ _ _ _ _ _ => _numrays rs + 1
                          | OpClear => 0
                          | _ => _numrays rs
                          end)
  /\ (forall (fresh : uninitialised) (maxRays : Z) (rs0 rs : raystream_embree_t)
             (ops : list stream_op),
        Embree_MakeRayStream fresh maxRays = Ok rs0 ->
        foldM (run_op G) ops rs0 = Ok rs ->
        0 <= _numrays rs <= _maxrays rs /\ _maxrays rs = maxRays).
Proof.
  split; [apply MakeRayStream_ok|].
  split; [apply pushRay_full|].
  split; [apply pushRay_Ok|].
  split; [intros rs; by repeat split|].
  split; [apply run_op_invariant|].
  intros fresh maxRays rs0 rs ops Hmake Hops.
  apply MakeRayStream_ok in Hmake as (Hok & _ & Hcap).
  revert rs0 Hok Hcap Hops. induction ops as [|op ops IH]; intros rs0 Hok Hcap.
  - intros [= <-]. destruct Hok as [Hcount _]. done.
  - cbn [foldM]. bind_cases Hop. intros Hrest.
    apply (run_op_invariant G rs0 _ op Hok) in Hop as (Hok' & Hcap' & _).
    apply (IH _ Hok'); [congruence|done].
Qed.

End StreamProofs.

(** On the demonstration map: a stream of capacity 2 takes two rays, the
    first of them white and leaving the red glass; a third push fails;
    tracing tints the rays and keeps the count; clearing empties the
    stream, which then takes rays again. *)
Lemma raystream_count_invariant_witness :
  Embree_MakeRayStream stale_memory 2 = Ok demo_empty
  /\ foldM (@run_op demo_externals demo_backend demo_globals)
        [demo_push; demo_push] demo_empty = Ok demo_full
  /\ _numrays demo_full = 2
  /\ @run_op demo_externals demo_backend demo_globals demo_full demo_push
     = Fatal "_numrays<_maxrays"
  /\ @run_op demo_externals demo_backend demo_globals demo_full (OpTraceOcclusion None)
     = Ok demo_traced
  /\ _numrays demo_traced = 2
  /\ _ray_colors demo_traced !! 0%nat = Some (f1, fhalf, fhalf)
  /\ (0 <= _numrays demo_reused <= _maxrays demo_reused /\ _maxrays demo_reused = 2).
Proof.
  pose proof (@raystream_count_invariant demo_externals demo_backend demo_globals)
    as (_ & _ & _ & _ & _ & Hseq).
  repeat split; try (vm_compute; reflexivity);
    apply (Hseq stale_memory 2 demo_empty demo_reused
             [demo_push; demo_push; OpTraceOcclusion None; OpClear; demo_push]);
    vm_compute; reflexivity.
Defined.

(** ** Faces of a solid leaf *)

Section LeafProofs.
Context `{Pl : Polylib}.

Lemma clip_by_others_chain (i : nat) (l : list plane_t) :
  forall (j : nat) (w : winding),
    clip_by_others i j l w
    = clip_chain w (if decide (j <= i)%nat then delete (i - j)%nat l else l).
Proof.
  induction l as [|plane2 rest IH]; intros j w.
  - cbn. by case_decide.
  - cbn [clip_by_others]. destruct (Nat.eqb j i) eqn:E.
    + apply Nat.eqb_eq in E. subst j. rewrite IH.
      rewrite decide_False by lia. rewrite decide_True by lia.
      by rewrite Nat.sub_diag.
    + apply Nat.eqb_neq in E. case_decide as Hle.
      * replace (i - j)%nat with (S (i - S j)) by lia. cbn [delete list_delete clip_chain].
        destruct (fst (ClipWinding w (normal plane2) (dist plane2))) as [front|];
          [|done].
        rewrite IH. by rewrite decide_True by lia.
      * cbn [clip_chain].
        destruct (fst (ClipWinding w (normal plane2) (dist plane2))) as [front|];
          [|done].
        rewrite IH. by rewrite decide_False by lia.
Qed.

Lemma Leaf_MakeFaces_loop_cons (planes : list plane_t) (i : nat) (plane : plane_t)
    (rest : list plane_t) (result : list winding) :
  Leaf_MakeFaces_loop planes i (plane :: rest) result
  = match leaf_polygon planes i plane with
    | None => Leaf_MakeFaces_loop planes (S i) rest result
    | Some w => Leaf_MakeFaces_loop planes (S i) rest (result ++ [w])
    end.
Proof.
  cbn [Leaf_MakeFaces_loop normal dist].
  rewrite clip_by_others_chain, decide_True by lia.
  rewrite Nat.sub_0_r. reflexivity.
Qed.

Lemma Leaf_MakeFaces_loop_spec (planes : list plane_t) (todo : list plane_t) :
  forall (i : nat) (result : list winding),
    Leaf_MakeFaces_loop planes i todo result
    = result ++ omap id (imap (fun k plane => leaf_polygon planes (i + k) plane) todo).
Proof.
  induction todo as [|plane rest IH]; intros i result.
  - cbn. by rewrite app_nil_r.
  - rewrite Leaf_MakeFaces_loop_cons. cbn [imap omap]. rewrite Nat.add_0_r.
    assert (Hshift : imap ((fun k plane0 => leaf_polygon planes (i + k) plane0) ∘ S) rest
                     = imap (fun k plane0 => leaf_polygon planes (S i + k) plane0) rest).
    { apply imap_ext. intros k x _. cbn. f_equal. lia. }
    rewrite Hshift.
    destruct (leaf_polygon planes i plane) as [w|]; rewrite IH; cbn [id].
    + by rewrite <- app_assoc.
    + done.
Qed.

Lemma Leaf_MakeFaces_spec (bsp : mbsp_t) (leaf : mleaf_t) (planes : list plane_t) :
  Leaf_MakeFaces bsp leaf planes = omap id (imap (leaf_polygon planes) planes).
Proof. unfold Leaf_MakeFaces. by rewrite Leaf_MakeFaces_loop_spec. Qed.

Lemma omap_imap_cons {A B} (f : nat -> A -> option B) (x : A) (l : list A) :
  omap id (imap f (x :: l))
  = match f 0%nat x with
    | Some y => y :: omap id (imap (f ∘ S) l)
    | None => omap id (imap (f ∘ S) l)
    end.
Proof. reflexivity. Qed.

Lemma omap_imap_length {A B} (f : nat -> A -> option B) (l : list A) :
  (length (omap id (imap f l)) <= length l)%nat.
Proof.
  revert f. induction l as [|x l IH]; intros f; [done|].
  rewrite omap_imap_cons. specialize (IH (f ∘ S)).
  destruct (f 0%nat x); cbn [length]; lia.
Qed.

Lemma omap_imap_all {A B} (f : nat -> A -> option B) (l : list A) :
  (forall i x, l !! i = Some x -> is_Some (f i x)) ->
  length (omap id (imap f l)) = length l.
Proof.
  revert f. induction l as [|x l IH]; intros f Hall; [done|].
  rewrite omap_imap_cons. destruct (Hall 0%nat x eq_refl) as [y ->]. cbn [length].
  f_equal. apply IH. intros i z Hi. apply (Hall (S i) z Hi).
Qed.

Lemma omap_imap_none {A B} (f : nat -> A -> option B) (l : list A) :
  (forall i x, l !! i = Some x -> f i x = None) ->
  omap id (imap f l) = [].
Proof.
  revert f. induction l as [|x l IH]; intros f Hall; [done|].
  rewrite omap_imap_cons, (Hall 0%nat x eq_refl).
  apply IH. intros i z Hi. apply (Hall (S i) z Hi).
Qed.

Lemma omap_imap_lookup {A B} (f : nat -> A -> option B) (l : list A) :
  (forall i x, l !! i = Some x -> is_Some (f i x)) ->
  forall i y, omap id (imap f l) !! i = Some y ->
              exists x, l !! i = Some x /\ f i x = Some y.
Proof.
  revert f. induction l as [|x l IH]; intros f Hall i y; [done|].
  rewrite omap_imap_cons. destruct (Hall 0%nat x eq_refl) as [y0 Hy0]. rewrite Hy0.
  destruct i as [|i]; cbn.
  - intros [= <-]. by exists x.
  - intros Hi. apply (IH (f ∘ S)); [|done].
    intros k z Hk. apply (Hall (S k) z Hk).
Qed.

Lemma Forall_delete_inv {A} (P : A -> Prop) (l : list A) (i : nat) (x : A) :
  l !! i = Some x -> P x -> Forall P (delete i l) -> Forall P l.
Proof.
  intros Hi Hx Hdel. apply Forall_lookup. intros j y Hj.
  destruct (Nat.lt_trichotomy j i) as [Hlt|[->|Hgt]].
  - apply (Forall_lookup_1 _ _ j y Hdel). by rewrite list_lookup_delete_lt.
  - congruence.
  - destruct j as [|j]; [lia|].
    apply (Forall_lookup_1 _ _ j y Hdel). by rewrite list_lookup_delete_ge by lia.
Qed.

Lemma Forall_delete_others {A} (P : A -> Prop) (l : list A) (i : nat) :
  (forall j y, l !! j = Some y -> j <> i -> P y) -> Forall P (delete i l).
Proof.
  intros Hall. apply Forall_lookup. intros j y Hj.
  destruct (decide (j < i)%nat) as [Hlt|Hge].
  - rewrite list_lookup_delete_lt in Hj by done. apply (Hall j y Hj). lia.
  - rewrite list_lookup_delete_ge in Hj by lia. apply (Hall (S j) y Hj). lia.
Qed.

End LeafProofs.

(** *** Exact geometry *)

Lemma shr_shl23 (m : positive) :
  SpecFloat.iter_pos shr_1 23
    {| shr_m := Z.pos (shl23 m); shr_r := false; shr_s := false |}
  = {| shr_m := Z.pos m; shr_r := false; shr_s := false |}.
Proof. reflexivity. Qed.

(** Multiplying a float by -1 only flips its sign. *)
Lemma fmul_minus_one (x : float) :
  valid_binary f32_prec f32_emax x = true ->
  fmul x (float_of_int (-1)) = SFopp x.
Proof.
  destruct x as [s|s| |s m e]; try reflexivity.
  unfold valid_binary, bounded, canonical_mantissa. intros [Hcan Hbound]%andb_prop.
  apply Z.eqb_eq in Hcan.
  change (float_of_int (-1)) with (S754_finite true 8388608 (-23)).
  unfold fmul, SFmul, SFopp.
  rewrite Pos.mul_comm. change (8388608 * m)%positive with (shl23 m).
  unfold binary_round_aux, shr_fexp.
  cbn [Zdigits2 shr_record_of_loc].
  assert (Hd : Z.pos (digits2_pos (shl23 m)) = Z.pos (digits2_pos m) + 23).
  { unfold shl23. cbn [digits2_pos]. lia. }
  rewrite Hd.
  replace (fexp f32_prec f32_emax (Z.pos (digits2_pos m) + 23 + (e + -23)) - (e + -23))
    with 23.
  2:{ replace (Z.pos (digits2_pos m) + 23 + (e + -23))
        with (Z.pos (digits2_pos m) + e) by lia.
      rewrite Hcan. lia. }
  cbn [shr]. rewrite shr_shl23.
  cbn [shr_m loc_of_shr_record round_nearest_even Zdigits2].
  replace (e + -23 + 23) with e by lia. rewrite Hcan, Z.sub_diag.
  cbn [shr shr_m]. rewrite Hbound.
  by destruct s.
Qed.

Lemma Q_of_float_opp (x : float) : (Q_of_float (SFopp x) == - Q_of_float x)%Q.
Proof. destruct x as [s|s| |[] m e]; cbn [SFopp Q_of_float negb]; ring. Qed.

Lemma plane_side_flip (n : vec3) (d : float) (pt : point) :
  vec3_all (valid_binary f32_prec f32_emax) n = true ->
  (plane_side (VectorScale n (float_of_int (-1))) (SFopp d) pt
   == - plane_side n d pt)%Q.
Proof.
  destruct n as [[n0 n1] n2], pt as [[x y] z]. unfold vec3_all.
  intros [[H0 H1]%andb_prop H2]%andb_prop.
  unfold VectorScale, plane_side. rewrite !fmul_minus_one by done.
  rewrite !Q_of_float_opp. ring.
Qed.

Lemma flipped_base_covers (pl : plane_t) (pt : point) :
  plane_valid pl ->
  @flipped_base ideal_polylib pl pt <-> on_boundary pl pt.
Proof.
  intros Hvalid. unfold flipped_base, on_boundary. cbn [BaseWindingForPlane ideal_polylib].
  unfold ideal_base. rewrite plane_side_flip by done. split; intros Hs; lra.
Qed.

Lemma ideal_front_Some (w front : @winding ideal_polylib) (n : vec3) (d : float) :
  fst (@ClipWinding ideal_polylib w n d) = Some front ->
  (exists pt, w pt /\ (0 < plane_side n d pt)%Q)
  /\ front = (fun pt => w pt /\ (0 <= plane_side n d pt)%Q).
Proof.
  cbn [ClipWinding ideal_polylib]. unfold ideal_clip. cbn [fst].
  destruct (excluded_middle_informative _) as [Hex|Hno]; [|discriminate].
  intros [= <-]. done.
Qed.

Lemma ideal_front_found (w : @winding ideal_polylib) (n : vec3) (d : float)
    (pt : point) :
  w pt -> (0 < plane_side n d pt)%Q ->
  fst (@ClipWinding ideal_polylib w n d)
  = Some (fun pt => w pt /\ (0 <= plane_side n d pt)%Q).
Proof.
  intros Hw Hfront. cbn [ClipWinding ideal_polylib]. unfold ideal_clip. cbn [fst].
  destruct (excluded_middle_informative _) as [Hex|Hno]; [done|].
  destruct Hno. by exists pt.
Qed.

Lemma chain_covers (others : list plane_t) :
  forall w w' : @winding ideal_polylib,
    @clip_chain ideal_polylib w others = Some w' ->
    forall pt, w' pt <-> w pt /\ Forall (fun o => inside o pt) others.
Proof.
  induction others as [|o others IH]; intros w w'; cbn [clip_chain].
  - intros [= <-] pt. split; [by intros ?; split|by intros [? _]].
  - destruct (fst (ClipWinding w (normal o) (dist o))) as [front|] eqn:Hclip;
      [|discriminate].
    apply ideal_front_Some in Hclip as [_ ->]. intros Hchain pt.
    rewrite (IH _ _ Hchain pt), Forall_cons. unfold inside. tauto.
Qed.

Lemma chain_success (others : list plane_t) :
  forall (w : @winding ideal_polylib) (pt : point),
    w pt -> Forall (fun o => strictly_inside o pt) others ->
    exists w', @clip_chain ideal_polylib w others = Some w' /\ w' pt.
Proof.
  induction others as [|o others IH]; intros w pt Hw Hall; cbn [clip_chain].
  - by exists w.
  - apply Forall_cons in Hall as [Ho Hall].
    rewrite (ideal_front_found w _ _ pt Hw Ho).
    apply IH; [|done]. split; [done|]. unfold strictly_inside in Ho. lra.
Qed.

Lemma chain_nonempty (others : list plane_t) :
  forall w w' : @winding ideal_polylib,
    @clip_chain ideal_polylib w others = Some w' ->
    (exists pt, w pt) -> exists pt, w' pt.
Proof.
  induction others as [|o others IH]; intros w w'; cbn [clip_chain].
  - by intros [= <-].
  - destruct (fst (ClipWinding w (normal o) (dist o))) as [front|] eqn:Hclip;
      [|discriminate].
    apply ideal_front_Some in Hclip as [(pt & Hw & Hfront) ->].
    intros Hchain _. apply (IH _ _ Hchain). exists pt. split; [done|lra].
Qed.

(** C8.  [Leaf_MakeFaces] builds, for each of the [k] planes in turn, at
    most one polygon: the base winding of the flipped plane clipped by
    every other plane of the list, front part kept; when a clip leaves no
    front part nothing is added for that plane, and nothing fails.  Over
    exact geometry the result therefore has exactly [k] polygons, each
    with a point of its plane strictly inside all other planes, when no
    plane is redundant, and no polygon at all when no point lies inside
    all the planes. *)
Theorem Leaf_MakeFaces_polygons (bsp : mbsp_t) (leaf : mleaf_t)
    (planes : list plane_t) :
  (forall Pl : Polylib,
     @Leaf_MakeFaces Pl bsp leaf planes
     = omap id (imap (@leaf_polygon Pl planes) planes)
     /\ (length (@Leaf_MakeFaces Pl bsp leaf planes) <= length planes)%nat)
  /\ (Forall plane_valid planes -> irredundant planes ->
      length (@Leaf_MakeFaces ideal_polylib bsp leaf planes) = length planes
      /\ forall (i : nat) (w : ideal_polygon),
           @Leaf_MakeFaces ideal_polylib bsp leaf planes !! i = Some w ->
           exists pl pt, planes !! i = Some pl
                         /\ irredundant_at planes i pl pt /\ w pt)
  /\ (Forall plane_valid planes -> Forall proper_plane planes ->
      empty_leaf planes ->
      @Leaf_MakeFaces ideal_polylib bsp leaf planes = []).
Proof.
  split; [|split].
  - intros Pl. split; [apply Leaf_MakeFaces_spec|].
    rewrite Leaf_MakeFaces_spec. apply omap_imap_length.
  - intros Hvalid Hirr.
    assert (Hface : forall i pl, planes !! i = Some pl ->
              exists w pt, @leaf_polygon ideal_polylib planes i pl = Some w
                           /\ irredundant_at planes i pl pt /\ w pt).
    { intros i pl Hi. destruct (Hirr i pl Hi) as (pt & Hpt).
      destruct Hpt as [Hon Hothers] eqn:E.
      destruct (chain_success (delete i planes) (@flipped_base ideal_polylib pl) pt)
        as (w & Hw & Hin).
      - apply flipped_base_covers; [|done].
        apply (Forall_lookup_1 _ _ _ _ Hvalid Hi).
      - by apply Forall_delete_others.
      - by exists w, pt. }
    rewrite Leaf_MakeFaces_spec. split.
    + apply omap_imap_all. intros i pl Hi.
      destruct (Hface i pl Hi) as (w & _ & Hw & _). by exists w.
    + intros i w Hi.
      apply omap_imap_lookup in Hi as (pl & Hpl & Hw).
      * destruct (Hface i pl Hpl) as (w' & pt & Hw' & Hpt & Hin).
        exists pl, pt. split; [done|]. split; [done|]. congruence.
      * intros k pl Hk. destruct (Hface k pl Hk) as (w' & _ & Hw' & _). by exists w'.
  - intros Hvalid Hproper Hempty. rewrite Leaf_MakeFaces_spec.
    apply omap_imap_none. intros i pl Hi.
    destruct (@leaf_polygon ideal_polylib planes i pl) as [w|] eqn:Hw; [|done].
    exfalso. unfold leaf_polygon in Hw.
    pose proof (Forall_lookup_1 _ _ _ _ Hvalid Hi) as Hv.
    destruct (Forall_lookup_1 _ _ _ _ Hproper Hi) as (pt0 & Hpt0).
    destruct (chain_nonempty _ _ _ Hw) as (pt & Hpt).
    { exists pt0. by apply flipped_base_covers. }
    apply (chain_covers _ _ _ Hw) in Hpt as [Hbase Hothers].
    apply flipped_base_covers in Hbase; [|done].
    apply (Hempty pt). apply (Forall_delete_inv _ _ i pl Hi); [|done].
    unfold inside, on_boundary in *. lra.
Qed.

Lemma cube_planes_valid : Forall plane_valid cube_planes.
Proof. repeat constructor. Qed.

Lemma cube_planes_irredundant : irredundant cube_planes.
Proof.
  intros i pl Hi.
  destruct (cube_face_centers !! i) as [pt|] eqn:Hpt.
  - exists pt.
    do 6 (destruct i as [|i];
          [injection Hi as <-; injection Hpt as <-; split;
           [reflexivity|];
           intros j other Hj Hne;
           do 6 (destruct j as [|j];
                 [first [done | injection Hj as <-; reflexivity]|]);
           discriminate|]).
    discriminate.
  - do 6 (destruct i as [|i]; [discriminate|]). discriminate.
Qed.

Lemma contrary_planes_empty : empty_leaf contrary_planes.
Proof.
  intros [[x y] z] Hall.
  apply Forall_cons in Hall as [H1 Hall]. apply Forall_cons in Hall as [H2 _].
  unfold inside, plane_side, axis_plane in H1, H2. cbn [normal dist] in H1, H2.
  change (Q_of_float (float_of_int 1)) with (8388608 # 8388608)%Q in *.
  change (Q_of_float (float_of_int (-1))) with (-8388608 # 8388608)%Q in *.
  change (Q_of_float (float_of_int 0)) with 0%Q in *.
  lra.
Qed.

(** The six planes of the unit cube give six polygons; the half-spaces
    [x >= 1] and [x <= 0] give none. *)
Lemma Leaf_MakeFaces_polygons_witness :
  length (@Leaf_MakeFaces ideal_polylib (sample_bsp 29 0) {| contents := -2 |}
            cube_planes) = 6%nat
  /\ @Leaf_MakeFaces ideal_polylib (sample_bsp 29 0) {| contents := -2 |}
       contrary_planes = [].
Proof.
  split.
  - apply (Leaf_MakeFaces_polygons (sample_bsp 29 0) {| contents := -2 |} cube_planes).
    + apply cube_planes_valid.
    + apply cube_planes_irredundant.
  - apply (Leaf_MakeFaces_polygons (sample_bsp 29 0) {| contents := -2 |}
             contrary_planes).
    + repeat constructor.
    + repeat constructor.
      * exists (1, 0, 0)%Q. reflexivity.
      * exists (0, 0, 0)%Q. reflexivity.
    + apply contrary_planes_empty.
Defined.

(** * Further properties of the code *)

(** ** The alpha of a face *)

(** The quotient [u / 127] in single precision, for each of the 128 values
    of the seven-bit field. *)
Lemma light_alpha_table (u : Z) :
  0 <= u <= 127 ->
  (fun u => let a := fdiv (float_of_int u) (float_of_int 127) in
            Bool.eqb (feq a f0) (u =? 0)
            && (if u =? 0 then true
                else flt f0 a && fle a f1 && Bool.eqb (flt a f1) (u <? 127)
                     && (if u =? 127 then feq a f1 else true))) u = true.
Proof.
  intros Hu.
  assert (Hall : forallb
            (fun u => let a := fdiv (float_of_int u) (float_of_int 127) in
               Bool.eqb (feq a f0) (u =? 0)
               && (if u =? 0 then true
                   else flt f0 a && fle a f1 && Bool.eqb (flt a f1) (u <? 127)
                        && (if u =? 127 then feq a f1 else true)))
            (seqZ 0 128) = true) by (vm_compute; reflexivity).
  rewrite forallb_forall in Hall. apply Hall.
  apply list_elem_of_In, elem_of_seqZ. lia.
Qed.

Section AlphaProofs.
Context `{Externals}.

(** [Face_Alpha]: the seven bits of [_light_alpha] decide.  When they are
    zero the alpha is the model's; otherwise it is [bits / 127] and the
    model's alpha is not consulted: a value strictly between 0 and 1 for
    1..126, and 1 for 127. *)
Theorem Face_Alpha_light_alpha (modelinfo : modelinfo_t) (face : bsp2_dface_t) :
  let alpha_u7 :=
    Z.land (Z.shiftr (extended_texinfo_flags (texinfo face)) TEX_LIGHT_ALPHA_SHIFT)
           127 in
  0 <= alpha_u7 <= 127
  /\ (alpha_u7 = 0 -> Face_Alpha modelinfo face = alpha modelinfo)
  /\ (alpha_u7 <> 0 ->
      Face_Alpha modelinfo face = fdiv (float_of_int alpha_u7) (float_of_int 127)
      /\ flt f0 (Face_Alpha modelinfo face) = true
      /\ fle (Face_Alpha modelinfo face) f1 = true
      /\ (flt (Face_Alpha modelinfo face) f1 = true <-> alpha_u7 < 127)
      /\ (alpha_u7 = 127 -> feq (Face_Alpha modelinfo face) f1 = true)).
Proof.
  intros alpha_u7.
  assert (Hrange : 0 <= alpha_u7 <= 127).
  { unfold alpha_u7. change 127 with (Z.ones 7) at 1 2.
    rewrite Z.land_ones by lia.
    pose proof (Z.mod_pos_bound
      (Z.shiftr (extended_texinfo_flags (texinfo face)) TEX_LIGHT_ALPHA_SHIFT)
      (2 ^ 7)) as Hb. change (Z.ones 7) with 127. lia. }
  pose proof (light_alpha_table alpha_u7 Hrange) as Htable. cbv beta zeta in Htable.
  apply andb_prop in Htable as [Hzero Hrest]. apply Bool.eqb_prop in Hzero.
  split; [done|]. unfold Face_Alpha. fold alpha_u7. rewrite Hzero.
  split.
  - intros ->. reflexivity.
  - intros Hne. apply Z.eqb_neq in Hne. rewrite Hne in *. cbn [negb].
    apply andb_prop in Hrest as [[[Hpos Hle]%andb_prop Hlt]%andb_prop H127].
    apply Bool.eqb_prop in Hlt.
    repeat split; try done.
    + rewrite Hlt. intros ?%Z.ltb_lt. done.
    + rewrite Hlt. intros ?. by apply Z.ltb_lt.
    + intros E. apply Z.eqb_eq in E. by rewrite E in H127.
Qed.

End AlphaProofs.

(** ** Geometries and their reverse tables *)

Section TableProofs.
Context `{Externals}.

Lemma bsp_vertices_lookup (bsp : mbsp_t) (i : nat) :
  Z.of_nat i < numvertexes bsp ->
  bsp_vertices bsp !! i = Some (default vec3_zero (dvertexes bsp !! i)).
Proof.
  intros Hi. unfold bsp_vertices. rewrite list_lookup_fmap.
  rewrite (lookup_seqZ_lt 0 (numvertexes bsp) i) by lia.
  cbn. by rewrite Z.add_0_l, Nat2Z.id.
Qed.

(** [CreateGeometry] always returns, also for an empty face list: it adds
    exactly one mesh behind those the scene has, whose id is the number of
    meshes the scene had, and touches neither the earlier meshes nor the
    registered filters.  The index buffer and the two reverse tables have
    one entry per counted triangle, and vertex [i] of the mesh is vertex
    [i] of the map. *)
Theorem CreateGeometry_appends (bsp : mbsp_t) (scene : RTCScene)
    (faces : list bsp2_dface_t) :
  exists (m : mesh) (info : sceneinfo),
    CreateGeometry bsp scene faces
    = Ok ({| meshes := meshes scene ++ [m];
             filter_geomIDs := filter_geomIDs scene |}, info)
    /\ geomID info = Z.of_nat (length (meshes scene))
    /\ Z.of_nat (length (index_buffer m)) = count_triangles faces
    /\ length (triToFace info) = length (index_buffer m)
    /\ length (triToModelinfo info) = length (index_buffer m)
    /\ length (vertex_buffer m) = Z.to_nat (numvertexes bsp)
    /\ forall i : nat,
         Z.of_nat i < numvertexes bsp ->
         vertex_buffer m !! i = Some (default vec3_zero (dvertexes bsp !! i)).
Proof.
  exists (face_mesh bsp faces),
         (face_sceneinfo bsp (Z.of_nat (length (meshes scene))) faces).
  split; [apply CreateGeometry_spec|].
  cbn [face_mesh face_sceneinfo geomID index_buffer vertex_buffer triToFace
       triToModelinfo].
  rewrite !length_fmap. repeat split.
  - by rewrite (count_triangles_emitted bsp).
  - unfold bsp_vertices. rewrite length_fmap, length_seqZ. done.
  - apply bsp_vertices_lookup.
Qed.

(** In a built scene the reverse lookups of a classified group answer
    exactly for the primitives of the group's mesh: below zero or from
    the number of triangles on, [at] throws. *)
Theorem lookup_prim_range (bsp : mbsp_t) (faces : facelists)
    (windings : list winding_t) (G : globals) (g : group) (primID : Z) :
  build_scene bsp faces windings = Ok G ->
  let id := geomID (group_info G g) in
  let numtris := Z.of_nat (length (mesh_triangles G id)) in
  numtris = count_triangles (group_faces faces g)
  /\ (0 <= primID < numtris ->
      (exists face, Embree_LookupFace G id primID = Ok face)
      /\ (exists mi, Embree_LookupModelinfo G id primID = Ok mi))
  /\ (~ 0 <= primID < numtris ->
      Embree_LookupFace G id primID = Fatal "vector::at"
      /\ Embree_LookupModelinfo G id primID = Fatal "vector::at").
Proof.
  intros [-> _]%build_scene_inv id numtris. subst id numtris.
  unfold Embree_LookupFace, Embree_LookupModelinfo.
  rewrite built_group_triangles, built_group_lookup.
  cbn [mbind outcome_bind face_sceneinfo triToFace triToModelinfo].
  rewrite length_fmap. split; [by rewrite (count_triangles_emitted bsp)|].
  split; intros Hp.
  - split; apply vector_at_in_range; by rewrite length_fmap.
  - split; apply vector_at_out_of_range; by rewrite length_fmap.
Qed.

(** What the reverse lookup of a built scene returns: a face of one of the
    three classified lists, with at least three edges, and, for the same
    primitive, the model that [ModelInfoForFace] gives for that face. *)
Theorem lookup_face_owner (bsp : mbsp_t) (faces : facelists)
    (windings : list winding_t) (G : globals) (id primID : Z)
    (face : bsp2_dface_t) :
  build_scene bsp faces windings = Ok G ->
  Embree_LookupFace G id primID = Ok face ->
  (exists g : group, id = geomID (group_info G g) /\ face ∈ group_faces faces g)
  /\ 3 <= numedges face
  /\ Embree_LookupModelinfo G id primID
     = Ok (ModelInfoForFace bsp (Face_GetNum bsp face)).
Proof.
  intros [-> _]%build_scene_inv. unfold Embree_LookupFace, Embree_LookupModelinfo.
  assert (Hgroup : forall g : group,
    vector_at (triToFace (face_sceneinfo bsp
        (match g with GSky => 0 | GSolid => 1 | GFilter => 2 end)
        (group_faces faces g))) primID = Ok face ->
    face ∈ group_faces faces g /\ 3 <= numedges face
    /\ vector_at (triToModelinfo (face_sceneinfo bsp
         (match g with GSky => 0 | GSolid => 1 | GFilter => 2 end)
         (group_faces faces g))) primID
       = Ok (ModelInfoForFace bsp (Face_GetNum bsp face))).
  { intros g [Hrange Hat]%vector_at_inv.
    cbn [face_sceneinfo triToFace triToModelinfo] in *.
    apply list_lookup_fmap_Some in Hat as (e & -> & He).
    destruct (emitted_inv bsp (group_faces faces g) e) as (Hin & Hedges & Hmodel);
      [by eapply list_elem_of_lookup_2|].
    repeat split; [done..|].
    rewrite <- (Z2Nat.id primID) by lia. apply vector_at_Ok.
    by rewrite list_lookup_fmap, He, <- Hmodel. }
  unfold Embree_SceneinfoForGeomID.
  cbn [built_globals skygeom solidgeom filtergeom face_sceneinfo geomID].
  destruct (id =? 0) eqn:E0; [apply Z.eqb_eq in E0 as ->|].
  { cbn [mbind outcome_bind]. intros Hat.
    destruct (Hgroup GSky Hat) as (Hin & Hedges & Hmodel).
    split; [by exists GSky|]. by split. }
  destruct (id =? 1) eqn:E1; [apply Z.eqb_eq in E1 as ->|].
  { cbn [mbind outcome_bind]. intros Hat.
    destruct (Hgroup GSolid Hat) as (Hin & Hedges & Hmodel).
    split; [by exists GSolid|]. by split. }
  destruct (id =? 2) eqn:E2; [apply Z.eqb_eq in E2 as ->|discriminate].
  cbn [mbind outcome_bind]. intros Hat.
  destruct (Hgroup GFilter Hat) as (Hin & Hedges & Hmodel).
  split; [by exists GFilter|]. by split.
Qed.

End TableProofs.

(** On the demonstration map the filtered group has 16 triangles: the
    lookups answer for primitives 0..15 and throw for primitive 16. *)
Lemma lookup_prim_range_witness :
  Z.of_nat (length (mesh_triangles demo_globals
                      (geomID (group_info demo_globals GFilter))))
  = count_triangles (group_faces demo_facelists GFilter)
  /\ (0 <= 16 < Z.of_nat (length (mesh_triangles demo_globals
                                    (geomID (group_info demo_globals GFilter)))) ->
      (exists face, Embree_LookupFace demo_globals
                      (geomID (group_info demo_globals GFilter)) 16 = Ok face)
      /\ (exists mi, Embree_LookupModelinfo demo_globals
                       (geomID (group_info demo_globals GFilter)) 16 = Ok mi))
  /\ (~ 0 <= 16 < Z.of_nat (length (mesh_triangles demo_globals
                                      (geomID (group_info demo_globals GFilter)))) ->
      Embree_LookupFace demo_globals
        (geomID (group_info demo_globals GFilter)) 16 = Fatal "vector::at"
      /\ Embree_LookupModelinfo demo_globals
           (geomID (group_info demo_globals GFilter)) 16 = Fatal "vector::at").
Proof.
  apply (lookup_prim_range demo_bsp demo_facelists demo_skip demo_globals
           GFilter 16).
  vm_compute. reflexivity.
Defined.

Lemma lookup_face_owner_witness :
  (exists g : group,
     2 = geomID (group_info demo_globals g)
     /\ {| face_addr := 4; numedges := 4; texinfo := 4 |}
        ∈ group_faces demo_facelists g)
  /\ 3 <= numedges {| face_addr := 4; numedges := 4; texinfo := 4 |}
  /\ Embree_LookupModelinfo demo_globals 2 5
     = Ok (ModelInfoForFace demo_bsp
             (Face_GetNum demo_bsp {| face_addr := 4; numedges := 4; texinfo := 4 |})).
Proof.
  apply (lookup_face_owner demo_bsp demo_facelists demo_skip demo_globals 2 5
           {| face_addr := 4; numedges := 4; texinfo := 4 |}).
  - vm_compute. reflexivity.
  - vm_compute. reflexivity.
Defined.

(** ** The walk over the nodes of a skip model *)

Lemma valid_binary_opp (x : float) :
  valid_binary f32_prec f32_emax (SFopp x) = valid_binary f32_prec f32_emax x.
Proof. by destruct x. Qed.

Lemma SFopp_involutive (x : float) : SFopp (SFopp x) = x.
Proof. destruct x as [s|s| |s m e]; cbn [SFopp]; by rewrite ?negb_involutive. Qed.

(** [Node_Plane]: the plane of the back side is the plane of the front
    side with every component negated, exactly, so a point lies as far
    inside the one as outside the other; and negating the back plane
    once more, as [Leaf_MakeFaces] does to obtain the plane of a face,
    gives the front plane again. *)
Theorem Node_Plane_back_mirrors_front (bsp : mbsp_t) (node : bsp2_dnode_t)
    (front : plane_t) :
  Node_Plane bsp node false = Ok front ->
  vec3_all (valid_binary f32_prec f32_emax) (normal front) = true ->
  valid_binary f32_prec f32_emax (dist front) = true ->
  exists back : plane_t,
    Node_Plane bsp node true = Ok back
    /\ normal back = (SFopp (normal front).1.1, SFopp (normal front).1.2,
                      SFopp (normal front).2)
    /\ dist back = SFopp (dist front)
    /\ (forall pt : point,
          plane_side (normal back) (dist back) pt
          == - plane_side (normal front) (dist front) pt)%Q
    /\ VectorScale (normal back) (float_of_int (-1)) = normal front
    /\ SFopp (dist back) = dist front.
Proof.
  unfold Node_Plane.
  destruct (array_read (dplanes bsp) (planenum node)) as [dplane|];
    cbn [mbind outcome_bind]; [|discriminate].
  intros [= <-]. cbn [normal dist].
  destruct (dp_normal dplane) as [[n0 n1] n2] eqn:En. unfold vec3_all.
  intros [[H0 H1]%andb_prop H2]%andb_prop Hd.
  eexists. split; [reflexivity|]. cbn [normal dist VectorScale fst snd].
  rewrite !fmul_minus_one by done.
  split; [done|]. split; [done|]. split; [|split].
  - intros [[x y] z]. unfold plane_side. rewrite !Q_of_float_opp. ring.
  - rewrite !fmul_minus_one by (by rewrite valid_binary_opp).
    by rewrite !SFopp_involutive.
  - apply SFopp_involutive.
Qed.

Section TreeProofs.
Context `{Externals} `{Polylib}.

Lemma MakeFaces_r_planes (fuel : nat) :
  forall (bsp : mbsp_t) (nodenum : Z) (planes planes' : list plane_t)
         (result result' : list winding),
    MakeFaces_r fuel bsp nodenum planes result = Some (Ok (planes', result')) ->
    planes' = planes /\ exists added, result' = result ++ added.
Proof.
  induction fuel as [|fuel IH]; intros bsp nodenum planes planes' result result';
    [discriminate|].
  cbn [MakeFaces_r]. destruct (nodenum <? 0).
  - destruct (array_read (dleafs bsp) _) as [leaf|]; cbn [mbind outcome_bind];
      [|discriminate].
    destruct (leaf_is_solid bsp leaf); intros [= <- <-]; (split; [done|]).
    + by eexists.
    + exists []. by rewrite app_nil_r.
  - destruct (array_read (dnodes bsp) nodenum) as [node|]; [|discriminate].
    destruct (Node_Plane bsp node false) as [front|]; [|discriminate].
    destruct (MakeFaces_r fuel bsp (children0 node) _ result)
      as [[[p1 r1]|]|] eqn:E1; try discriminate.
    apply IH in E1 as [-> [a1 ->]]. rewrite removelast_last.
    destruct (Node_Plane bsp node true) as [back|]; [|discriminate].
    destruct (MakeFaces_r fuel bsp (children1 node) _ _)
      as [[[p2 r2]|]|] eqn:E2; try discriminate.
    apply IH in E2 as [-> [a2 ->]]. rewrite removelast_last.
    intros [= <- <-]. split; [done|]. exists (a1 ++ a2). by rewrite app_assoc.
Qed.

(** [MakeFaces_r] pops what it pushes: when it returns, the stack of
    planes is the one it was called with, and the windings found so far
    have only been added to. *)
Theorem MakeFaces_r_restores_planes (fuel : nat) (bsp : mbsp_t) (nodenum : Z)
    (planes planes' : list plane_t) (result result' : list winding) :
  MakeFaces_r fuel bsp nodenum planes result = Some (Ok (planes', result')) ->
  planes' = planes /\ exists added, result' = result ++ added.
Proof. apply MakeFaces_r_planes. Qed.

(** Hence the assertion [planes.empty()] of [MakeFaces] cannot fail:
    whenever the walk from the head node returns, [MakeFaces] returns the
    windings of the walk. *)
Theorem MakeFaces_assertion_holds (fuel : nat) (bsp : mbsp_t) (model : dmodel_t)
    (planes : list plane_t) (result : list winding) :
  MakeFaces_r fuel bsp (headnode0 model) [] [] = Some (Ok (planes, result)) ->
  MakeFaces fuel bsp model = Some (Ok result).
Proof.
  intros Hwalk. unfold MakeFaces. rewrite Hwalk.
  apply MakeFaces_r_planes in Hwalk as [-> _]. reflexivity.
Qed.

Lemma MakeFaces_r_tree (bsp : mbsp_t) (nodenum : Z) (t : bsp_tree) :
  subtree bsp nodenum t ->
  forall (fuel : nat) (planes : list plane_t) (result : list winding),
    (tree_height t < fuel)%nat ->
    MakeFaces_r fuel bsp nodenum planes result
    = Some (Ok (planes, result ++ tree_faces bsp planes t)).
Proof.
  induction 1 as [n leaf Hn Hleaf|n node front back t0 t1 Hn Hnode Hfront Hback _ IH0 _ IH1];
    intros [|fuel] planes result Hfuel; try (cbn in Hfuel; lia);
    cbn [MakeFaces_r tree_faces].
  - destruct (n <? 0) eqn:E; [|lia]. rewrite Hleaf. cbn [mbind outcome_bind].
    destruct (leaf_is_solid bsp leaf); [done|]. by rewrite app_nil_r.
  - destruct (n <? 0) eqn:E; [lia|]. rewrite Hnode, Hfront.
    cbn [tree_height] in Hfuel.
    rewrite IH0 by lia. rewrite removelast_last, Hback.
    rewrite IH1 by lia. rewrite removelast_last. by rewrite app_assoc.
Qed.

(** [MakeFaces] on a finite, well-indexed node tree: with fuel beyond the
    height of the tree it returns, and what it returns are the windings of
    the solid leaves, front before back, each leaf made from the planes on
    its path from the head node; other leaves give nothing. *)
Theorem MakeFaces_tree (fuel : nat) (bsp : mbsp_t) (model : dmodel_t)
    (t : bsp_tree) :
  subtree bsp (headnode0 model) t ->
  (tree_height t < fuel)%nat ->
  MakeFaces fuel bsp model = Some (Ok (tree_faces bsp [] t)).
Proof.
  intros Htree Hfuel. unfold MakeFaces.
  by rewrite (MakeFaces_r_tree bsp _ t Htree fuel [] []).
Qed.

End TreeProofs.

Lemma Node_Plane_back_mirrors_front_witness :
  exists back : plane_t,
    Node_Plane tree_bsp {| planenum := 1; children0 := -2; children1 := -3 |} true
    = Ok back
    /\ normal back
       = (SFopp (normal (tree_plane 0 1 0 2)).1.1,
          SFopp (normal (tree_plane 0 1 0 2)).1.2,
          SFopp (normal (tree_plane 0 1 0 2)).2)
    /\ dist back = SFopp (dist (tree_plane 0 1 0 2))
    /\ (forall pt : point,
          plane_side (normal back) (dist back) pt
          == - plane_side (normal (tree_plane 0 1 0 2))
                          (dist (tree_plane 0 1 0 2)) pt)%Q
    /\ VectorScale (normal back) (float_of_int (-1)) = normal (tree_plane 0 1 0 2)
    /\ SFopp (dist back) = dist (tree_plane 0 1 0 2).
Proof.
  apply (Node_Plane_back_mirrors_front tree_bsp
           {| planenum := 1; children0 := -2; children1 := -3 |}
           (tree_plane 0 1 0 2)).
  - vm_compute. reflexivity.
  - vm_compute. reflexivity.
  - vm_compute. reflexivity.
Defined.

Lemma MakeFaces_r_restores_planes_witness :
  @nil plane_t = []
  /\ exists added : list (list plane_t), tree_windings = [] ++ added.
Proof.
  apply (@MakeFaces_r_restores_planes demo_externals recording_polylib
           3 tree_bsp 0 [] [] [] tree_windings).
  vm_compute. reflexivity.
Defined.

Lemma MakeFaces_assertion_holds_witness :
  @MakeFaces demo_externals recording_polylib 3 tree_bsp tree_model
  = Some (Ok tree_windings).
Proof.
  apply (@MakeFaces_assertion_holds demo_externals recording_polylib
           3 tree_bsp tree_model []).
  vm_compute. reflexivity.
Defined.

(** On the small tree: two windings for the solid leaf behind node 1,
    which has two planes on its path, then one for the solid leaf behind
    node 0; the empty leaf gives none. *)
Lemma MakeFaces_tree_witness :
  @MakeFaces demo_externals recording_polylib 3 tree_bsp tree_model
  = Some (Ok (@tree_faces demo_externals recording_polylib tree_bsp []
                tree_of_tree_bsp))
  /\ length tree_windings = 3%nat.
Proof.
  split; [|reflexivity].
  apply (@MakeFaces_tree demo_externals recording_polylib 3 tree_bsp tree_model
           tree_of_tree_bsp); [|vm_compute; lia].
  apply (subtree_node tree_bsp 0 {| planenum := 0; children0 := 1; children1 := -1 |});
    [lia|reflexivity|reflexivity|reflexivity| |].
  - apply (subtree_node tree_bsp 1 {| planenum := 1; children0 := -2; children1 := -3 |});
      [lia|reflexivity|reflexivity|reflexivity| |].
    + apply subtree_leaf; [cbn; lia|reflexivity].
    + apply subtree_leaf; [cbn; lia|reflexivity].
  - apply subtree_leaf; [cbn; lia|reflexivity].
Defined.

(** ** Initialisation as a whole *)

Section InitProofs.
Context `{Externals} `{Polylib}.

Lemma skip_windings_faced (fuel : nat) (bsp : mbsp_t) (models : list modelinfo_t) :
  Forall (fun mi => numfaces (model mi) <> 0) models ->
  skip_windings fuel bsp models = Some (Ok []).
Proof.
  induction 1 as [|mi models Hmi _ IH]; cbn [skip_windings]; [done|].
  apply Z.eqb_neq in Hmi. by rewrite Hmi, IH.
Qed.

(** [Embree_TraceInit] refuses an Embree built with ray masks: whatever
    the map and whatever [device] holds, it does not return, and when the
    classification and the skip models went through, it ends with the
    error of line 711 if [device] was null on entry, as it is on the first
    call, and at the assertion of line 595 otherwise. *)
Theorem Embree_TraceInit_ray_mask (fuel : nat) (device : option RTCDevice)
    (bsp : mbsp_t) :
  RTC_CONFIG_RAY_MASK_value <> 0 ->
  (forall r : option RTCDevice * globals,
     Embree_TraceInit fuel device bsp <> Some (Ok r))
  /\ (forall skipwindings : list winding,
        skip_windings fuel bsp tracelist = Some (Ok skipwindings) ->
        Embree_TraceInit fuel device bsp
        = Some (Fatal match device with
                      | None => "embree must be built with ray masks disabled"
                      | Some _ => "device == nullptr"
                      end)).
Proof.
  intros Hmask%Z.eqb_neq. unfold Embree_TraceInit, classify_faces.
  destruct device as [d|]; cbn [Q_assert]; [by split|].
  rewrite classify_model_loop. unfold build_scene. rewrite Hmask.
  cbn [negb mbind outcome_bind]. split.
  - intros r. by destruct (skip_windings fuel bsp tracelist) as [[?|?]|].
  - by intros skipwindings ->.
Qed.

(** When [Embree_TraceInit] returns, and what it leaves behind: [device]
    was null on entry, ray masks are off, the walk over the traced models
    without faces returned windings of at least three points each; then
    [device] is set, and the globals hold the geometries 0, 1 and 2 of the
    sky, solid and filtered faces the rules select, then the skip windings
    as one further mesh when there are any, with the filter registered for
    geometry 2 alone.  With [device] set, as a call that returned leaves
    it, every call fails the assertion of line 595 before it looks at the
    map: the initialisation runs once. *)
Theorem Embree_TraceInit_returns (fuel : nat) (device device' : option RTCDevice)
    (bsp : mbsp_t) (G : globals) :
  (Embree_TraceInit fuel device bsp = Some (Ok (device', G)) <->
   device = None
   /\ device' = Some rtcNewDevice
   /\ RTC_CONFIG_RAY_MASK_value = 0
   /\ exists skipwindings : list winding,
        skip_windings fuel bsp tracelist = Some (Ok skipwindings)
        /\ Forall (fun w => 3 <= numpoints (winding_points w)) skipwindings
        /\ G = built_globals bsp
                 {| skyfaces := spec_bucket Sky bsp;
                    solidfaces := spec_bucket Solid bsp;
                    filterfaces := spec_bucket Filtered bsp |}
                 (winding_points <$> skipwindings))
  /\ (forall (fuel2 : nat) (bsp2 : mbsp_t),
        Embree_TraceInit fuel device bsp = Some (Ok (device', G)) ->
        Embree_TraceInit fuel2 device' bsp2 = Some (Fatal "device == nullptr")).
Proof.
  assert (Hiff : Embree_TraceInit fuel device bsp = Some (Ok (device', G)) <->
    device = None
    /\ device' = Some rtcNewDevice
    /\ RTC_CONFIG_RAY_MASK_value = 0
    /\ exists skipwindings : list winding,
         skip_windings fuel bsp tracelist = Some (Ok skipwindings)
         /\ Forall (fun w => 3 <= numpoints (winding_points w)) skipwindings
         /\ G = built_globals bsp
                  {| skyfaces := spec_bucket Sky bsp;
                     solidfaces := spec_bucket Solid bsp;
                     filterfaces := spec_bucket Filtered bsp |}
                  (winding_points <$> skipwindings)).
  { unfold Embree_TraceInit, classify_faces.
    destruct device as [d|]; cbn [Q_assert].
    { split; [discriminate|]. by intros [[=] _]. }
    rewrite classify_model_loop. split.
    - destruct (skip_windings fuel bsp tracelist) as [[skipwindings|msg]|];
        try discriminate.
      destruct (build_scene _ _ _) as [G0|] eqn:HG; [|discriminate].
      cbn [mbind outcome_bind]. intros [= <- <-].
      split; [done|]. split; [done|]. split.
      + destruct (RTC_CONFIG_RAY_MASK_value =? 0) eqn:Hmask; [by apply Z.eqb_eq|].
        unfold build_scene in HG. by rewrite Hmask in HG.
      + apply build_scene_inv in HG as [-> Hall]. exists skipwindings.
        split; [done|]. split; [|done]. rewrite Forall_fmap in Hall. exact Hall.
    - intros (_ & -> & Hmask & skipwindings & -> & Hall & ->).
      rewrite build_scene_Ok; [done|done|]. rewrite Forall_fmap. exact Hall. }
  split; [exact Hiff|].
  intros fuel2 bsp2 (_ & -> & _)%Hiff. reflexivity.
Qed.

(** Only the traced models without faces are walked: when every traced
    model has faces, the first call of [Embree_TraceInit], the one that
    finds [device] null, returns whatever the node arrays hold; it sets
    [device], and the scene has the three classified geometries and no
    other. *)
Theorem Embree_TraceInit_without_skip_models (fuel : nat) (bsp : mbsp_t) :
  RTC_CONFIG_RAY_MASK_value = 0 ->
  Forall (fun mi => numfaces (model mi) <> 0) tracelist ->
  exists G : globals,
    Embree_TraceInit fuel None bsp = Some (Ok (Some rtcNewDevice, G))
    /\ length (meshes (scene G)) = 3%nat
    /\ G = built_globals bsp
             {| skyfaces := spec_bucket Sky bsp;
                solidfaces := spec_bucket Solid bsp;
                filterfaces := spec_bucket Filtered bsp |} [].
Proof.
  intros Hmask Hfaced. eexists. split; [|split; [|reflexivity]]; [|reflexivity].
  unfold Embree_TraceInit, classify_faces. cbn [Q_assert].
  rewrite classify_model_loop.
  rewrite skip_windings_faced by done.
  rewrite build_scene_Ok by done. reflexivity.
Qed.

End InitProofs.

Lemma Embree_TraceInit_ray_mask_witness :
  (forall r : option RTCDevice * globals,
     @Embree_TraceInit masked_externals recording_polylib 0 None demo_bsp
     <> Some (Ok r))
  /\ (forall skipwindings : list (list plane_t),
        @skip_windings masked_externals recording_polylib 0 demo_bsp
          (@tracelist masked_externals) = Some (Ok skipwindings) ->
        @Embree_TraceInit masked_externals recording_polylib 0 None demo_bsp
        = Some (Fatal "embree must be built with ray masks disabled")).
Proof.
  apply (@Embree_TraceInit_ray_mask masked_externals recording_polylib 0 None
           demo_bsp).
  discriminate.
Defined.

(** The map with the small tree as a skip model: the three windings of the
    tree become geometry 3, of three triangles; a second call stops at the
    assertion. *)
Lemma Embree_TraceInit_returns_witness :
  @Embree_TraceInit skip_externals recording_polylib 3 None tree_bsp
  = Some (Ok (Some rtcNewDevice,
              @built_globals skip_externals tree_bsp
                {| skyfaces := @spec_bucket skip_externals Sky tree_bsp;
                   solidfaces := @spec_bucket skip_externals Solid tree_bsp;
                   filterfaces := @spec_bucket skip_externals Filtered tree_bsp |}
                (@winding_points recording_polylib <$> tree_windings)))
  /\ (index_buffer <$> meshes (scene
        (@built_globals skip_externals tree_bsp
           {| skyfaces := @spec_bucket skip_externals Sky tree_bsp;
              solidfaces := @spec_bucket skip_externals Solid tree_bsp;
              filterfaces := @spec_bucket skip_externals Filtered tree_bsp |}
           (@winding_points recording_polylib <$> tree_windings)))) !! 3%nat
     = Some [ {| v0 := 1; v1 := 2; v2 := 0 |}; {| v0 := 4; v1 := 5; v2 := 3 |};
              {| v0 := 7; v1 := 8; v2 := 6 |} ]
  /\ @Embree_TraceInit skip_externals recording_polylib 3 (Some rtcNewDevice)
       tree_bsp
     = Some (Fatal "device == nullptr").
Proof.
  pose proof (@Embree_TraceInit_returns skip_externals recording_polylib 3
                None (Some rtcNewDevice) tree_bsp
                (@built_globals skip_externals tree_bsp
                   {| skyfaces := @spec_bucket skip_externals Sky tree_bsp;
                      solidfaces := @spec_bucket skip_externals Solid tree_bsp;
                      filterfaces := @spec_bucket skip_externals Filtered tree_bsp |}
                   (@winding_points recording_polylib <$> tree_windings)))
    as [Hiff Hagain].
  assert (Hfirst :
    @Embree_TraceInit skip_externals recording_polylib 3 None tree_bsp
    = Some (Ok (Some rtcNewDevice,
                @built_globals skip_externals tree_bsp
                  {| skyfaces := @spec_bucket skip_externals Sky tree_bsp;
                     solidfaces := @spec_bucket skip_externals Solid tree_bsp;
                     filterfaces := @spec_bucket skip_externals Filtered tree_bsp |}
                  (@winding_points recording_polylib <$> tree_windings)))).
  { apply (proj2 Hiff).
    split; [reflexivity|]. split; [reflexivity|]. split; [reflexivity|].
    exists tree_windings.
    split; [vm_compute; reflexivity|]. split; [|reflexivity].
    unfold tree_windings.
    repeat (constructor; [unfold numpoints; cbn; lia|]). constructor. }
  split; [exact Hfirst|]. split; [vm_compute; reflexivity|].
  exact (Hagain 3%nat tree_bsp Hfirst).
Defined.

Lemma Embree_TraceInit_without_skip_models_witness :
  exists G : globals,
    @Embree_TraceInit plain_externals recording_polylib 0 None demo_bsp
    = Some (Ok (Some rtcNewDevice, G))
    /\ length (meshes (scene G)) = 3%nat
    /\ G = @built_globals plain_externals demo_bsp
             {| skyfaces := @spec_bucket plain_externals Sky demo_bsp;
                solidfaces := @spec_bucket plain_externals Solid demo_bsp;
                filterfaces := @spec_bucket plain_externals Filtered demo_bsp |} [].
Proof.
  apply (@Embree_TraceInit_without_skip_models plain_externals recording_polylib
           0 demo_bsp).
  - reflexivity.
  - repeat constructor; discriminate.
Defined.

(** ** What the filter leaves alone *)

(** Case analysis on the first command of a sequence that returned. *)
Ltac returned E :=
  lazymatch goal with
  | |- mbind _ (Q_assert ?b _) = Ok _ -> _ =>
      unfold Q_assert; destruct b eqn:E; cbn [mbind outcome_bind]; [|discriminate]
  | |- mbind _ ?m = Ok _ -> _ =>
      destruct m eqn:E; cbn [mbind outcome_bind]; [|discriminate]
  end.

Lemma lane_kept_refl (l : lane) : lane_kept l l.
Proof. unfold lane_kept. repeat split; auto. Qed.

Lemma lane_kept_reject (l : lane) : valid l = VALID -> lane_kept l (reject l).
Proof.
  intros Hvalid. unfold lane_kept, reject. cbn. rewrite Hvalid.
  repeat split; auto. done.
Qed.

Lemma lane_kept_accept (ft : filtertype_t) (l : lane) :
  valid l = VALID -> lane_kept l (accept ft l).
Proof.
  intros Hvalid. unfold lane_kept, accept. cbn. rewrite Hvalid.
  repeat split; auto; try done. by destruct ft.
Qed.

Lemma touched_only_refl (m : Z) (rs : raystream_embree_t) : touched_only m rs rs.
Proof. by intros j _. Qed.

Lemma touched_only_trans (m : Z) (rs1 rs2 rs3 : raystream_embree_t) :
  touched_only m rs1 rs2 -> touched_only m rs2 rs3 -> touched_only m rs1 rs3.
Proof.
  intros H12 H23 j Hj. destruct (H12 j Hj) as [Hc Hs], (H23 j Hj) as [Hc' Hs'].
  split; congruence.
Qed.

Section FrameProofs.
Context `{Externals}.

Lemma AddGlassToRay_inputs (ctx ctx' : ray_source_info) (rayIndex : Z)
    (opacity : float) (glasscolor : vec3) :
  AddGlassToRay ctx rayIndex opacity glasscolor = Ok ctx' ->
  ctx_inputs ctx' = ctx_inputs ctx
  /\ (_rays <$> raystream ctx') = (_rays <$> raystream ctx)
  /\ (_ray_dynamic_styles <$> raystream ctx')
     = (_ray_dynamic_styles <$> raystream ctx)
  /\ singleRayShadowStyle ctx' = singleRayShadowStyle ctx.
Proof.
  unfold AddGlassToRay, ctx_inputs.
  destruct (raystream ctx) as [rs|] eqn:Hrs; [|by intros [= <-]; rewrite Hrs].
  returned E1. returned E2. returned Hread. returned Hstore.
  intros [= <-]. done.
Qed.

Lemma AddDynamicOccluderToRay_inputs (ctx ctx' : ray_source_info)
    (rayIndex style : Z) :
  AddDynamicOccluderToRay ctx rayIndex style = Ok ctx' ->
  ctx_inputs ctx' = ctx_inputs ctx
  /\ (_rays <$> raystream ctx') = (_rays <$> raystream ctx)
  /\ (_ray_colors <$> raystream ctx') = (_ray_colors <$> raystream ctx).
Proof.
  unfold AddDynamicOccluderToRay, ctx_inputs.
  destruct (raystream ctx) as [rs|] eqn:Hrs.
  - returned Hstore. intros [= <-]. done.
  - intros [= <-]. done.
Qed.

(** A step that leaves the context as it is. *)
Ltac same_context :=
  intros [= <- <-];
  split; [reflexivity|];
  split; [reflexivity|];
  auto using lane_kept_refl, lane_kept_reject, lane_kept_accept.

Lemma filter_transparency_frame (ft : filtertype_t) (G : globals)
    (ctx ctx' : ray_source_info) (l l' : lane) (hm : modelinfo_t) :
  valid l = VALID ->
  filter_transparency ft G ctx l hm = Ok (ctx', l') ->
  ctx_inputs ctx' = ctx_inputs ctx
  /\ (_rays <$> raystream ctx') = (_rays <$> raystream ctx)
  /\ lane_kept l l'.
Proof.
  intros Hvalid. unfold filter_transparency. returned Hface.
  destruct (hit_material _ _ _) as [[isFence isGlass] alpha].
  destruct (isFence || isGlass); [|same_context].
  destruct isGlass.
  - destruct (flt _ _).
    + returned Hglass. intros [= <- <-].
      apply AddGlassToRay_inputs in Hglass as (Hin & Hrays & _).
      split; [done|]. split; [done|]. by apply lane_kept_reject.
    + cbn [mbind outcome_bind]. same_context.
  - destruct (isFence && _); same_context.
Qed.

Lemma filter_lane_frame (ft : filtertype_t) (G : globals)
    (ctx ctx' : ray_source_info) (l l' : lane) :
  filter_lane ft G ctx l = Ok (ctx', l') ->
  ctx_inputs ctx' = ctx_inputs ctx
  /\ (_rays <$> raystream ctx') = (_rays <$> raystream ctx)
  /\ lane_kept l l'.
Proof.
  unfold filter_lane.
  destruct (valid l =? VALID) eqn:Hvalid; cbn [negb]; [|same_context].
  apply Z.eqb_eq in Hvalid.
  returned Hlookup.
  destruct a as [hm|]; [|same_context].
  destruct (world_only_rejects _ _); [same_context|].
  destruct (self_only_rejects _ _); [same_context|].
  destruct (switchableshadow hm).
  - returned Hdyn. intros [= <- <-].
    apply AddDynamicOccluderToRay_inputs in Hdyn as (Hin & Hrays & _).
    split; [done|]. split; [done|]. by apply lane_kept_reject.
  - by apply filter_transparency_frame.
Qed.

Lemma FilterFuncN_frame (ft : filtertype_t) (G : globals) (lanes : list lane) :
  forall (ctx ctx' : ray_source_info) (lanes' : list lane),
    Embree_FilterFuncN ft G ctx lanes = Ok (ctx', lanes') ->
    ctx_inputs ctx' = ctx_inputs ctx
    /\ (_rays <$> raystream ctx') = (_rays <$> raystream ctx)
    /\ Forall2 lane_kept lanes lanes'.
Proof.
  induction lanes as [|l lanes IH]; intros ctx ctx' lanes'; cbn [Embree_FilterFuncN].
  - intros [= <- <-]. split; [done|]. split; [done|]. constructor.
  - returned Hlane. destruct a as [ctx1 l1].
    returned Hrest. destruct a as [ctx2 rest].
    intros [= <- <-].
    apply filter_lane_frame in Hlane as (Hin1 & Hrays1 & Hkept).
    apply IH in Hrest as (Hin2 & Hrays2 & Hall).
    split; [congruence|]. split; [congruence|]. by constructor.
Qed.

Lemma AddGlassToRay_touch (ctx ctx' : ray_source_info) (rs : raystream_embree_t)
    (rayIndex : Z) (opacity : float) (glasscolor : vec3) :
  raystream ctx = Some rs ->
  AddGlassToRay ctx rayIndex opacity glasscolor = Ok ctx' ->
  exists rs', raystream ctx' = Some rs' /\ touched_only rayIndex rs rs'.
Proof.
  intros Hrs. unfold AddGlassToRay. rewrite Hrs.
  returned E1. returned E2. returned Hread. returned Hstore. intros [= <-].
  apply array_store_inv in Hstore as [_ ->].
  eexists. split; [reflexivity|]. intros j Hj. cbn.
  by rewrite list_lookup_insert_ne.
Qed.

Lemma AddDynamicOccluderToRay_touch (ctx ctx' : ray_source_info)
    (rs : raystream_embree_t) (rayIndex style : Z) :
  raystream ctx = Some rs ->
  AddDynamicOccluderToRay ctx rayIndex style = Ok ctx' ->
  exists rs', raystream ctx' = Some rs' /\ touched_only rayIndex rs rs'.
Proof.
  intros Hrs. unfold AddDynamicOccluderToRay. rewrite Hrs.
  returned Hstore. intros [= <-].
  apply array_store_inv in Hstore as [_ ->].
  eexists. split; [reflexivity|]. intros j Hj. cbn.
  by rewrite list_lookup_insert_ne.
Qed.

Lemma filter_lane_touch (ft : filtertype_t) (G : globals)
    (ctx ctx' : ray_source_info) (rs : raystream_embree_t) (l l' : lane) :
  raystream ctx = Some rs ->
  filter_lane ft G ctx l = Ok (ctx', l') ->
  exists rs', raystream ctx' = Some rs'
              /\ touched_only (mask (lane_ray l)) rs rs'.
Proof.
  intros Hrs.
  assert (Hsame : forall l0 : lane,
            @Ok (ray_source_info * lane) (ctx, l0) = Ok (ctx', l') ->
            exists rs', raystream ctx' = Some rs'
                        /\ touched_only (mask (lane_ray l)) rs rs').
  { intros l0 [= <- _]. exists rs. split; [done|apply touched_only_refl]. }
  unfold filter_lane.
  destruct (negb _); [apply Hsame|].
  returned Hlookup.
  destruct a as [hm|]; [|apply Hsame].
  destruct (world_only_rejects _ _); [apply Hsame|].
  destruct (self_only_rejects _ _); [apply Hsame|].
  destruct (switchableshadow hm).
  { returned Hdyn. intros [= <- _].
    by eapply AddDynamicOccluderToRay_touch. }
  unfold filter_transparency. returned Hface.
  destruct (hit_material _ _ _) as [[isFence isGlass] alpha].
  destruct (isFence || isGlass); [|apply Hsame].
  destruct isGlass.
  - destruct (flt _ _).
    + returned Hglass. intros [= <- _]. by eapply AddGlassToRay_touch.
    + cbn [mbind outcome_bind]. apply Hsame.
  - destruct (isFence && _); apply Hsame.
Qed.

Lemma filter_lane_invalid (ft : filtertype_t) (G : globals)
    (ctx : ray_source_info) (l : lane) :
  valid l <> VALID -> filter_lane ft G ctx l = Ok (ctx, l).
Proof.
  intros Hl%Z.eqb_neq. unfold filter_lane. by rewrite Hl.
Qed.

Lemma FilterFuncN_touch (ft : filtertype_t) (G : globals) (lanes : list lane) :
  forall (ctx ctx' : ray_source_info) (lanes' : list lane)
         (rs : raystream_embree_t),
    raystream ctx = Some rs ->
    Embree_FilterFuncN ft G ctx lanes = Ok (ctx', lanes') ->
    exists rs' : raystream_embree_t,
      raystream ctx' = Some rs'
      /\ forall j : nat,
           (forall l : lane, l ∈ lanes -> valid l = VALID ->
                             j <> Z.to_nat (mask (lane_ray l))) ->
           _ray_colors rs' !! j = _ray_colors rs !! j
           /\ _ray_dynamic_styles rs' !! j = _ray_dynamic_styles rs !! j.
Proof.
  induction lanes as [|l lanes IH]; intros ctx ctx' lanes' rs Hrs;
    cbn [Embree_FilterFuncN].
  - intros [= <- _]. by exists rs.
  - returned Hlane. destruct a as [ctx1 l1].
    returned Hrest. destruct a as [ctx2 rest]. intros [= <- _].
    assert (Hfirst : exists rs1, raystream ctx1 = Some rs1
              /\ forall j : nat,
                   (valid l = VALID -> j <> Z.to_nat (mask (lane_ray l))) ->
                   _ray_colors rs1 !! j = _ray_colors rs !! j
                   /\ _ray_dynamic_styles rs1 !! j = _ray_dynamic_styles rs !! j).
    { destruct (decide (valid l = VALID)) as [Hvalid|Hvalid].
      - destruct (filter_lane_touch _ _ _ _ _ _ _ Hrs Hlane) as (rs1 & Hrs1 & Ht).
        exists rs1. split; [done|]. intros j Hj. apply Ht. by apply Hj.
      - rewrite filter_lane_invalid in Hlane by done. injection Hlane as <- _.
        by exists rs. }
    destruct Hfirst as (rs1 & Hrs1 & H1).
    destruct (IH _ _ _ _ Hrs1 Hrest) as (rs2 & Hrs2 & H2).
    exists rs2. split; [done|]. intros j Hj.
    destruct (H1 j) as [Hc1 Hs1]; [intros Hv; apply Hj; [left|done]|].
    destruct (H2 j) as [Hc2 Hs2]; [intros l0 Hl0; apply Hj; by right|].
    split; congruence.
Qed.

(** [Embree_FilterFuncN] decides and records, and does nothing else.  It
    returns as many rays as it was given, each with its potential hit,
    origin, direction, [tnear], time and mask as before; a ray can lose
    its validity but not gain it; the hit data are copied only into rays
    that stay valid; rays that came in not valid come out as they were.
    Of the context it leaves the querying model as it is, and of the
    stream the capacity, the count, the rays, the distances, the point
    indices and the normal contributions.  What it does write to the
    stream are the colours and the dynamic styles, and those only in the
    slots numbered by the masks of the valid rays of the packet. *)
Theorem Embree_FilterFuncN_frame (ft : filtertype_t) (G : globals)
    (rsi rsi' : ray_source_info) (lanes lanes' : list lane) :
  Embree_FilterFuncN ft G rsi lanes = Ok (rsi', lanes') ->
  length lanes' = length lanes
  /\ ctx_inputs rsi' = ctx_inputs rsi
  /\ (_rays <$> raystream rsi') = (_rays <$> raystream rsi)
  /\ (forall rs : raystream_embree_t,
        raystream rsi = Some rs ->
        exists rs' : raystream_embree_t,
          raystream rsi' = Some rs'
          /\ forall j : nat,
               (forall l : lane, l ∈ lanes -> valid l = VALID ->
                                 j <> Z.to_nat (mask (lane_ray l))) ->
               _ray_colors rs' !! j = _ray_colors rs !! j
               /\ _ray_dynamic_styles rs' !! j = _ray_dynamic_styles rs !! j)
  /\ forall (i : nat) (l l' : lane),
       lanes !! i = Some l -> lanes' !! i = Some l' ->
       potentialHit l' = potentialHit l
       /\ ray_inputs (lane_ray l') = ray_inputs (lane_ray l)
       /\ (valid l' = valid l \/ valid l' = INVALID)
       /\ (valid l' <> VALID -> lane_ray l' = lane_ray l)
       /\ (valid l <> VALID -> l' = l).
Proof.
  intros Hrun. pose proof (FilterFuncN_frame _ _ _ _ _ _ Hrun) as (Hin & Hrays & Hall).
  split; [symmetry; by eapply Forall2_length|]. split; [done|]. split; [done|].
  split; [intros rs Hrs; by eapply FilterFuncN_touch|].
  intros i l l' Hl Hl'. by eapply (Forall2_lookup_lr _ _ _ _ _ _ Hall).
Qed.

(** Rays that are not valid are not looked at: a packet without a valid
    ray comes back as it is, with the context as it is, whatever geometry
    and primitive numbers the hits carry. *)
Theorem Embree_FilterFuncN_skips_invalid (ft : filtertype_t) (G : globals)
    (rsi : ray_source_info) (lanes : list lane) :
  Forall (fun l => valid l <> VALID) lanes ->
  Embree_FilterFuncN ft G rsi lanes = Ok (rsi, lanes).
Proof.
  induction 1 as [|l lanes Hl _ IH]; cbn [Embree_FilterFuncN]; [done|].
  unfold filter_lane at 1. apply Z.eqb_neq in Hl. rewrite Hl. cbn [negb].
  cbn [mbind outcome_bind]. by rewrite IH.
Qed.

End FrameProofs.

(** A packet of three rays for slot 0 of a stream, the second of them not
    valid: slots other than 0 keep their colour and style. *)
Lemma Embree_FilterFuncN_frame_witness :
  length (snd demo_packet_filtered) = length demo_packet
  /\ ctx_inputs (fst demo_packet_filtered) = ctx_inputs (demo_stream_ctx None)
  /\ (_rays <$> raystream (fst demo_packet_filtered))
     = (_rays <$> raystream (demo_stream_ctx None))
  /\ (forall rs : raystream_embree_t,
        raystream (demo_stream_ctx None) = Some rs ->
        exists rs' : raystream_embree_t,
          raystream (fst demo_packet_filtered) = Some rs'
          /\ forall j : nat,
               (forall l : lane, l ∈ demo_packet -> valid l = VALID ->
                                 j <> Z.to_nat (mask (lane_ray l))) ->
               _ray_colors rs' !! j = _ray_colors rs !! j
               /\ _ray_dynamic_styles rs' !! j = _ray_dynamic_styles rs !! j)
  /\ forall (i : nat) (l l' : lane),
       demo_packet !! i = Some l -> snd demo_packet_filtered !! i = Some l' ->
       potentialHit l' = potentialHit l
       /\ ray_inputs (lane_ray l') = ray_inputs (lane_ray l)
       /\ (valid l' = valid l \/ valid l' = INVALID)
       /\ (valid l' <> VALID -> lane_ray l' = lane_ray l)
       /\ (valid l <> VALID -> l' = l).
Proof.
  apply (@Embree_FilterFuncN_frame demo_externals OCCLUSION demo_globals
           (demo_stream_ctx None) (fst demo_packet_filtered)
           demo_packet (snd demo_packet_filtered)).
  vm_compute. reflexivity.
Defined.

Lemma Embree_FilterFuncN_skips_invalid_witness :
  @Embree_FilterFuncN demo_externals INTERSECTION demo_globals
    (demo_single_ctx None) [stray_lane; stray_lane]
  = Ok (demo_single_ctx None, [stray_lane; stray_lane]).
Proof.
  apply (@Embree_FilterFuncN_skips_invalid demo_externals INTERSECTION
           demo_globals (demo_single_ctx None) [stray_lane; stray_lane]).
  repeat constructor; discriminate.
Defined.

(** ** The single-ray queries *)

Section SingleRayProofs.
Context `{Externals} `{Backend}.
Variable MAX_SKY_DIST : float.

Lemma table_face_member (bsp : mbsp_t) (fs : list bsp2_dface_t) (primID : Z)
    (face : bsp2_dface_t) :
  vector_at (emitted_face <$> emitted bsp fs) primID = Ok face ->
  face ∈ fs /\ 3 <= numedges face.
Proof.
  intros [_ Hat]%vector_at_inv.
  apply list_lookup_fmap_Some in Hat as (e & -> & He).
  destruct (emitted_inv bsp fs e) as (Hin & Hedges & _);
    [by eapply list_elem_of_lookup_2|done].
Qed.

Lemma built_has_filter (bsp : mbsp_t) (faces : facelists)
    (windings : list winding_t) (id : Z) :
  has_filter (built_globals bsp faces windings) id = (id =? 2).
Proof.
  unfold has_filter. cbn [built_globals scene filter_geomIDs].
  destruct (Z.eqb_spec id 2) as [->|Hne].
  - apply bool_decide_eq_true. by apply list_elem_of_singleton.
  - apply bool_decide_eq_false. by rewrite list_elem_of_singleton.
Qed.

(** Only the filtered group has a filter: in a built scene, a light test
    whose first potential hit lies on any other geometry (sky, solid, or
    the skip windings) is occluded with style 0, whoever asks. *)
Theorem Embree_TestLight_unfiltered_hit (bsp : mbsp_t) (faces : facelists)
    (windings : list winding_t) (G : globals) (start stop : vec3)
    (querier : modelinfo_ptr) (hit : RTCHit) (rest : list RTCHit) :
  build_scene bsp faces windings = Ok G ->
  rtc_candidates (scene G) (SetupRay_StartStop start stop) = hit :: rest ->
  hit_geomID hit <> geomID (filtergeom G) ->
  Embree_TestLight G start stop querier
  = Ok {| visible := false; dynamicStyle := 0 |}.
Proof.
  intros [-> _]%build_scene_inv Hcand Hid.
  unfold Embree_TestLight, rtcOccluded1Ex. rewrite Hcand. cbn [occluded_by].
  rewrite built_has_filter. apply Z.eqb_neq in Hid.
  cbn [built_globals filtergeom face_sceneinfo geomID] in Hid. rewrite Hid.
  reflexivity.
Qed.

(** [Embree_TestSky] with a place for the face: when it reports the sky,
    the face it stores is one of the faces classified as sky, with at
    least three edges; when it does not, it stores the null pointer. *)
Theorem Embree_TestSky_face (bsp : mbsp_t) (faces : facelists)
    (windings : list winding_t) (G : globals) (start dirn : vec3)
    (querier : modelinfo_ptr) (old : option bsp2_dface_t)
    (res : hitresult_t) (out : option (option bsp2_dface_t)) :
  build_scene bsp faces windings = Ok G ->
  Embree_TestSky MAX_SKY_DIST G start dirn querier (Some old) = Ok (res, out) ->
  (visible res = true ->
   exists face : bsp2_dface_t,
     out = Some (Some face) /\ face ∈ skyfaces faces /\ 3 <= numedges face)
  /\ (visible res = false -> out = Some None).
Proof.
  intros [-> _]%build_scene_inv. unfold Embree_TestSky.
  returned Hq. destruct a as [ctx ray].
  destruct (ray_geomID ray =? _) eqn:Hsky.
  - unfold Embree_SceneinfoForGeomID. rewrite Hsky. cbn [mbind outcome_bind].
    destruct (vector_at _ _) as [face|] eqn:Hat; cbn [mbind outcome_bind];
      [|discriminate].
    intros [= <- <-]. cbn [visible]. split; [|discriminate].
    intros _. exists face. split; [done|].
    by apply (table_face_member bsp _ (ray_primID ray)).
  - cbn [mbind outcome_bind]. intros [= <- <-]. cbn [visible].
    split; [discriminate|done].
Qed.

(** [Embree_DirtTrace] in a built scene.  When it answers [NONE] the three
    out-parameters are as they were.  Otherwise null pointers stay null,
    and a face asked for is one of the classified faces: a sky face
    exactly when the answer is [SKY], a solid or filtered face when it is
    [SOLID]. *)
Theorem Embree_DirtTrace_result (bsp : mbsp_t) (faces : facelists)
    (windings : list winding_t) (G : globals) (start dirn : vec3)
    (maxdist : float) (querier : modelinfo_ptr)
    (hitdist_out hitdist_out' : option float)
    (hitplane_out hitplane_out' : option plane_t)
    (face_out face_out' : option (option bsp2_dface_t)) (ty : hittype_t) :
  build_scene bsp faces windings = Ok G ->
  Embree_DirtTrace G start dirn maxdist querier hitdist_out hitplane_out face_out
  = Ok (ty, hitdist_out', hitplane_out', face_out') ->
  (ty = NONE ->
   hitdist_out' = hitdist_out /\ hitplane_out' = hitplane_out
   /\ face_out' = face_out)
  /\ (is_Some hitdist_out' <-> is_Some hitdist_out)
  /\ (is_Some hitplane_out' <-> is_Some hitplane_out)
  /\ (is_Some face_out' <-> is_Some face_out)
  /\ (ty <> NONE -> is_Some face_out ->
      exists face : bsp2_dface_t,
        face_out' = Some (Some face) /\ 3 <= numedges face
        /\ (ty = SKY -> face ∈ skyfaces faces)
        /\ (ty = SOLID -> face ∈ solidfaces faces \/ face ∈ filterfaces faces)).
Proof.
  intros [-> _]%build_scene_inv. unfold Embree_DirtTrace.
  returned Hq. destruct a as [ctx ray].
  destruct (ray_geomID ray =? RTC_INVALID_GEOMETRY_ID) eqn:Hnone.
  { intros [= <- <- <- <-]. repeat split; try done. }
  unfold Embree_SceneinfoForGeomID.
  cbn [built_globals skygeom solidgeom filtergeom face_sceneinfo geomID triToFace].
  destruct face_out as [old|]; cbn [mbind outcome_bind].
  2:{ intros [= <- <- <- <-]. rewrite !fmap_is_Some.
      split; [by destruct (ray_geomID ray =? 0)|].
      split; [done|]. split; [done|]. split; [done|]. by intros _ [x Hx]. }
  destruct (ray_geomID ray =? 0) eqn:E0; cbn [mbind outcome_bind].
  { destruct (vector_at _ _) as [face|] eqn:Hat; cbn [mbind outcome_bind];
      [|discriminate].
    intros [= <- <- <- <-]. rewrite !fmap_is_Some.
    apply table_face_member in Hat as [Hin Hedges].
    split; [discriminate|]. split; [done|]. split; [done|].
    split; [by split; eauto|].
    intros _ _. exists face. split; [done|]. split; [done|].
    split; [done|discriminate]. }
  destruct (ray_geomID ray =? 1) eqn:E1; cbn [mbind outcome_bind].
  { destruct (vector_at _ _) as [face|] eqn:Hat; cbn [mbind outcome_bind];
      [|discriminate].
    intros [= <- <- <- <-]. rewrite !fmap_is_Some.
    apply table_face_member in Hat as [Hin Hedges].
    split; [discriminate|]. split; [done|]. split; [done|].
    split; [by split; eauto|].
    intros _ _. exists face. split; [done|]. split; [done|].
    split; [discriminate|by left]. }
  destruct (ray_geomID ray =? 2) eqn:E2; cbn [mbind outcome_bind]; [|discriminate].
  destruct (vector_at _ _) as [face|] eqn:Hat; cbn [mbind outcome_bind];
    [|discriminate].
  intros [= <- <- <- <-]. rewrite !fmap_is_Some.
  apply table_face_member in Hat as [Hin Hedges].
  split; [discriminate|]. split; [done|]. split; [done|].
  split; [by split; eauto|].
  intros _ _. exists face. split; [done|]. split; [done|].
  split; [discriminate|by right].
Qed.

(** A dirt trace that ends on a geometry other than the three classified
    ones (the skip windings are such a geometry) answers [SOLID] when no
    face is asked for, and is the fatal error "unexpected geomID" when one
    is. *)
Theorem Embree_DirtTrace_unknown_geometry (G : globals) (start dirn : vec3)
    (maxdist : float) (querier : modelinfo_ptr) (ctx : ray_source_info)
    (ray : RTCRay) (hitdist_out : option float) (hitplane_out : option plane_t)
    (old : option bsp2_dface_t) :
  rtcIntersect1Ex G (new_ray_source_info None querier)
    (SetupRay 0 start dirn maxdist) = Ok (ctx, ray) ->
  ray_geomID ray <> RTC_INVALID_GEOMETRY_ID ->
  ray_geomID ray <> geomID (skygeom G) ->
  ray_geomID ray <> geomID (solidgeom G) ->
  ray_geomID ray <> geomID (filtergeom G) ->
  Embree_DirtTrace G start dirn maxdist querier hitdist_out hitplane_out
    (Some old) = Fatal "unexpected geomID"
  /\ exists (hitdist_out' : option float) (hitplane_out' : option plane_t),
       Embree_DirtTrace G start dirn maxdist querier hitdist_out hitplane_out None
       = Ok (SOLID, hitdist_out', hitplane_out', None).
Proof.
  intros Hq Hhit Hsky Hsolid Hfilter. unfold Embree_DirtTrace. rewrite Hq.
  cbn [mbind outcome_bind].
  apply Z.eqb_neq in Hhit. rewrite Hhit.
  rewrite sceneinfo_unknown by done. split; [reflexivity|].
  cbn [mbind outcome_bind]. apply Z.eqb_neq in Hsky. rewrite Hsky.
  by eexists _, _.
Qed.

End SingleRayProofs.

(** The first potential hit lies on the skip geometry: occluded, although
    the model that asks is the world and the skip windings belong to no
    model. *)
Lemma Embree_TestLight_unfiltered_hit_witness :
  @Embree_TestLight demo_externals skip_backend demo_globals vec3_zero upward
    (Some demo_world)
  = Ok {| visible := false; dynamicStyle := 0 |}.
Proof.
  apply (@Embree_TestLight_unfiltered_hit demo_externals skip_backend
           demo_bsp demo_facelists demo_skip demo_globals vec3_zero upward
           (Some demo_world) demo_skip_hit [demo_wall_hit]).
  - vm_compute. reflexivity.
  - reflexivity.
  - vm_compute. discriminate.
Defined.

Lemma Embree_TestSky_face_witness :
  (visible {| visible := true; dynamicStyle := 0 |} = true ->
   exists face : bsp2_dface_t,
     Some (Some {| face_addr := 1; numedges := 3; texinfo := 1 |})
     = Some (Some face)
     /\ face ∈ skyfaces demo_facelists /\ 3 <= numedges face)
  /\ (visible {| visible := true; dynamicStyle := 0 |} = false ->
      Some (Some {| face_addr := 1; numedges := 3; texinfo := 1 |}) = Some None).
Proof.
  apply (@Embree_TestSky_face demo_externals sky_backend (float_of_int 1000000)
           demo_bsp demo_facelists demo_skip demo_globals vec3_zero upward
           None None).
  - vm_compute. reflexivity.
  - vm_compute. reflexivity.
Defined.

Lemma Embree_DirtTrace_result_witness :
  demo_dirt.1.1.1 = SOLID
  /\ exists face : bsp2_dface_t,
       demo_dirt.2 = Some (Some face) /\ 3 <= numedges face
       /\ (demo_dirt.1.1.1 = SKY -> face ∈ skyfaces demo_facelists)
       /\ (demo_dirt.1.1.1 = SOLID ->
           face ∈ solidfaces demo_facelists \/ face ∈ filterfaces demo_facelists).
Proof.
  split; [reflexivity|].
  apply (@Embree_DirtTrace_result demo_externals wall_backend
           demo_bsp demo_facelists demo_skip demo_globals vec3_zero upward
           (float_of_int 100) None
           (Some f0) demo_dirt.1.1.2
           (Some {| normal := vec3_zero; dist := f0 |}) demo_dirt.1.2
           (Some None) demo_dirt.2 demo_dirt.1.1.1).
  - vm_compute. reflexivity.
  - vm_compute. reflexivity.
  - discriminate.
  - by eexists.
Defined.

(** The nearest potential hit lies on the skip geometry, id 3. *)
Lemma Embree_DirtTrace_unknown_geometry_witness :
  @Embree_DirtTrace demo_externals skip_backend demo_globals vec3_zero upward
    (float_of_int 100) None None None (Some None)
  = Fatal "unexpected geomID"
  /\ exists (hitdist_out' : option float) (hitplane_out' : option plane_t),
       @Embree_DirtTrace demo_externals skip_backend demo_globals vec3_zero
         upward (float_of_int 100) None None None None
       = Ok (SOLID, hitdist_out', hitplane_out', None).
Proof.
  apply (@Embree_DirtTrace_unknown_geometry demo_externals skip_backend
           demo_globals vec3_zero upward (float_of_int 100) None
           (new_ray_source_info None None)
           (copy_hit (SetupRay 0 vec3_zero upward (float_of_int 100))
                     demo_skip_hit)).
  - vm_compute. reflexivity.
  - vm_compute. discriminate.
  - vm_compute. discriminate.
  - vm_compute. discriminate.
  - vm_compute. discriminate.
Defined.

(** ** Writing to and reading from a stream *)

Lemma array_read_insert_eq {A} (arr : list A) (i : Z) (x : A) :
  0 <= i < Z.of_nat (length arr) ->
  array_read (<[Z.to_nat i := x]> arr) i = Ok x.
Proof.
  intros Hi. rewrite <- (Z2Nat.id i) at 2 by lia. apply array_read_Ok.
  apply list_lookup_insert_eq. lia.
Qed.

Lemma array_read_insert_ne {A} (arr : list A) (i j : Z) (x : A) :
  0 <= i -> i <> j ->
  array_read (<[Z.to_nat i := x]> arr) j = array_read arr j.
Proof.
  intros Hi Hne. unfold array_read. rewrite length_insert.
  destruct (0 <=? j) eqn:Hj; [|done]. apply Z.leb_le in Hj.
  by rewrite list_lookup_insert_ne by lia.
Qed.

Section ReaderProofs.
Context `{Externals} `{Backend}.

Lemma pushRay_fields (rs rs' : raystream_embree_t) (i : Z) (origin dirn : vec3)
    (maxdist : float) (color normalcontrib : option vec3) :
  pushRay rs i origin dirn maxdist color normalcontrib = Ok rs' ->
  0 <= _numrays rs < _maxrays rs
  /\ _maxrays rs' = _maxrays rs
  /\ _numrays rs' = _numrays rs + 1
  /\ _numrays rs < Z.of_nat (length (_rays rs))
  /\ _rays rs' = <[Z.to_nat (_numrays rs) :=
                     SetupRay (_numrays rs) origin dirn maxdist]> (_rays rs)
  /\ _numrays rs < Z.of_nat (length (_rays_maxdist rs))
  /\ _rays_maxdist rs' = <[Z.to_nat (_numrays rs) := maxdist]> (_rays_maxdist rs)
  /\ _numrays rs < Z.of_nat (length (_point_indices rs))
  /\ _point_indices rs' = <[Z.to_nat (_numrays rs) := i]> (_point_indices rs)
  /\ match color with
     | Some c => _numrays rs < Z.of_nat (length (_ray_colors rs))
                 /\ _ray_colors rs' = <[Z.to_nat (_numrays rs) := c]> (_ray_colors rs)
     | None => _ray_colors rs' = _ray_colors rs
     end
  /\ match normalcontrib with
     | Some c => _numrays rs < Z.of_nat (length (_ray_normalcontribs rs))
                 /\ _ray_normalcontribs rs'
                    = <[Z.to_nat (_numrays rs) := c]> (_ray_normalcontribs rs)
     | None => _ray_normalcontribs rs' = _ray_normalcontribs rs
     end
  /\ _numrays rs < Z.of_nat (length (_ray_dynamic_styles rs))
  /\ _ray_dynamic_styles rs'
     = <[Z.to_nat (_numrays rs) := 0]> (_ray_dynamic_styles rs).
Proof.
  unfold pushRay. returned Hroom. returned H1. returned H2. returned H3.
  returned H4. returned H5. returned H6. intros [= <-].
  apply array_store_inv in H1 as [? ->], H2 as [? ->], H3 as [? ->], H6 as [? ->].
  cbn. apply Z.ltb_lt in Hroom.
  repeat (split; [first [done | lia]|]).
  split; [|split; [|split; [lia|done]]].
  - destruct color; [by apply array_store_inv in H4 as [[] ->]|by injection H4].
  - destruct normalcontrib;
      [by apply array_store_inv in H5 as [[] ->]|by injection H5].
Qed.

(** What was pushed is what is read: after [pushRay] the readers give, for
    the slot just filled, the point index, distance and direction that
    were pushed, no hit, style 0, and the colour and normal contribution
    that were passed.  Where a null pointer was passed for one of these
    two, the slot keeps what it held before. *)
Theorem pushRay_then_read (G : globals) (rs rs' : raystream_embree_t) (i : Z)
    (origin dirn : vec3) (maxdist : float) (color normalcontrib : option vec3) :
  pushRay rs i origin dirn maxdist color normalcontrib = Ok rs' ->
  numPushedRays rs' = numPushedRays rs + 1
  /\ getPushedRayPointIndex rs' (_numrays rs) = Ok i
  /\ getPushedRayDist rs' (_numrays rs) = Ok maxdist
  /\ getPushedRayHitDist rs' (_numrays rs) = Ok maxdist
  /\ getPushedRayDir rs' (_numrays rs) = Ok dirn
  /\ getPushedRayOccluded rs' (_numrays rs) = Ok false
  /\ getPushedRayHitType G rs' (_numrays rs) = Ok NONE
  /\ getPushedRayHitFace G rs' (_numrays rs) = Ok None
  /\ getPushedRayDynamicStyle rs' (_numrays rs) = Ok 0
  /\ getPushedRayColor rs' (_numrays rs)
     = match color with
       | Some c => Ok c
       | None => getPushedRayColor rs (_numrays rs)
       end
  /\ getPushedRayNormalContrib rs' (_numrays rs)
     = match normalcontrib with
       | Some c => Ok c
       | None => getPushedRayNormalContrib rs (_numrays rs)
       end.
Proof.
  intros (Hroom & Hmax & Hnum & Hl1 & Hrays & Hl2 & Hdist & Hl3 & Hidx & Hcol
          & Hnc & Hl6 & Hsty)%pushRay_fields.
  unfold numPushedRays, getPushedRayPointIndex, getPushedRayDist,
    getPushedRayHitDist, getPushedRayDir, getPushedRayOccluded,
    getPushedRayHitType, getPushedRayHitFace, getPushedRayDynamicStyle,
    getPushedRayColor, getPushedRayNormalContrib, Q_assert.
  rewrite Hmax, Hrays, Hdist, Hidx, Hsty.
  destruct (_numrays rs <? _maxrays rs) eqn:E; [|lia]. cbn [mbind outcome_bind].
  rewrite !array_read_insert_eq by lia. cbn [mbind outcome_bind].
  repeat (split; [done|]). split.
  - destruct color as [c|]; [destruct Hcol as [Hl4 ->]|by rewrite Hcol].
    by rewrite array_read_insert_eq by lia.
  - destruct normalcontrib as [c|]; [destruct Hnc as [Hl5 ->]|by rewrite Hnc].
    by rewrite array_read_insert_eq by lia.
Qed.

(** [pushRay] writes one slot: what the readers give for any other slot is
    what they gave before. *)
Theorem pushRay_other_slots (G : globals) (rs rs' : raystream_embree_t)
    (i : Z) (origin dirn : vec3) (maxdist : float)
    (color normalcontrib : option vec3) (j : Z) :
  pushRay rs i origin dirn maxdist color normalcontrib = Ok rs' ->
  j <> _numrays rs ->
  read_slot G rs' j = read_slot G rs j.
Proof.
  intros (Hroom & Hmax & Hnum & Hl1 & Hrays & Hl2 & Hdist & Hl3 & Hidx & Hcol
          & Hnc & Hl6 & Hsty)%pushRay_fields Hj.
  assert (Hc : _ray_colors rs' = _ray_colors rs
               \/ exists c, _ray_colors rs'
                            = <[Z.to_nat (_numrays rs) := c]> (_ray_colors rs)).
  { destruct color as [c|]; [right; exists c; apply Hcol|by left]. }
  assert (Hn : _ray_normalcontribs rs' = _ray_normalcontribs rs
               \/ exists c, _ray_normalcontribs rs'
                            = <[Z.to_nat (_numrays rs) := c]>
                                (_ray_normalcontribs rs)).
  { destruct normalcontrib as [c|]; [right; exists c; apply Hnc|by left]. }
  unfold read_slot, getPushedRayPointIndex, getPushedRayDist,
    getPushedRayHitDist, getPushedRayDir, getPushedRayOccluded,
    getPushedRayHitType, getPushedRayHitFace, getPushedRayDynamicStyle,
    getPushedRayColor, getPushedRayNormalContrib.
  rewrite Hmax, Hrays, Hdist, Hidx, Hsty.
  rewrite !array_read_insert_ne by lia.
  destruct Hc as [->|[c ->]], Hn as [->|[c' ->]];
    by rewrite ?array_read_insert_ne by lia.
Qed.

(** The readers are bounded by the capacity, not by the number of pushed
    rays: on a stream as constructed and used, every slot below the
    capacity can be read, pushed or not, and a slot from the capacity on
    fails the assertion [j < _maxrays]. *)
Theorem readers_bounded_by_capacity (G : globals) (rs : raystream_embree_t)
    (j : Z) :
  stream_ok rs -> 0 <= j ->
  (j < _maxrays rs ->
   (exists b, getPushedRayOccluded rs j = Ok b)
   /\ (exists d, getPushedRayDist rs j = Ok d)
   /\ (exists d, getPushedRayHitDist rs j = Ok d)
   /\ (exists ty, getPushedRayHitType G rs j = Ok ty)
   /\ (exists v, getPushedRayDir rs j = Ok v)
   /\ (exists n, getPushedRayPointIndex rs j = Ok n)
   /\ (exists c, getPushedRayColor rs j = Ok c)
   /\ (exists c, getPushedRayNormalContrib rs j = Ok c)
   /\ (exists style, getPushedRayDynamicStyle rs j = Ok style))
  /\ (_maxrays rs <= j ->
      read_slot G rs j
      = (Fatal "j < _maxrays", Fatal "j < _maxrays", Fatal "j < _maxrays",
         Fatal "j < _maxrays", Fatal "j < _maxrays", Fatal "j < _maxrays",
         Fatal "j < _maxrays", Fatal "j < _maxrays", Fatal "j < _maxrays",
         Fatal "j < _maxrays")).
Proof.
  intros [Hcount Harrays] Hj. unfold stream_shape in Harrays.
  cbn in Harrays. injection Harrays as H1 H2 H3 H4 H5 H6.
  unfold read_slot, getPushedRayPointIndex, getPushedRayDist,
    getPushedRayHitDist, getPushedRayDir, getPushedRayOccluded,
    getPushedRayHitType, getPushedRayHitFace, getPushedRayDynamicStyle,
    getPushedRayColor, getPushedRayNormalContrib, Q_assert.
  split; intros Hcap.
  - destruct (j <? _maxrays rs) eqn:E; [|lia]. cbn [mbind outcome_bind].
    destruct (array_read_in_range (_rays rs) j) as [ray ->]; [lia|].
    destruct (array_read_in_range (_rays_maxdist rs) j) as [d ->]; [lia|].
    destruct (array_read_in_range (_point_indices rs) j) as [n ->]; [lia|].
    destruct (array_read_in_range (_ray_colors rs) j) as [c ->]; [lia|].
    destruct (array_read_in_range (_ray_normalcontribs rs) j) as [c' ->]; [lia|].
    destruct (array_read_in_range (_ray_dynamic_styles rs) j) as [style ->]; [lia|].
    cbn [mbind outcome_bind]. repeat split; eauto.
    destruct (_ =? RTC_INVALID_GEOMETRY_ID); [eauto|].
    destruct (_ =? _); eauto.
  - destruct (j <? _maxrays rs) eqn:E; [lia|]. reflexivity.
Qed.

(** Clearing forgets the count and nothing else: a ray pushed into a
    cleared stream without a colour or a normal contribution reads with
    the colour and the normal contribution of the ray that held slot 0
    before, as the last trace left them. *)
Theorem reused_slot_keeps_color (rs rs' : raystream_embree_t) (i : Z)
    (origin dirn : vec3) (maxdist : float) :
  pushRay (clearPushedRays rs) i origin dirn maxdist None None = Ok rs' ->
  numPushedRays rs' = 1
  /\ getPushedRayColor rs' 0 = getPushedRayColor rs 0
  /\ getPushedRayNormalContrib rs' 0 = getPushedRayNormalContrib rs 0.
Proof.
  intros (Hroom & Hmax & Hnum & _ & _ & _ & _ & _ & _ & Hcol & Hnc & _)%pushRay_fields.
  unfold numPushedRays, getPushedRayColor, getPushedRayNormalContrib.
  rewrite Hmax, Hnum, Hcol, Hnc. done.
Qed.

End ReaderProofs.

Lemma pushRay_then_read_witness :
  numPushedRays demo_one = numPushedRays demo_empty + 1
  /\ getPushedRayPointIndex demo_one (_numrays demo_empty) = Ok 7
  /\ getPushedRayDist demo_one (_numrays demo_empty) = Ok (float_of_int 100)
  /\ getPushedRayHitDist demo_one (_numrays demo_empty) = Ok (float_of_int 100)
  /\ getPushedRayDir demo_one (_numrays demo_empty) = Ok upward
  /\ getPushedRayOccluded demo_one (_numrays demo_empty) = Ok false
  /\ getPushedRayHitType demo_globals demo_one (_numrays demo_empty) = Ok NONE
  /\ getPushedRayHitFace demo_globals demo_one (_numrays demo_empty) = Ok None
  /\ getPushedRayDynamicStyle demo_one (_numrays demo_empty) = Ok 0
  /\ getPushedRayColor demo_one (_numrays demo_empty) = Ok (f1, f1, f1)
  /\ getPushedRayNormalContrib demo_one (_numrays demo_empty)
     = getPushedRayNormalContrib demo_empty (_numrays demo_empty).
Proof.
  apply (pushRay_then_read demo_globals demo_empty demo_one 7 vec3_zero upward
           (float_of_int 100) (Some (f1, f1, f1)) None).
  vm_compute. reflexivity.
Defined.

Lemma pushRay_other_slots_witness :
  read_slot demo_globals demo_full 0 = read_slot demo_globals demo_one 0.
Proof.
  apply (pushRay_other_slots demo_globals demo_one demo_full 7 vec3_zero upward
           (float_of_int 100) (Some (f1, f1, f1)) None 0).
  - vm_compute. reflexivity.
  - vm_compute. discriminate.
Defined.

(** The empty stream of capacity 2: slot 1 reads, slot 2 does not. *)
Lemma readers_bounded_by_capacity_witness :
  (exists n, getPushedRayPointIndex demo_empty 1 = Ok n)
  /\ read_slot demo_globals demo_empty 2
     = (Fatal "j < _maxrays", Fatal "j < _maxrays", Fatal "j < _maxrays",
        Fatal "j < _maxrays", Fatal "j < _maxrays", Fatal "j < _maxrays",
        Fatal "j < _maxrays", Fatal "j < _maxrays", Fatal "j < _maxrays",
        Fatal "j < _maxrays").
Proof.
  split.
  - apply (proj1 (readers_bounded_by_capacity demo_globals demo_empty 1
                    (conj (conj (Z.le_refl 0) (Zle_0_pos 2)) eq_refl)
                    (Zle_0_pos 1)) eq_refl).
  - apply (proj2 (readers_bounded_by_capacity demo_globals demo_empty 2
                    (conj (conj (Z.le_refl 0) (Zle_0_pos 2)) eq_refl)
                    (Zle_0_pos 2)) (Z.le_refl 2)).
Defined.

(** The ray traced through the red glass left its tint in slot 0; the next
    ray pushed there without a colour starts with that tint. *)
Lemma reused_slot_keeps_color_witness :
  numPushedRays demo_recycled = 1
  /\ getPushedRayColor demo_recycled 0 = getPushedRayColor demo_traced 0
  /\ getPushedRayNormalContrib demo_recycled 0
     = getPushedRayNormalContrib demo_traced 0.
Proof.
  apply (reused_slot_keeps_color demo_traced demo_recycled 9 vec3_zero upward
           (float_of_int 50)).
  vm_compute. reflexivity.
Defined.

(** ** What a trace leaves alone *)

Lemma occlusion_mark_refl (ray : RTCRay) : occlusion_mark ray ray.
Proof. by left. Qed.

Lemma occlusion_mark_trans (a b c : RTCRay) :
  occlusion_mark a b -> occlusion_mark b c -> occlusion_mark a c.
Proof. intros [->| ->] [->| ->]; (by left) || (by right). Qed.

Lemma read_dir_inputs (rays rays' : list RTCRay) (j : Z) :
  ray_inputs <$> rays' = ray_inputs <$> rays ->
  (ray ← array_read rays' j; Ok (dir ray))
  = (ray ← array_read rays j; Ok (dir ray)).
Proof.
  intros Heq. unfold array_read.
  assert (Hlen : length rays' = length rays)
    by (rewrite <- (length_fmap ray_inputs rays'), Heq; apply length_fmap).
  rewrite Hlen. destruct (_ && _); [|done].
  assert (Hj : (ray_inputs <$> rays') !! Z.to_nat j
               = (ray_inputs <$> rays) !! Z.to_nat j) by by rewrite Heq.
  rewrite !list_lookup_fmap in Hj.
  destruct (rays' !! Z.to_nat j) as [r'|], (rays !! Z.to_nat j) as [r|];
    try done.
  cbn in Hj. injection Hj as _ Hdir _ _ _. cbn. by rewrite Hdir.
Qed.

Section TraceProofs.
Context `{Externals} `{Backend}.

Lemma filter_lane_cases (ft : filtertype_t) (G : globals)
    (ctx ctx' : ray_source_info) (l l' : lane) :
  filter_lane ft G ctx l = Ok (ctx', l') ->
  l' = l \/ l' = reject l \/ l' = accept ft l.
Proof.
  unfold filter_lane.
  destruct (negb _); [by intros [= _ <-]; left|].
  returned Hlookup.
  destruct a as [hm|]; [|by intros [= _ <-]; right; left].
  destruct (world_only_rejects _ _); [by intros [= _ <-]; right; left|].
  destruct (self_only_rejects _ _); [by intros [= _ <-]; right; left|].
  destruct (switchableshadow hm).
  { returned Hdyn. by intros [= _ <-]; right; left. }
  unfold filter_transparency. returned Hface.
  destruct (hit_material _ _ _) as [[isFence isGlass] alpha].
  destruct (isFence || isGlass); [|by intros [= _ <-]; right; right].
  destruct isGlass.
  - returned Hglass. by intros [= _ <-]; right; left.
  - destruct (isFence && _); intros [= _ <-]; [by right; left|by right; right].
Qed.

Lemma single_lane_filtered (ft : filtertype_t) (G : globals)
    (ctx ctx' : ray_source_info) (l : lane) (lanes : list lane) :
  Embree_FilterFuncN ft G ctx [l] = Ok (ctx', lanes) ->
  exists l' : lane,
    lanes = [l']
    /\ ctx_inputs ctx' = ctx_inputs ctx
    /\ (_rays <$> raystream ctx') = (_rays <$> raystream ctx)
    /\ lane_kept l l'
    /\ (l' = l \/ l' = reject l \/ l' = accept ft l).
Proof.
  cbn [Embree_FilterFuncN]. returned Hlane. destruct a as [ctx1 l1].
  cbn [mbind outcome_bind]. intros [= <- <-]. exists l1.
  pose proof (filter_lane_cases _ _ _ _ _ _ Hlane) as Hcases.
  apply filter_lane_frame in Hlane as (Hin & Hrays & Hkept). done.
Qed.

Lemma occluded_by_frame (G : globals) (candidates : list RTCHit) :
  forall (ctx ctx' : ray_source_info) (ray ray' : RTCRay),
    occluded_by G ctx ray candidates = Ok (ctx', ray') ->
    ctx_inputs ctx' = ctx_inputs ctx
    /\ (_rays <$> raystream ctx') = (_rays <$> raystream ctx)
    /\ ray_inputs ray' = ray_inputs ray
    /\ occlusion_mark ray ray'.
Proof.
  induction candidates as [|hit rest IH]; intros ctx ctx' ray ray';
    cbn [occluded_by].
  - intros [= <- <-]. repeat split; by left.
  - destruct (has_filter G _); [|by intros [= <- <-]; repeat split; right].
    returned Hfilter. destruct a as [ctx1 lanes].
    apply single_lane_filtered in Hfilter
      as (l' & -> & Hin & Hrays & Hkept & Hcases).
    destruct Hcases as [->|[->| ->]]; cbn [valid reject accept lane_ray].
    + rewrite Z.eqb_refl. intros [= <- <-]. repeat split; (done || by left).
    + change (INVALID =? VALID) with false. cbn match.
      intros (Hin2 & Hrays2 & Hri & Hmark)%IH.
      repeat split; (congruence || done).
    + rewrite Z.eqb_refl. intros [= <- <-]. repeat split; (done || by right).
Qed.

Lemma intersected_by_frame (G : globals) (candidates : list RTCHit) :
  forall (ctx ctx' : ray_source_info) (ray ray' : RTCRay),
    intersected_by G ctx ray candidates = Ok (ctx', ray') ->
    ctx_inputs ctx' = ctx_inputs ctx
    /\ (_rays <$> raystream ctx') = (_rays <$> raystream ctx)
    /\ ray_inputs ray' = ray_inputs ray.
Proof.
  induction candidates as [|hit rest IH]; intros ctx ctx' ray ray';
    cbn [intersected_by].
  - intros [= <- <-]. done.
  - destruct (negb _); [apply IH|].
    destruct (has_filter G _).
    + returned Hfilter. destruct a as [ctx1 lanes].
      apply single_lane_filtered in Hfilter
        as (l' & -> & Hin & Hrays & (_ & Hri & _) & _).
      intros (Hin2 & Hrays2 & Hri2)%IH. cbn in Hri.
      repeat split; congruence.
    + intros (Hin2 & Hrays2 & Hri2)%IH. cbn in Hri2. done.
Qed.

(** Tracing with a query that keeps the inputs and relates each ray to its
    result by a preorder. *)
Section TraceLoop.
Variable query : globals -> ray_source_info -> RTCRay ->
                 outcome (ray_source_info * RTCRay).
Variable related : RTCRay -> RTCRay -> Prop.
Hypothesis related_refl : forall r, related r r.
Hypothesis related_trans :
  forall a b c, related a b -> related b c -> related a c.
Hypothesis query_frame :
  forall G ctx ctx' ray ray',
    query G ctx ray = Ok (ctx', ray') ->
    ctx_inputs ctx' = ctx_inputs ctx
    /\ (_rays <$> raystream ctx') = (_rays <$> raystream ctx)
    /\ ray_inputs ray' = ray_inputs ray
    /\ related ray ray'.

Lemma trace_pushed_frame (G : globals) (ctx ctx' : ray_source_info) (i : Z)
    (rs : raystream_embree_t) (rays0 : list RTCRay) :
  raystream ctx = Some rs ->
  Forall2 related rays0 (_rays rs) ->
  trace_pushed query G ctx i = Ok ctx' ->
  exists rs' : raystream_embree_t,
    raystream ctx' = Some rs'
    /\ ctx_inputs ctx' = ctx_inputs ctx
    /\ Forall2 related rays0 (_rays rs').
Proof.
  intros Hrs Hall. unfold trace_pushed. rewrite Hrs.
  returned Hread. returned Hq. destruct a0 as [ctx1 ray1].
  apply query_frame in Hq as (Hin & Hrays & Hri & Hrel).
  destruct (raystream ctx1) as [rs1|] eqn:Hrs1; [|discriminate].
  returned Hstore. intros [= <-].
  rewrite Hrs in Hrays. injection Hrays as Hrays.
  apply array_store_inv in Hstore as [Hi ->].
  apply array_read_inv in Hread as [_ Hread].
  exists (set_rays rs1 (<[Z.to_nat i := ray1]> (_rays rs1))).
  split; [done|]. split.
  - rewrite <- Hin. unfold ctx_inputs. rewrite Hrs1.
    cbn [set_raystream raystream self fmap option_fmap option_map].
    do 2 f_equal. unfold stream_inputs. cbn [set_rays _maxrays _numrays
      _rays_maxdist _point_indices _ray_normalcontribs _rays].
    f_equal. rewrite list_fmap_insert. apply list_insert_id.
    by rewrite list_lookup_fmap, Hrays, Hread, Hri.
  - cbn [set_rays _rays]. rewrite Hrays.
    destruct (Forall2_lookup_r _ _ _ _ _ Hall Hread) as (r0 & Hr0 & Hrel0).
    rewrite <- (list_insert_id rays0 (Z.to_nat i) r0 Hr0).
    apply Forall2_insert; [done|]. by eapply related_trans.
Qed.

Lemma trace_loop_frame (G : globals) (indices : list Z) (rays0 : list RTCRay) :
  forall (ctx ctx' : ray_source_info) (rs : raystream_embree_t),
    raystream ctx = Some rs ->
    Forall2 related rays0 (_rays rs) ->
    foldM (trace_pushed query G) indices ctx = Ok ctx' ->
    exists rs' : raystream_embree_t,
      raystream ctx' = Some rs'
      /\ ctx_inputs ctx' = ctx_inputs ctx
      /\ Forall2 related rays0 (_rays rs').
Proof.
  induction indices as [|i indices IH]; intros ctx ctx' rs Hrs Hall; cbn [foldM].
  - intros [= <-]. by exists rs.
  - returned Hstep. intros Hrest.
    destruct (trace_pushed_frame G ctx a i rs rays0 Hrs Hall Hstep)
      as (rs1 & Hrs1 & Hin1 & Hall1).
    destruct (IH a ctx' rs1 Hrs1 Hall1 Hrest) as (rs2 & Hrs2 & Hin2 & Hall2).
    exists rs2. split; [done|]. split; [congruence|done].
Qed.

Lemma trace_all_frame (G : globals) (querier : modelinfo_ptr)
    (rs rs' : raystream_embree_t) :
  trace_all query G querier rs = Ok rs' ->
  stream_inputs rs' = stream_inputs rs
  /\ Forall2 related (_rays rs) (_rays rs').
Proof.
  unfold trace_all. destruct (_numrays rs =? 0).
  { intros [= <-]. split; [done|]. by apply Forall_Forall2_diag, Forall_true. }
  returned Hloop.
  destruct (trace_loop_frame G _ (_rays rs)
              (new_ray_source_info (Some rs) querier) a rs eq_refl
              (Forall_Forall2_diag _ _ (Forall_true _ _ related_refl)) Hloop)
    as (rs1 & Hrs1 & Hin & Hall).
  rewrite Hrs1. intros [= <-]. split; [|done].
  unfold ctx_inputs in Hin. rewrite Hrs1 in Hin.
  cbn [new_ray_source_info raystream fmap option_fmap option_map] in Hin.
  congruence.
Qed.

End TraceLoop.

Lemma rtcOccluded1Ex_frame (G : globals) (ctx ctx' : ray_source_info)
    (ray ray' : RTCRay) :
  rtcOccluded1Ex G ctx ray = Ok (ctx', ray') ->
  ctx_inputs ctx' = ctx_inputs ctx
  /\ (_rays <$> raystream ctx') = (_rays <$> raystream ctx)
  /\ ray_inputs ray' = ray_inputs ray
  /\ occlusion_mark ray ray'.
Proof. apply occluded_by_frame. Qed.

Lemma rtcIntersect1Ex_frame (G : globals) (ctx ctx' : ray_source_info)
    (ray ray' : RTCRay) :
  rtcIntersect1Ex G ctx ray = Ok (ctx', ray') ->
  ctx_inputs ctx' = ctx_inputs ctx
  /\ (_rays <$> raystream ctx') = (_rays <$> raystream ctx)
  /\ ray_inputs ray' = ray_inputs ray.
Proof. apply intersected_by_frame. Qed.

Lemma traced_inputs (G : globals) (querier : modelinfo_ptr)
    (rs rs' : raystream_embree_t) :
  tracePushedRaysOcclusion G querier rs = Ok rs'
  \/ tracePushedRaysIntersection G querier rs = Ok rs' ->
  stream_inputs rs' = stream_inputs rs.
Proof.
  intros [Htrace|Htrace].
  - by apply (trace_all_frame _ occlusion_mark occlusion_mark_refl
                occlusion_mark_trans rtcOccluded1Ex_frame) in Htrace as [? _].
  - apply (trace_all_frame _ (fun _ _ => True) (fun _ => I)
             (fun _ _ _ _ _ => I)) in Htrace as [? _]; [done|].
    intros G' ctx ctx' ray ray' Hq. apply rtcIntersect1Ex_frame in Hq. tauto.
Qed.

(** A trace, of either kind, changes nothing of what was pushed: the count
    and the capacity, and for every slot the point index, the distance,
    the direction and the normal contribution the readers give. *)
Theorem tracing_keeps_pushed_data (G : globals) (querier : modelinfo_ptr)
    (rs rs' : raystream_embree_t) :
  tracePushedRaysOcclusion G querier rs = Ok rs'
  \/ tracePushedRaysIntersection G querier rs = Ok rs' ->
  numPushedRays rs' = numPushedRays rs
  /\ forall j : Z,
       getPushedRayPointIndex rs' j = getPushedRayPointIndex rs j
       /\ getPushedRayDist rs' j = getPushedRayDist rs j
       /\ getPushedRayDir rs' j = getPushedRayDir rs j
       /\ getPushedRayNormalContrib rs' j = getPushedRayNormalContrib rs j.
Proof.
  intros Hin%traced_inputs. unfold stream_inputs in Hin.
  injection Hin as Hmax Hnum Hdist Hidx Hnc Hrays.
  split; [done|]. intros j.
  unfold getPushedRayPointIndex, getPushedRayDist, getPushedRayDir,
    getPushedRayNormalContrib.
  rewrite Hmax, Hdist, Hidx, Hnc. repeat split.
  destruct (Q_assert _ _); cbn [mbind outcome_bind]; [|done].
  by apply read_dir_inputs.
Qed.

End TraceProofs.

(** ** What the readers tell after a trace *)

Section TraceReaders.
Context `{Externals} `{Backend}.

Lemma occlusion_trace_rays (G : globals) (querier : modelinfo_ptr)
    (rs rs' : raystream_embree_t) :
  tracePushedRaysOcclusion G querier rs = Ok rs' ->
  _maxrays rs' = _maxrays rs
  /\ Forall2 occlusion_mark (_rays rs) (_rays rs').
Proof.
  intros Htrace.
  apply (trace_all_frame _ occlusion_mark occlusion_mark_refl
           occlusion_mark_trans rtcOccluded1Ex_frame) in Htrace as [Hin Hall].
  split; [|done]. unfold stream_inputs in Hin. by injection Hin.
Qed.

(** An occlusion trace writes one thing into a ray: the geometry id 0 that
    marks it occluded.  Every ray of the stream is afterwards as it was,
    or as it was with geometry id 0; primitive id, normal, [u], [v] and
    [tfar] are never written. *)
Theorem occlusion_trace_marks (G : globals) (querier : modelinfo_ptr)
    (rs rs' : raystream_embree_t) :
  tracePushedRaysOcclusion G querier rs = Ok rs' ->
  length (_rays rs') = length (_rays rs)
  /\ forall (j : nat) (ray' : RTCRay),
       _rays rs' !! j = Some ray' ->
       exists ray : RTCRay,
         _rays rs !! j = Some ray
         /\ (ray' = ray \/ ray' = set_ray_geomID ray 0).
Proof.
  intros [_ Hall]%occlusion_trace_rays.
  split; [symmetry; by eapply Forall2_length|].
  intros j ray' Hj. by apply (Forall2_lookup_r _ _ _ _ _ Hall Hj).
Qed.

(** Hence the hit readers are of no use after an occlusion trace in a
    built scene, where geometry 0 is the sky: a pushed ray that reads as
    occluded reads with hit type [SKY] whatever occluded it, its hit
    distance is still the distance pushed, and asking for its face throws,
    the primitive id being still the invalid one. *)
Theorem occlusion_trace_hit_readers (bsp : mbsp_t) (faces : facelists)
    (windings : list winding_t) (G : globals) (querier : modelinfo_ptr)
    (rs rs' : raystream_embree_t) (j rayindex : Z) (origin dirn : vec3)
    (maxdist : float) :
  build_scene bsp faces windings = Ok G ->
  count_triangles (skyfaces faces) < 2 ^ 31 ->
  0 <= j ->
  _rays rs !! Z.to_nat j = Some (SetupRay rayindex origin dirn maxdist) ->
  tracePushedRaysOcclusion G querier rs = Ok rs' ->
  getPushedRayOccluded rs' j = Ok true ->
  getPushedRayHitType G rs' j = Ok SKY
  /\ getPushedRayHitDist rs' j = Ok maxdist
  /\ getPushedRayHitFace G rs' j = Fatal "vector::at".
Proof.
  intros [-> _]%build_scene_inv Hsky Hj Hpushed [Hmax Hall]%occlusion_trace_rays.
  destruct (Forall2_lookup_l _ _ _ _ _ Hall Hpushed) as (ray' & Hray' & Hmark).
  unfold getPushedRayOccluded, getPushedRayHitType, getPushedRayHitDist,
    getPushedRayHitFace.
  returned Hcap. rewrite <- (Z2Nat.id j) at 1 2 3 4 by lia.
  rewrite (array_read_Ok _ _ _ Hray'). cbn [mbind outcome_bind].
  destruct Hmark as [->| ->]; [by intros [= ?]|]. intros _.
  change (ray_geomID (set_ray_geomID (SetupRay rayindex origin dirn maxdist) 0))
    with 0.
  change (ray_primID (set_ray_geomID (SetupRay rayindex origin dirn maxdist) 0))
    with RTC_INVALID_GEOMETRY_ID.
  change (tfar (set_ray_geomID (SetupRay rayindex origin dirn maxdist) 0))
    with maxdist.
  change (0 =? RTC_INVALID_GEOMETRY_ID) with false.
  change (0 =? geomID (skygeom (built_globals bsp faces windings))) with true.
  change (Embree_SceneinfoForGeomID (built_globals bsp faces windings) 0)
    with (Ok (face_sceneinfo bsp 0 (skyfaces faces))).
  cbn [mbind outcome_bind face_sceneinfo triToFace].
  split; [done|]. split; [done|].
  rewrite vector_at_out_of_range; [done|].
  rewrite length_fmap, <- (count_triangles_emitted bsp).
  unfold RTC_INVALID_GEOMETRY_ID. lia.
Qed.

(** The hit type and the hit face of a slot, in a built scene.  Where
    [getPushedRayHitType] returns [NONE], the slot reads as not occluded
    and its face as null.  Where it returns [SKY], the slot reads as
    occluded, and the face reader gives a face classified as sky, or fails
    in [at] when the primitive is not one of the sky mesh.  Where it
    returns [SOLID], the slot reads as occluded, and the face reader gives
    a face classified as solid or filtered, or fails: in [at], or with
    "unexpected geomID" for a geometry that is none of the three.  So the
    readers agree on every slot on which the face reader returns. *)
Theorem hit_type_matches_face (bsp : mbsp_t) (faces : facelists)
    (windings : list winding_t) (G : globals) (rs : raystream_embree_t)
    (j : Z) (ty : hittype_t) :
  build_scene bsp faces windings = Ok G ->
  getPushedRayHitType G rs j = Ok ty ->
  match ty with
  | NONE =>
      getPushedRayOccluded rs j = Ok false
      /\ getPushedRayHitFace G rs j = Ok None
  | SKY =>
      getPushedRayOccluded rs j = Ok true
      /\ ((exists face, getPushedRayHitFace G rs j = Ok (Some face)
                        /\ face ∈ skyfaces faces)
          \/ getPushedRayHitFace G rs j = Fatal "vector::at")
  | SOLID =>
      getPushedRayOccluded rs j = Ok true
      /\ ((exists face, getPushedRayHitFace G rs j = Ok (Some face)
                        /\ (face ∈ solidfaces faces \/ face ∈ filterfaces faces))
          \/ getPushedRayHitFace G rs j = Fatal "vector::at"
          \/ getPushedRayHitFace G rs j = Fatal "unexpected geomID")
  end.
Proof.
  intros [-> _]%build_scene_inv.
  unfold getPushedRayHitType, getPushedRayHitFace, getPushedRayOccluded.
  returned Hcap. returned Hread.
  destruct (ray_geomID a =? RTC_INVALID_GEOMETRY_ID) eqn:Hnone.
  { by intros [= <-]. }
  unfold Embree_SceneinfoForGeomID.
  cbn [built_globals skygeom solidgeom filtergeom face_sceneinfo geomID
       triToFace negb].
  assert (Hat : forall fs : list bsp2_dface_t,
            (exists face,
               vector_at (emitted_face <$> emitted bsp fs) (ray_primID a) = Ok face
               /\ face ∈ fs)
            \/ vector_at (emitted_face <$> emitted bsp fs) (ray_primID a)
               = Fatal "vector::at").
  { intros fs.
    destruct (decide (0 <= ray_primID a
                      < Z.of_nat (length (emitted_face <$> emitted bsp fs))))
      as [Hin|Hout]; [left|right; by apply vector_at_out_of_range].
    destruct (vector_at_in_range _ _ Hin) as [face Hface]. exists face.
    split; [done|]. by apply table_face_member in Hface as [? _]. }
  destruct (ray_geomID a =? 0) eqn:E0;
    cbn [mbind outcome_bind face_sceneinfo triToFace].
  { intros [= <-]. split; [done|].
    destruct (Hat (skyfaces faces)) as [(face & -> & Hin)| ->]; [left|by right].
    by exists face. }
  intros [= <-]. split; [done|].
  destruct (ray_geomID a =? 1) eqn:E1;
    cbn [mbind outcome_bind face_sceneinfo triToFace].
  { destruct (Hat (solidfaces faces)) as [(face & -> & Hin)| ->];
      [left|right; by left].
    exists face. split; [done|by left]. }
  destruct (ray_geomID a =? 2) eqn:E2;
    cbn [mbind outcome_bind face_sceneinfo triToFace]; [|right; by right].
  destruct (Hat (filterfaces faces)) as [(face & -> & Hin)| ->];
    [left|right; by left].
  exists face. split; [done|by right].
Qed.

(** A ray whose hit lies on a geometry other than the three classified
    ones (the skip windings, after an intersection trace): it reads as
    occluded with hit type [SOLID], and asking for its face is the fatal
    error "unexpected geomID". *)
Theorem getPushedRayHitFace_unknown_geometry (G : globals)
    (rs : raystream_embree_t) (j : Z) (ray : RTCRay) :
  j < _maxrays rs ->
  array_read (_rays rs) j = Ok ray ->
  ray_geomID ray <> RTC_INVALID_GEOMETRY_ID ->
  ray_geomID ray <> geomID (skygeom G) ->
  ray_geomID ray <> geomID (solidgeom G) ->
  ray_geomID ray <> geomID (filtergeom G) ->
  getPushedRayOccluded rs j = Ok true
  /\ getPushedRayHitType G rs j = Ok SOLID
  /\ getPushedRayHitFace G rs j = Fatal "unexpected geomID".
Proof.
  intros Hcap%Z.ltb_lt Hread Hhit%Z.eqb_neq Hsky Hsolid Hfilter.
  unfold getPushedRayOccluded, getPushedRayHitType, getPushedRayHitFace, Q_assert.
  rewrite Hcap, Hread. cbn [mbind outcome_bind]. rewrite Hhit.
  rewrite sceneinfo_unknown by done. apply Z.eqb_neq in Hsky. rewrite Hsky.
  done.
Qed.

End TraceReaders.

Lemma tracing_keeps_pushed_data_witness :
  numPushedRays demo_traced = numPushedRays demo_full
  /\ forall j : Z,
       getPushedRayPointIndex demo_traced j = getPushedRayPointIndex demo_full j
       /\ getPushedRayDist demo_traced j = getPushedRayDist demo_full j
       /\ getPushedRayDir demo_traced j = getPushedRayDir demo_full j
       /\ getPushedRayNormalContrib demo_traced j
          = getPushedRayNormalContrib demo_full j.
Proof.
  apply (@tracing_keeps_pushed_data demo_externals demo_backend demo_globals
           None demo_full demo_traced).
  left. vm_compute. reflexivity.
Defined.

Lemma occlusion_trace_marks_witness :
  length (_rays demo_walled) = length (_rays demo_full)
  /\ forall (j : nat) (ray' : RTCRay),
       _rays demo_walled !! j = Some ray' ->
       exists ray : RTCRay,
         _rays demo_full !! j = Some ray
         /\ (ray' = ray \/ ray' = set_ray_geomID ray 0).
Proof.
  apply (@occlusion_trace_marks demo_externals wall_backend demo_globals None
           demo_full demo_walled).
  vm_compute. reflexivity.
Defined.

(** The rays were occluded by the world's wall, a solid face; they read as
    sky hits at the pushed distance of 100, not at the wall's 20. *)
Lemma occlusion_trace_hit_readers_witness :
  getPushedRayHitType demo_globals demo_walled 1 = Ok SKY
  /\ getPushedRayHitDist demo_walled 1 = Ok (float_of_int 100)
  /\ getPushedRayHitFace demo_globals demo_walled 1 = Fatal "vector::at".
Proof.
  apply (@occlusion_trace_hit_readers demo_externals wall_backend
           demo_bsp demo_facelists demo_skip demo_globals None
           demo_full demo_walled 1 1 vec3_zero upward (float_of_int 100)).
  - vm_compute. reflexivity.
  - vm_compute. reflexivity.
  - lia.
  - vm_compute. reflexivity.
  - vm_compute. reflexivity.
  - vm_compute. reflexivity.
Defined.

(** After the intersection trace on the demonstration map slot 0 has met
    the world's wall: hit type [SOLID], occluded, and the face reader is
    in one of the three cases. *)
Lemma hit_type_matches_face_witness :
  getPushedRayOccluded demo_intersected 0 = Ok true
  /\ ((exists face : bsp2_dface_t,
         getPushedRayHitFace demo_globals demo_intersected 0 = Ok (Some face)
         /\ (face ∈ solidfaces demo_facelists \/ face ∈ filterfaces demo_facelists))
      \/ getPushedRayHitFace demo_globals demo_intersected 0 = Fatal "vector::at"
      \/ getPushedRayHitFace demo_globals demo_intersected 0
         = Fatal "unexpected geomID").
Proof.
  apply (hit_type_matches_face demo_bsp demo_facelists demo_skip demo_globals
           demo_intersected 0 SOLID).
  - vm_compute. reflexivity.
  - vm_compute. reflexivity.
Defined.

Lemma getPushedRayHitFace_unknown_geometry_witness :
  getPushedRayOccluded demo_skipped 0 = Ok true
  /\ getPushedRayHitType demo_globals demo_skipped 0 = Ok SOLID
  /\ getPushedRayHitFace demo_globals demo_skipped 0 = Fatal "unexpected geomID".
Proof.
  apply (getPushedRayHitFace_unknown_geometry demo_globals demo_skipped 0
           (copy_hit (SetupRay 0 vec3_zero upward (float_of_int 100))
                     demo_skip_hit)).
  - reflexivity.
  - vm_compute. reflexivity.
  - vm_compute. discriminate.
  - vm_compute. discriminate.
  - vm_compute. discriminate.
  - vm_compute. discriminate.
Defined.

(** ** The ray index *)

Section MaskProofs.
Context `{Externals} `{Backend}.

Lemma masks_pushed (rs rs' : raystream_embree_t) (i : Z) (origin dirn : vec3)
    (maxdist : float) (color normalcontrib : option vec3) :
  masks_are_slots rs ->
  pushRay rs i origin dirn maxdist color normalcontrib = Ok rs' ->
  masks_are_slots rs'.
Proof.
  intros Hmasks (Hroom & _ & Hnum & Hlen & Hrays & _)%pushRay_fields j Hj.
  rewrite Hrays. destruct (decide (j = _numrays rs)) as [->|Hne].
  - eexists. split; [apply list_lookup_insert_eq; lia|reflexivity].
  - rewrite list_lookup_insert_ne by lia. apply Hmasks. lia.
Qed.

Lemma masks_traced (G : globals) (querier : modelinfo_ptr)
    (rs rs' : raystream_embree_t) :
  masks_are_slots rs ->
  tracePushedRaysOcclusion G querier rs = Ok rs'
  \/ tracePushedRaysIntersection G querier rs = Ok rs' ->
  masks_are_slots rs'.
Proof.
  intros Hmasks Hin%traced_inputs j Hj.
  unfold stream_inputs in Hin. injection Hin as _ Hnum _ _ _ Hrays.
  rewrite Hnum in Hj. destruct (Hmasks j Hj) as (ray & Hray & Hmask).
  assert (Hlook : (ray_inputs <$> _rays rs') !! Z.to_nat j
                  = (ray_inputs <$> _rays rs) !! Z.to_nat j) by by rewrite Hrays.
  rewrite !list_lookup_fmap, Hray in Hlook.
  destruct (_rays rs' !! Z.to_nat j) as [ray'|]; [|done].
  exists ray'. split; [done|]. cbn in Hlook. by injection Hlook as _ _ _ _ ->.
Qed.

(** The ray index round trip: after any sequence of pushes, traces and
    clears on a constructed stream, whatever its arrays held when they
    were allocated, the mask of the ray in every pushed slot is the number
    of that slot.  The filter, which reads the ray
    index from the mask, therefore tints and styles the very ray it is
    called for. *)
Theorem stream_masks_are_slots (G : globals) (fresh : uninitialised)
    (maxRays : Z) (rs0 rs : raystream_embree_t) (ops : list stream_op) :
  Embree_MakeRayStream fresh maxRays = Ok rs0 ->
  foldM (run_op G) ops rs0 = Ok rs ->
  forall j : Z,
    0 <= j < numPushedRays rs ->
    exists ray : RTCRay, _rays rs !! Z.to_nat j = Some ray /\ mask ray = j.
Proof.
  intros Hmake Hops.
  assert (Hinit : masks_are_slots rs0).
  { unfold Embree_MakeRayStream in Hmake.
    destruct (maxRays <? 0); [discriminate|]. injection Hmake as <-.
    intros j Hj. cbn in Hj. lia. }
  clear Hmake. revert rs0 Hinit Hops.
  induction ops as [|op ops IH]; intros rs0 Hinit; cbn [foldM].
  - by intros [= <-].
  - returned Hop. apply IH. destruct op; cbn [run_op] in Hop.
    + by eapply masks_pushed.
    + eapply masks_traced; [done|by left].
    + eapply masks_traced; [done|by right].
    + injection Hop as <-. intros j Hj. cbn in Hj. lia.
Qed.

End MaskProofs.

(** Two pushes and a trace: slot 1 holds a ray whose mask is 1. *)
Lemma stream_masks_are_slots_witness :
  exists ray : RTCRay,
    _rays demo_traced !! Z.to_nat 1 = Some ray /\ mask ray = 1.
Proof.
  apply (@stream_masks_are_slots demo_externals demo_backend demo_globals
           stale_memory 2 demo_empty demo_traced
           [demo_push; demo_push; OpTraceOcclusion None]).
  - vm_compute. reflexivity.
  - vm_compute. reflexivity.
  - vm_compute. split; [discriminate|reflexivity].
Defined.

(** ** The two instantiations of the filter, and the hit a query reports *)

Lemma copy_hit_twice (ray : RTCRay) (hit1 hit2 : RTCHit) :
  copy_hit (copy_hit ray hit1) hit2 = copy_hit ray hit2.
Proof. reflexivity. Qed.

Section FilterTypes.
Context `{Externals}.

Lemma filter_lane_agree (G : globals) (rsi : ray_source_info) (l : lane) :
  match filter_lane OCCLUSION G rsi l, filter_lane INTERSECTION G rsi l with
  | Ok (rsi1, l1), Ok (rsi2, l2) =>
      rsi1 = rsi2 /\ valid l1 = valid l2 /\ (valid l1 <> VALID -> l1 = l2)
  | Fatal msg1, Fatal msg2 => msg1 = msg2
  | _, _ => False
  end.
Proof.
  unfold filter_lane.
  destruct (valid l =? VALID) eqn:Hvalid; cbn [negb]; [|done].
  apply Z.eqb_eq in Hvalid.
  destruct (Embree_LookupModelinfo G _ _) as [[hm|]|]; cbn [mbind outcome_bind];
    [|done|done].
  destruct (world_only_rejects _ _); [done|].
  destruct (self_only_rejects _ _); [done|].
  destruct (switchableshadow hm).
  { by destruct (AddDynamicOccluderToRay _ _ _). }
  unfold filter_transparency.
  destruct (Embree_LookupFace G _ _) as [face|]; cbn [mbind outcome_bind]; [|done].
  destruct (hit_material _ _ _) as [[isFence isGlass] alpha].
  assert (Haccept : accept OCCLUSION l = accept OCCLUSION l
                    /\ valid (accept OCCLUSION l) = valid (accept INTERSECTION l)
                    /\ (valid (accept OCCLUSION l) <> VALID ->
                        accept OCCLUSION l = accept INTERSECTION l)).
  { split; [done|]. split; [done|]. cbn. by rewrite Hvalid. }
  destruct (isFence || isGlass); [|by destruct Haccept as (_ & ? & ?)].
  destruct isGlass.
  - destruct (flt _ _); [by destruct (AddGlassToRay _ _ _ _)|done].
  - destruct (isFence && _); [done|by destruct Haccept as (_ & ? & ?)].
Qed.

(** The occlusion filter and the intersection filter are one decision:
    on the same packet and context they fail alike or return alike, with
    the same context, the same validity for every ray, and the same ray
    wherever the ray is rejected or was not valid; they differ only in
    what they write into an accepted ray. *)
Theorem filter_types_agree (G : globals) (lanes : list lane) :
  forall rsi : ray_source_info,
    match Embree_FilterFuncN OCCLUSION G rsi lanes,
          Embree_FilterFuncN INTERSECTION G rsi lanes with
    | Ok (rsi1, lanes1), Ok (rsi2, lanes2) =>
        rsi1 = rsi2
        /\ Forall2 (fun l1 l2 =>
                      valid l1 = valid l2 /\ (valid l1 <> VALID -> l1 = l2))
                   lanes1 lanes2
    | Fatal msg1, Fatal msg2 => msg1 = msg2
    | _, _ => False
    end.
Proof.
  induction lanes as [|l lanes IH]; intros rsi; cbn [Embree_FilterFuncN]; [done|].
  pose proof (filter_lane_agree G rsi l) as Hlane.
  destruct (filter_lane OCCLUSION G rsi l) as [[rsi1 l1]|msg1],
           (filter_lane INTERSECTION G rsi l) as [[rsi2 l2]|msg2];
    cbn [mbind outcome_bind]; try done.
  destruct Hlane as (<- & Hv & Hsame). specialize (IH rsi1).
  destruct (Embree_FilterFuncN OCCLUSION G rsi1 lanes) as [[rsi3 rest1]|msg1],
           (Embree_FilterFuncN INTERSECTION G rsi1 lanes) as [[rsi4 rest2]|msg2];
    cbn [mbind outcome_bind]; try done.
  destruct IH as [<- Hall]. split; [done|]. by constructor.
Qed.

End FilterTypes.

Section OneHit.
Context `{Externals} `{Backend}.

Lemma intersected_by_one_hit (G : globals) (candidates : list RTCHit) :
  forall (ctx ctx' : ray_source_info) (ray ray' : RTCRay),
    intersected_by G ctx ray candidates = Ok (ctx', ray') ->
    ray' = ray
    \/ exists hit : RTCHit, hit ∈ candidates /\ ray' = copy_hit ray hit.
Proof.
  induction candidates as [|hit rest IH]; intros ctx ctx' ray ray';
    cbn [intersected_by].
  - intros [= _ <-]. by left.
  - assert (Hnext : forall ctx1 ray1,
              ray1 = ray \/ ray1 = copy_hit ray hit ->
              intersected_by G ctx1 ray1 rest = Ok (ctx', ray') ->
              ray' = ray
              \/ exists h : RTCHit, h ∈ hit :: rest /\ ray' = copy_hit ray h).
    { intros ctx1 ray1 Hray1 [->|(h & Hh & ->)]%IH.
      - destruct Hray1 as [->| ->]; [by left|].
        right. exists hit. split; [by left|done].
      - right. exists h. split; [by right|].
        by destruct Hray1 as [->| ->]. }
    destruct (negb _); [apply Hnext; by left|].
    destruct (has_filter G _); [|apply Hnext; by right].
    returned Hfilter. destruct a as [ctx1 lanes].
    apply single_lane_filtered in Hfilter as (l' & -> & _ & _ & _ & Hcases).
    apply Hnext. destruct Hcases as [->|[->| ->]]; cbn; auto.
Qed.

(** An intersection query never mixes two hits: the ray it returns is the
    ray it was given, or that ray with the whole record of one of its
    potential hits (normal, ids, [u], [v] and distance) copied in. *)
Theorem intersection_reports_one_hit (G : globals) (ctx ctx' : ray_source_info)
    (ray ray' : RTCRay) :
  rtcIntersect1Ex G ctx ray = Ok (ctx', ray') ->
  ray' = ray
  \/ exists hit : RTCHit,
       hit ∈ rtc_candidates (scene G) ray /\ ray' = copy_hit ray hit.
Proof. apply intersected_by_one_hit. Qed.

End OneHit.

(** Of the skip geometry at distance 5 and the wall at distance 20, the
    nearer is reported, whole. *)
Lemma intersection_reports_one_hit_witness :
  copy_hit (SetupRay 0 vec3_zero upward (float_of_int 100)) demo_skip_hit
  = SetupRay 0 vec3_zero upward (float_of_int 100)
  \/ exists hit : RTCHit,
       hit ∈ @rtc_candidates skip_backend (scene demo_globals)
               (SetupRay 0 vec3_zero upward (float_of_int 100))
       /\ copy_hit (SetupRay 0 vec3_zero upward (float_of_int 100)) demo_skip_hit
          = copy_hit (SetupRay 0 vec3_zero upward (float_of_int 100)) hit.
Proof.
  apply (@intersection_reports_one_hit demo_externals skip_backend demo_globals
           (new_ray_source_info None None) (new_ray_source_info None None)).
  vm_compute. reflexivity.
Defined.

(** ** The slots a trace writes to *)

Lemma array_read_ext {A} (arr arr' : list A) (j : Z) :
  length arr' = length arr ->
  (0 <= j -> arr' !! Z.to_nat j = arr !! Z.to_nat j) ->
  array_read arr' j = array_read arr j.
Proof.
  intros Hlen Hj. unfold array_read. rewrite Hlen.
  destruct (0 <=? j) eqn:E; [|done]. apply Z.leb_le in E. by rewrite Hj.
Qed.

Section SlotProofs.
Context `{Externals} `{Backend}.

Lemma single_lane_touch (ft : filtertype_t) (G : globals)
    (ctx ctx' : ray_source_info) (rs : raystream_embree_t) (l : lane)
    (lanes : list lane) :
  raystream ctx = Some rs ->
  Embree_FilterFuncN ft G ctx [l] = Ok (ctx', lanes) ->
  exists rs', raystream ctx' = Some rs'
              /\ touched_only (mask (lane_ray l)) rs rs'.
Proof.
  intros Hrs. cbn [Embree_FilterFuncN]. returned Hlane. destruct a as [ctx1 l1].
  cbn [mbind outcome_bind]. intros [= <- _]. by eapply filter_lane_touch.
Qed.

Lemma occluded_by_touch (G : globals) (candidates : list RTCHit) :
  forall (ctx ctx' : ray_source_info) (rs : raystream_embree_t)
         (ray ray' : RTCRay),
    raystream ctx = Some rs ->
    occluded_by G ctx ray candidates = Ok (ctx', ray') ->
    exists rs', raystream ctx' = Some rs' /\ touched_only (mask ray) rs rs'.
Proof.
  induction candidates as [|hit rest IH]; intros ctx ctx' rs ray ray' Hrs;
    cbn [occluded_by].
  - intros [= <- _]. exists rs. split; [done|apply touched_only_refl].
  - destruct (has_filter G _).
    2:{ intros [= <- _]. exists rs. split; [done|apply touched_only_refl]. }
    returned Hfilter. destruct a as [ctx1 lanes].
    destruct (single_lane_touch _ _ _ _ _ _ _ Hrs Hfilter) as (rs1 & Hrs1 & Ht1).
    apply single_lane_filtered in Hfilter
      as (l' & -> & _ & _ & (_ & Hri & _) & _).
    cbn [lane_ray] in Ht1, Hri.
    destruct (valid l' =? VALID).
    + intros [= <- _]. by exists rs1.
    + intros Hrest. destruct (IH _ _ _ _ _ Hrs1 Hrest) as (rs2 & Hrs2 & Ht2).
      exists rs2. split; [done|]. eapply touched_only_trans; [exact Ht1|].
      unfold ray_inputs in Hri. injection Hri as _ _ _ _ Hmask.
      by rewrite <- Hmask.
Qed.

Lemma intersected_by_touch (G : globals) (candidates : list RTCHit) :
  forall (ctx ctx' : ray_source_info) (rs : raystream_embree_t)
         (ray ray' : RTCRay),
    raystream ctx = Some rs ->
    intersected_by G ctx ray candidates = Ok (ctx', ray') ->
    exists rs', raystream ctx' = Some rs' /\ touched_only (mask ray) rs rs'.
Proof.
  induction candidates as [|hit rest IH]; intros ctx ctx' rs ray ray' Hrs;
    cbn [intersected_by].
  - intros [= <- _]. exists rs. split; [done|apply touched_only_refl].
  - destruct (negb _); [by apply IH|].
    destruct (has_filter G _); [|by apply (IH _ _ _ (copy_hit ray hit))].
    returned Hfilter. destruct a as [ctx1 lanes].
    destruct (single_lane_touch _ _ _ _ _ _ _ Hrs Hfilter) as (rs1 & Hrs1 & Ht1).
    apply single_lane_filtered in Hfilter
      as (l' & -> & _ & _ & (_ & Hri & _) & _).
    cbn [lane_ray] in Ht1, Hri.
    intros Hrest. destruct (IH _ _ _ _ _ Hrs1 Hrest) as (rs2 & Hrs2 & Ht2).
    exists rs2. split; [done|]. eapply touched_only_trans; [exact Ht1|].
    unfold ray_inputs in Hri. injection Hri as _ _ _ _ Hmask.
    by rewrite <- Hmask.
Qed.

Section SlotLoop.
Variable query : globals -> ray_source_info -> RTCRay ->
                 outcome (ray_source_info * RTCRay).
Hypothesis query_frame :
  forall G ctx ctx' ray ray',
    query G ctx ray = Ok (ctx', ray') ->
    ctx_inputs ctx' = ctx_inputs ctx
    /\ (_rays <$> raystream ctx') = (_rays <$> raystream ctx)
    /\ ray_inputs ray' = ray_inputs ray.
Hypothesis query_touch :
  forall G ctx ctx' rs ray ray',
    raystream ctx = Some rs ->
    query G ctx ray = Ok (ctx', ray') ->
    exists rs', raystream ctx' = Some rs' /\ touched_only (mask ray) rs rs'.

Lemma trace_pushed_slots (G : globals) (ctx ctx' : ray_source_info) (i : Z)
    (rs rs0 : raystream_embree_t) :
  raystream ctx = Some rs ->
  masks_are_slots rs0 ->
  0 <= i < _numrays rs0 ->
  stream_inputs rs = stream_inputs rs0 ->
  same_from (_numrays rs0) rs0 rs ->
  trace_pushed query G ctx i = Ok ctx' ->
  exists rs' : raystream_embree_t,
    raystream ctx' = Some rs'
    /\ stream_inputs rs' = stream_inputs rs0
    /\ same_from (_numrays rs0) rs0 rs'.
Proof.
  intros Hrs Hmasks Hi Hin Hsame. unfold trace_pushed. rewrite Hrs.
  returned Hread. returned Hq. destruct a0 as [ctx1 ray1].
  destruct (query_touch _ _ _ _ _ _ Hrs Hq) as (rs1 & Hrs1 & Htouch).
  apply query_frame in Hq as (Hin1 & Hrays & Hri).
  rewrite Hrs1. returned Hstore. intros [= <-].
  rewrite Hrs, Hrs1 in Hrays. injection Hrays as Hrays.
  apply array_store_inv in Hstore as [_ ->].
  apply array_read_inv in Hread as [_ Hread].
  assert (Hmask : mask a = i).
  { destruct (Hmasks i Hi) as (r0 & Hr0 & Hm0).
    assert (Hlook : (ray_inputs <$> _rays rs) !! Z.to_nat i
                    = (ray_inputs <$> _rays rs0) !! Z.to_nat i).
    { unfold stream_inputs in Hin. injection Hin as _ _ _ _ _ Hrs0.
      by rewrite Hrs0. }
    rewrite !list_lookup_fmap, Hread, Hr0 in Hlook. cbn in Hlook.
    injection Hlook as _ _ _ _ Hm. congruence. }
  assert (Hin2 : stream_inputs rs1 = stream_inputs rs).
  { unfold ctx_inputs in Hin1. rewrite Hrs, Hrs1 in Hin1.
    cbn [fmap option_fmap option_map] in Hin1. congruence. }
  eexists. split; [reflexivity|]. split.
  - rewrite <- Hin, <- Hin2. unfold stream_inputs.
    cbn [set_rays _maxrays _numrays _rays_maxdist _point_indices
         _ray_normalcontribs _rays].
    f_equal. rewrite list_fmap_insert. apply list_insert_id.
    by rewrite list_lookup_fmap, Hrays, Hread, Hri.
  - intros j Hj. destruct (Hsame j Hj) as (Hr & Hc & Hs).
    cbn [set_rays _rays _ray_colors _ray_dynamic_styles].
    destruct (Htouch j) as [Hc1 Hs1]; [rewrite Hmask; lia|].
    rewrite list_lookup_insert_ne by lia. rewrite Hrays, Hc1, Hs1. done.
Qed.

Lemma trace_loop_slots (G : globals) (rs0 : raystream_embree_t)
    (indices : list Z) :
  masks_are_slots rs0 ->
  Forall (fun i => 0 <= i < _numrays rs0) indices ->
  forall (ctx ctx' : ray_source_info) (rs : raystream_embree_t),
    raystream ctx = Some rs ->
    stream_inputs rs = stream_inputs rs0 ->
    same_from (_numrays rs0) rs0 rs ->
    foldM (trace_pushed query G) indices ctx = Ok ctx' ->
    exists rs' : raystream_embree_t,
      raystream ctx' = Some rs'
      /\ stream_inputs rs' = stream_inputs rs0
      /\ same_from (_numrays rs0) rs0 rs'.
Proof.
  intros Hmasks. induction 1 as [|i indices Hi _ IH];
    intros ctx ctx' rs Hrs Hin Hsame; cbn [foldM].
  - intros [= <-]. by exists rs.
  - returned Hstep. intros Hrest.
    destruct (trace_pushed_slots G ctx a i rs rs0 Hrs Hmasks Hi Hin Hsame Hstep)
      as (rs1 & Hrs1 & Hin1 & Hsame1).
    by apply (IH a ctx' rs1).
Qed.

Lemma trace_all_slots (G : globals) (querier : modelinfo_ptr)
    (rs rs' : raystream_embree_t) :
  masks_are_slots rs ->
  trace_all query G querier rs = Ok rs' ->
  stream_inputs rs' = stream_inputs rs /\ same_from (_numrays rs) rs rs'.
Proof.
  intros Hmasks. unfold trace_all. destruct (_numrays rs =? 0).
  { intros [= <-]. split; [done|]. by intros j _. }
  returned Hloop.
  destruct (trace_loop_slots G rs (seqZ 0 (_numrays rs)) Hmasks) with
    (ctx := new_ray_source_info (Some rs) querier) (ctx' := a) (rs := rs)
    as (rs1 & Hrs1 & Hin & Hsame); try done.
  { apply Forall_forall. intros i Hi%elem_of_seqZ. lia. }
  rewrite Hrs1. by intros [= <-].
Qed.

End SlotLoop.

(** A trace reads and writes pushed slots only: on a stream whose masks
    are its slot numbers (as they are on every stream used through its
    methods), all ten readers give for a slot from the count of pushed
    rays on what they gave before the trace. *)
Theorem tracing_keeps_unpushed_slots (G : globals) (querier : modelinfo_ptr)
    (rs rs' : raystream_embree_t) (j : Z) :
  masks_are_slots rs ->
  tracePushedRaysOcclusion G querier rs = Ok rs'
  \/ tracePushedRaysIntersection G querier rs = Ok rs' ->
  numPushedRays rs <= j ->
  read_slot G rs' j = read_slot G rs j.
Proof.
  intros Hmasks Htrace Hj.
  assert (Hshape : stream_shape rs' = stream_shape rs).
  { destruct Htrace as [Htrace|Htrace].
    - by apply (trace_all_shape _ rtcOccluded1Ex_shape) in Htrace.
    - by apply (trace_all_shape _ rtcIntersect1Ex_shape) in Htrace. }
  assert (Hslots : stream_inputs rs' = stream_inputs rs
                   /\ same_from (_numrays rs) rs rs').
  { destruct Htrace as [Htrace|Htrace].
    - apply (trace_all_slots rtcOccluded1Ex) in Htrace; try done.
      + intros ? ? ? ? ? Hq. apply rtcOccluded1Ex_frame in Hq. tauto.
      + intros ? ? ? ? ? ? Hrs Hq. by eapply occluded_by_touch.
    - apply (trace_all_slots rtcIntersect1Ex) in Htrace; try done.
      + apply rtcIntersect1Ex_frame.
      + intros ? ? ? ? ? ? Hrs Hq. by eapply intersected_by_touch. }
  destruct Hslots as [Hin Hsame].
  unfold stream_inputs in Hin. injection Hin as Hmax _ Hdist Hidx Hnc _.
  unfold stream_shape in Hshape. injection Hshape as _ _ Hl1 _ _ Hl4 _ Hl6.
  assert (Hrays : array_read (_rays rs') j = array_read (_rays rs) j).
  { apply array_read_ext; [done|]. intros H0j. apply Hsame.
    unfold numPushedRays in Hj. lia. }
  assert (Hcol : array_read (_ray_colors rs') j = array_read (_ray_colors rs) j).
  { apply array_read_ext; [done|]. intros H0j. apply Hsame.
    unfold numPushedRays in Hj. lia. }
  assert (Hsty : array_read (_ray_dynamic_styles rs') j
                 = array_read (_ray_dynamic_styles rs) j).
  { apply array_read_ext; [done|]. intros H0j. apply Hsame.
    unfold numPushedRays in Hj. lia. }
  unfold read_slot, getPushedRayPointIndex, getPushedRayDist,
    getPushedRayHitDist, getPushedRayDir, getPushedRayOccluded,
    getPushedRayHitType, getPushedRayHitFace, getPushedRayDynamicStyle,
    getPushedRayColor, getPushedRayNormalContrib.
  by rewrite Hmax, Hdist, Hidx, Hnc, Hrays, Hcol, Hsty.
Qed.

End SlotProofs.

(** One ray pushed of two: the trace tints slot 0 and leaves slot 1. *)
Lemma tracing_keeps_unpushed_slots_witness :
  read_slot demo_globals demo_one_traced 1 = read_slot demo_globals demo_one 1.
Proof.
  apply (@tracing_keeps_unpushed_slots demo_externals demo_backend demo_globals
           None demo_one demo_one_traced 1).
  - intros j Hj. assert (j = 0) as -> by (cbn in Hj; lia).
    eexists. split; reflexivity.
  - left. vm_compute. reflexivity.
  - vm_compute. discriminate.
Defined.
